(** * SnakeGame: the grid simulation and the A* planner

    A shallow embedding of the TypeScript sources

    - [src/enums/Snake.ts]            cell kinds, directions, coordinates
    - [src/helper/snakeHelper.ts]     [findShortestWayToFood] (A* search)
    - the single-player page          [move], [placeFood], [initBoard],
                                      [initSnake], [handleKeyDown], the
                                      food effect
    - the AI page                     [getPathfindingBoard], [move], the
                                      game loop
    - the page with two snakes, one   [getPathfindingBoard], [moveAiSnake],
      of them steered by the planner  [moveUserSnake], [updateBoard],
                                      [placeFood], the game loop
    - the two-player page             [moveSnake], [placeFood],
                                      [updateBoard], the game loop

    JavaScript numbers that hold grid indices are modelled as [Z]; arrays
    as lists; the planner's [Set<string>] of visited keys as a
    [gset string]; [Math.random()] as an explicit rational in [0,1). *)

From Stdlib Require Import ZArith QArith Qround Lia String Ascii.
From Stdlib Require Import DecimalString DecimalZ DecimalPos.
From stdpp Require Import base gmap list strings.

Local Open Scope Z_scope.

(** ** Shared enumerations ([src/enums/Snake.ts]) *)

Inductive CellType := EMPTY | SNAKE | FOOD | AI_SNAKE | USER_SNAKE.

Inductive Direction := UP | DOWN | LEFT | RIGHT.

Record Coord := mkCoord { row : Z; col : Z; type : CellType }.

#[global] Instance CellType_eq_dec : EqDecision CellType.
Proof. solve_decision. Defined.

#[global] Instance Direction_eq_dec : EqDecision Direction.
Proof. solve_decision. Defined.

(** What a JavaScript call can do: return a value, raise (here always the
    [TypeError] of reading a property of [undefined]), or fail to finish
    within the fuel the model gives its loop. *)
Inductive Completion (A : Type) :=
| Return (a : A)
| Throw
| Diverge.
Arguments Return {A} a.
Arguments Throw {A}.
Arguments Diverge {A}.

(** A grid position, and the unit vector of a heading. *)
Abbreviation Pos := (Z * Z)%type.

Definition pos_of (c : Coord) : Pos := (row c, col c).

Definition rowDelta (d : Direction) : Z :=
  match d with UP => -1 | DOWN => 1 | LEFT => 0 | RIGHT => 0 end.

Definition colDelta (d : Direction) : Z :=
  match d with UP => 0 | DOWN => 0 | LEFT => -1 | RIGHT => 1 end.

Definition shift (p : Pos) (d : Direction) : Pos :=
  (p.1 + rowDelta d, p.2 + colDelta d).

(** [s.row === r && s.col === c] *)
Definition at_pos (r c : Z) (s : Coord) : bool :=
  (row s =? r) && (col s =? c).

(** ** The planner ([src/helper/snakeHelper.ts]) *)

Module Planner.

(** The A* node.  Nodes are JavaScript objects and [parent] is a
    reference; a node is only ever mutated while it still sits in the
    open set, and only nodes already taken out of it become parents, so a
    parent chain never changes and is modelled by value. *)
#[warnings="-register-all"]
Inductive Node := mkNode {
  nrow : Z;
  ncol : Z;
  g : Z;
  h : Z;
  f : Z;
  parent : option Node
}.

Definition npos (n : Node) : Pos := (nrow n, ncol n).

(** The outcome of the search loop; [Reached] keeps the local [path]
    next to the value returned. *)
Inductive SearchResult :=
| OutOfFuel
| TypeError
| OpenSetEmpty
| Reached (path : list Node) (answer : option Direction).

Section Search.

Variable board : list (list Coord).
Variable start : Coord.
Variable food : Coord.

(** [const rows = board.length; const cols = board[0]?.length || 0] *)
Definition rows : nat := length board.
Definition cols : nat :=
  match board with [] => 0%nat | line :: _ => length line end.

(** [isValid]: [board[row][col]] is [undefined] on a short row and reading
    its [type] raises. *)
Definition isValid (r c : Z) : Completion bool :=
  if (r <? 0) || (r >=? Z.of_nat rows) || (c <? 0) || (c >=? Z.of_nat cols)
  then Return false
  else match board !! Z.to_nat r with
       | None => Throw
       | Some line =>
           match line !! Z.to_nat c with
           | None => Throw
           | Some cell =>
               Return (bool_decide (type cell = EMPTY)
                       || bool_decide (type cell = FOOD))
           end
       end.

(** [heuristic]: Manhattan distance to the food. *)
Definition heuristic (r c : Z) : Z :=
  Z.abs (r - row food) + Z.abs (c - col food).

(** [`${n}`] for an integer [n]: its decimal digits, after a minus sign
    when it is negative (JavaScript prints integers below 10^21 in
    magnitude this way). *)
Definition numberToString (n : Z) : string :=
  NilZero.string_of_int (Z.to_int n).

(** [coordKey]: the string [`${row}-${col}`]. *)
Definition coordKey (r c : Z) : string :=
  numberToString r +:+ "-" +:+ numberToString c.

Definition startNode : Node :=
  {| nrow := row start; ncol := col start; g := 0;
     h := heuristic (row start) (col start);
     f := heuristic (row start) (col start);
     parent := None |}.

(** [const moves = [...]], in the order of the source. *)
Definition moves : list Direction := [UP; DOWN; LEFT; RIGHT].

(** [openSet.sort((a, b) => a.f - b.f)]: a stable sort on [f]. *)
Fixpoint insertByF (n : Node) (l : list Node) : list Node :=
  match l with
  | [] => [n]
  | m :: l' => if f n <=? f m then n :: m :: l' else m :: insertByF n l'
  end.

Definition sortByF (l : list Node) : list Node :=
  foldr insertByF [] l.

(** [while (temp) { path.push(temp); temp = temp.parent; }] *)
Fixpoint ancestors (n : Node) : list Node :=
  match n with
  | mkNode _ _ _ _ _ None => [n]
  | mkNode _ _ _ _ _ (Some p) => n :: ancestors p
  end.

(** What the block guarded by [current.row === food.row && ...] does. *)
Inductive AtFood :=
| Answer (path : list Node) (d : option Direction)
| FallThrough.

Definition atFood (current : Node) : AtFood :=
  let path := rev (ancestors current) in
  match path with
  | [] | [_] => Answer path None          (* [path.length < 2] *)
  | _ :: nextStep :: _ =>
      if nrow nextStep <? row start then Answer path (Some UP)
      else if nrow nextStep >? row start then Answer path (Some DOWN)
      else if ncol nextStep <? col start then Answer path (Some LEFT)
      else if ncol nextStep >? col start then Answer path (Some RIGHT)
      else FallThrough
  end.

(** [openSet.find(n => n.row === newRow && n.col === newCol)] *)
Definition sameCell (r c : Z) (n : Node) : bool :=
  (nrow n =? r) && (ncol n =? c).

Definition findNode (r c : Z) (openSet : list Node) : option Node :=
  List.find (sameCell r c) openSet.

(** The assignment to [neighbor.g], [neighbor.f] and [neighbor.parent]:
    the object found is the first one at that cell, and it is updated in
    place inside the array. *)
Fixpoint improve (r c tentativeG : Z) (current : Node) (openSet : list Node)
  : list Node :=
  match openSet with
  | [] => []
  | n :: rest =>
      if sameCell r c n
      then {| nrow := nrow n; ncol := ncol n; g := tentativeG; h := h n;
              f := tentativeG + h n; parent := Some current |} :: rest
      else n :: improve r c tentativeG current rest
  end.

(** One turn of [for (const move of moves)]. *)
Definition visit (closedSet : gset string) (current : Node)
    (openSet : list Node) (move : Direction) : Completion (list Node) :=
  let newRow := nrow current + rowDelta move in
  let newCol := ncol current + colDelta move in
  match isValid newRow newCol with
  | Return true =>
      if bool_decide (coordKey newRow newCol ∈ closedSet) then Return openSet
      else
        let tentativeG := g current + 1 in
        match findNode newRow newCol openSet with
        | None =>
            Return (openSet ++
                    [ {| nrow := newRow; ncol := newCol; g := tentativeG;
                         h := heuristic newRow newCol;
                         f := tentativeG + heuristic newRow newCol;
                         parent := Some current |} ])
        | Some neighbor =>
            if tentativeG <? g neighbor
            then Return (improve newRow newCol tentativeG current openSet)
            else Return openSet
        end
  | Return false => Return openSet
  | Throw => Throw
  | Diverge => Diverge
  end.

Fixpoint expand (closedSet : gset string) (current : Node)
    (openSet : list Node) (ms : list Direction) : Completion (list Node) :=
  match ms with
  | [] => Return openSet
  | move :: ms' =>
      match visit closedSet current openSet move with
      | Return openSet' => expand closedSet current openSet' ms'
      | Throw => Throw
      | Diverge => Diverge
      end
  end.

(** The [while (openSet.length > 0)] loop. *)
Fixpoint search (fuel : nat) (openSet : list Node) (closedSet : gset string)
  : SearchResult :=
  match fuel with
  | O => OutOfFuel
  | S fuel' =>
      match openSet with
      | [] => OpenSetEmpty
      | _ :: _ =>
          match sortByF openSet with
          | [] => TypeError
          | current :: rest =>
              let closedSet' :=
                {[ coordKey (nrow current) (ncol current) ]} ∪ closedSet in
              let continue :=
                match expand closedSet' current rest moves with
                | Return openSet' => search fuel' openSet' closedSet'
                | Throw => TypeError
                | Diverge => OutOfFuel
                end in
              if (nrow current =? row food) && (ncol current =? col food)
              then match atFood current with
                   | Answer path d => Reached path d
                   | FallThrough => continue
                   end
              else continue
          end
      end
  end.

End Search.

(** Every cell is taken out of the open set at most once, so the loop
    body runs at most [rows * cols + 1] times. *)
Definition searchFuel (board : list (list Coord)) : nat :=
  S (S (rows board * cols board)).

Definition findShortestWayToFood (board : list (list Coord))
    (snake : list Coord) (food : Coord) : Completion (option Direction) :=
  match snake with
  | [] => Return None
  | start :: _ =>
      match search board start food (searchFuel board)
                   [startNode start food] ∅ with
      | OutOfFuel => Diverge
      | TypeError => Throw
      | OpenSetEmpty => Return None
      | Reached _ d => Return d
      end
  end.

(** The local [path] of the call that returned, when it reached the food. *)
Definition foundPath (board : list (list Coord))
    (snake : list Coord) (food : Coord) : option (list Node) :=
  match snake with
  | [] => None
  | start :: _ =>
      match search board start food (searchFuel board)
                   [startNode start food] ∅ with
      | Reached path _ => Some path
      | _ => None
      end
  end.

End Planner.

(** ** The single-player page ([SnakeGame], [move] and [placeFood])

    The component's React state is passed explicitly; a setter call is an
    update of the state handed on, while the function body keeps reading
    the values it closed over.  [console] collects what is logged.
    [BOARD_I_LENGTH] and [BOARD_J_LENGTH] are the constants of
    [const/SnakeConsts]; they are parameters here. *)

Abbreviation Board := (list (list Coord)).

(** [b[r][c].type = t]; reading [type] of a missing cell raises. *)
Definition paint (b : Board) (r c : Z) (t : CellType) : option Board :=
  if (r <? 0) || (c <? 0) then None
  else match b !! Z.to_nat r with
       | None => None
       | Some line =>
           match line !! Z.to_nat c with
           | None => None
           | Some cell =>
               Some (<[Z.to_nat r :=
                       <[Z.to_nat c := mkCoord (row cell) (col cell) t]> line]> b)
           end
       end.

(** [segments.forEach(s => { b[s.row][s.col].type = t; })] *)
Fixpoint paintAll (b : Board) (segments : list Coord) (t : CellType)
  : option Board :=
  match segments with
  | [] => Some b
  | s :: rest =>
      match paint b (row s) (col s) t with
      | None => None
      | Some b' => paintAll b' rest t
      end
  end.

(** [board.map(row => row.map(cell => ({...cell, type: CellType.EMPTY})))] *)
Definition clearBoard (b : Board) : Board :=
  map (map (fun cell => mkCoord (row cell) (col cell) EMPTY)) b.

(** [Math.floor(Math.random() * n)], the random number being [u]. *)
Definition randomIndex (u : Q) (n : nat) : Z :=
  Qfloor (u * inject_Z (Z.of_nat n)).

(** The nested [for] loops that collect the cells no body covers. *)
Definition freeCells (R C : nat) (occupied : Z -> Z -> bool) : list Pos :=
  i ← seqZ 0 (Z.of_nat R);
  j ← seqZ 0 (Z.of_nat C);
  if occupied i j then [] else [(i, j)].

(** [b[r][c] = upd(b[r][c])] for a matrix of any cells: the assignment
    [b[r][c].type = t] of the pages that keep their own cell kinds.
    Reading a property of a missing row or cell raises. *)
Definition assignAt {A : Type} (upd : A -> A) (b : list (list A)) (r c : Z)
  : option (list (list A)) :=
  if (r <? 0) || (c <? 0) then None
  else match b !! Z.to_nat r with
       | None => None
       | Some line =>
           match line !! Z.to_nat c with
           | None => None
           | Some cell => Some (<[Z.to_nat r := <[Z.to_nat c := upd cell]> line]> b)
           end
       end.

Fixpoint assignAll {A : Type} (upd : A -> A) (b : list (list A))
    (cells : list Pos) : option (list (list A)) :=
  match cells with
  | [] => Some b
  | p :: rest =>
      match assignAt upd b p.1 p.2 with
      | None => None
      | Some b' => assignAll upd b' rest
      end
  end.

(** [{...cell, type: t}] *)
Definition retype (t : CellType) (cell : Coord) : Coord :=
  mkCoord (row cell) (col cell) t.

(** The matrix every page starts from: cell [(i, j)] stores its own
    indices and is EMPTY. *)
Definition emptyBoard (R C : nat) : Board :=
  map (fun i => map (fun j => mkCoord i j EMPTY) (seqZ 0 (Z.of_nat C)))
      (seqZ 0 (Z.of_nat R)).

Module SnakeGame.

Record State := mkState {
  board : Board;
  snake : list Coord;
  food : option Coord;
  direction : Direction;
  console : list string
}.

Definition log (msg : string) (st : State) : State :=
  mkState (board st) (snake st) (food st) (direction st) (console st ++ [msg]).
Definition setBoard (b : Board) (st : State) : State :=
  mkState b (snake st) (food st) (direction st) (console st).
Definition setSnake (s : list Coord) (st : State) : State :=
  mkState (board st) s (food st) (direction st) (console st).
Definition setFood (fd : option Coord) (st : State) : State :=
  mkState (board st) (snake st) fd (direction st) (console st).
Definition setDirection (d : Direction) (st : State) : State :=
  mkState (board st) (snake st) (food st) d (console st).

(** The values the [useState] calls start from. *)
Definition initial : State := mkState [] [] None RIGHT [].

Section Dimensions.

Variables BOARD_I_LENGTH BOARD_J_LENGTH : nat.

Definition outside (r c : Z) : bool :=
  (r <? 0) || (r >=? Z.of_nat BOARD_I_LENGTH)
  || (c <? 0) || (c >=? Z.of_nat BOARD_J_LENGTH).

(** [const emptyCells] of [placeFood]. *)
Definition emptyCells (st : State) : list Pos :=
  freeCells BOARD_I_LENGTH BOARD_J_LENGTH
    (fun i j => existsb (at_pos i j) (snake st)).

Definition placeFood (u : Q) (st : State) : State * Completion unit :=
  match emptyCells st with
  | [] => (log "No empty cells available for food!" st, Return tt)
  | _ :: _ =>
      let i := randomIndex u (length (emptyCells st)) in
      match (if i <? 0 then None else emptyCells st !! Z.to_nat i) with
      | None => (st, Throw)
      | Some (r, c) =>
          match paint (clearBoard (board st)) r c FOOD with
          | None => (st, Throw)
          | Some newBoard =>
              (setFood (Some (mkCoord r c FOOD)) (setBoard newBoard st),
               Return tt)
          end
      end
  end.

(** [newHead] after the [switch (direction)]. *)
Definition advance (head : Coord) (d : Direction) (t : CellType) : Coord :=
  mkCoord (row head + rowDelta d) (col head + colDelta d) t.

(** [food !== null && newHead.row === food.row && newHead.col === food.col] *)
Definition eats (fd : option Coord) (newHead : Coord) : bool :=
  match fd with
  | None => false
  | Some fc => (row newHead =? row fc) && (col newHead =? col fc)
  end.

(** [snake.slice(0, snake.length - 1)] *)
Definition dropTail (s : list Coord) : list Coord :=
  take (length s - 1) s.

Definition move (st : State) : State * Completion unit :=
  match snake st with
  | [] => (st, Return tt)
  | head :: _ =>
      let newHead := advance head (direction st) SNAKE in
      if outside (row newHead) (col newHead)
      then (log "Game Over: Hit wall" st, Return tt)
      else if existsb (at_pos (row newHead) (col newHead)) (snake st)
      then (log "Game Over: Hit itself" st, Return tt)
      else
        let ateFood := eats (food st) newHead in
        let newSnake :=
          if ateFood then newHead :: snake st
          else newHead :: dropTail (snake st) in
        let st1 := if ateFood then setFood None st else st in
        let st2 := setSnake newSnake st1 in
        match paintAll (clearBoard (board st)) newSnake SNAKE with
        | None => (st2, Throw)
        | Some b =>
            match food st with
            | Some fc =>
                if ateFood then (setBoard b st2, Return tt)
                else match paint b (row fc) (col fc) FOOD with
                     | None => (st2, Throw)
                     | Some b' => (setBoard b' st2, Return tt)
                     end
            | None => (setBoard b st2, Return tt)
            end
        end
  end.

(** [initBoard] and [initSnake], and the effect that runs them on mount. *)
Definition initBoard (st : State) : State :=
  setBoard (emptyBoard BOARD_I_LENGTH BOARD_J_LENGTH) st.

Definition initSnake (st : State) : State :=
  setSnake [mkCoord (Z.of_nat BOARD_I_LENGTH / 2)
                    (Z.of_nat BOARD_J_LENGTH / 2) SNAKE] st.

Definition mount (st : State) : State := initSnake (initBoard st).

(** The effect [if (food === null && board.length > 0) placeFood()]. *)
Definition foodEffect (u : Q) (st : State) : State * Completion unit :=
  match food st with
  | None =>
      if (0 <? length (board st))%nat then placeFood u st else (st, Return tt)
  | Some _ => (st, Return tt)
  end.

(** [handleKeyDown]: an arrow key sets the heading unless the snake heads
    the opposite way. *)
Definition handleKeyDown (key : string) (st : State) : State :=
  if String.eqb key "ArrowUp"
  then if bool_decide (direction st <> DOWN) then setDirection UP st else st
  else if String.eqb key "ArrowDown"
  then if bool_decide (direction st <> UP) then setDirection DOWN st else st
  else if String.eqb key "ArrowLeft"
  then if bool_decide (direction st <> RIGHT) then setDirection LEFT st else st
  else if String.eqb key "ArrowRight"
  then if bool_decide (direction st <> LEFT) then setDirection RIGHT st else st
  else st.

End Dimensions.

End SnakeGame.

(** ** The AI page ([AiSnake], [getPathfindingBoard])

    The snapshot handed to the planner on every tick: a fresh matrix of
    [BOARD_I_LENGTH] rows and [BOARD_J_LENGTH] columns in which the cells
    of the snake are tagged SNAKE and the food cell, whatever lies on it,
    FOOD. *)

Module AiSnake.

Section Dimensions.

Variables BOARD_I_LENGTH BOARD_J_LENGTH : nat.

Definition cellType (snake : list Coord) (food : option Coord) (i j : Z)
  : CellType :=
  let cellType := EMPTY in
  let cellType := if existsb (at_pos i j) snake then SNAKE else cellType in
  match food with
  | Some fc => if (row fc =? i) && (col fc =? j) then FOOD else cellType
  | None => cellType
  end.

Definition getPathfindingBoard (snake : list Coord) (food : option Coord)
  : Board :=
  map (fun i => map (fun j => mkCoord i j (cellType snake food i j))
                    (seqZ 0 (Z.of_nat BOARD_J_LENGTH)))
      (seqZ 0 (Z.of_nat BOARD_I_LENGTH)).

(** The 100 ms step of the page and what it calls.  The page holds the
    same four state variables as the single-player page, so its state is
    the same record. *)

Definition initBoard (st : SnakeGame.State) : SnakeGame.State :=
  SnakeGame.setBoard (emptyBoard BOARD_I_LENGTH BOARD_J_LENGTH) st.

Definition initSnake (st : SnakeGame.State) : SnakeGame.State :=
  SnakeGame.setSnake [mkCoord (Z.of_nat BOARD_I_LENGTH / 2)
                              (Z.of_nat BOARD_J_LENGTH / 2) SNAKE] st.

(** [placeFood] is, statement for statement, the one of the single-player
    page. *)
Definition placeFood (u : Q) (st : SnakeGame.State)
  : SnakeGame.State * Completion unit :=
  SnakeGame.placeFood BOARD_I_LENGTH BOARD_J_LENGTH u st.

(** [move(moveDir)]: a self-collision restarts the game. *)
Definition move (moveDir : Direction) (st : SnakeGame.State)
  : SnakeGame.State * Completion unit :=
  match SnakeGame.snake st with
  | [] => (st, Return tt)
  | head :: _ =>
      let newHead := SnakeGame.advance head moveDir SNAKE in
      if SnakeGame.outside BOARD_I_LENGTH BOARD_J_LENGTH
           (row newHead) (col newHead)
      then (SnakeGame.log "Game Over: Hit wall" st, Return tt)
      else if existsb (at_pos (row newHead) (col newHead)) (SnakeGame.snake st)
      then (initSnake
              (initBoard
                 (SnakeGame.log "Game Over: Hit itself. Restarting." st)),
            Return tt)
      else
        let ateFood := SnakeGame.eats (SnakeGame.food st) newHead in
        let newSnake :=
          if ateFood then newHead :: SnakeGame.snake st
          else newHead :: SnakeGame.dropTail (SnakeGame.snake st) in
        let st1 := if ateFood then SnakeGame.setFood None st else st in
        let st2 := SnakeGame.setSnake newSnake st1 in
        match paintAll (clearBoard (SnakeGame.board st)) newSnake SNAKE with
        | None => (st2, Throw)
        | Some b =>
            match SnakeGame.food st with
            | Some fc =>
                if ateFood then (SnakeGame.setBoard b st2, Return tt)
                else match paint b (row fc) (col fc) FOOD with
                     | None => (st2, Throw)
                     | Some b' => (SnakeGame.setBoard b' st2, Return tt)
                     end
            | None => (SnakeGame.setBoard b st2, Return tt)
            end
        end
  end.

(** [findShortestWayToFood(currentPathfindingBoard, snake, food as Coord)]:
    the cast hides that [food] may be [null].  The planner then still
    returns [null] for an empty snake, and raises at [food.row] when it
    computes the heuristic of the start node otherwise. *)
Definition nextDir (st : SnakeGame.State) : Completion (option Direction) :=
  let currentPathfindingBoard :=
    getPathfindingBoard (SnakeGame.snake st) (SnakeGame.food st) in
  match SnakeGame.food st with
  | Some fc =>
      Planner.findShortestWayToFood currentPathfindingBoard
        (SnakeGame.snake st) fc
  | None =>
      match SnakeGame.snake st with
      | [] => Return None
      | _ :: _ => Throw
      end
  end.

(** The callback of the game loop's timer. *)
Definition tick (st : SnakeGame.State) : SnakeGame.State * Completion unit :=
  match nextDir st with
  | Return nextDir =>
      let moveDir :=
        match nextDir with Some d => d | None => SnakeGame.direction st end in
      move moveDir (SnakeGame.setDirection moveDir st)
  | Throw => (st, Throw)
  | Diverge => (st, Diverge)
  end.

End Dimensions.

End AiSnake.

(** ** The page with an AI snake and a user snake ([SnakeWithAi])

    The functions of one tick all read the values of the render they were
    created in, whatever the setters called before them have queued.
    They therefore take two states: [cl], the values closed over, which
    they read, and the state they update. *)

Module SnakeWithAi.

Record State := mkState {
  board : Board;
  snake : list Coord;
  userSnake : list Coord;
  food : option Coord;
  aiDirection : Direction;
  userDirection : Direction;
  console : list string
}.

Definition log (msg : string) (st : State) : State :=
  mkState (board st) (snake st) (userSnake st) (food st)
          (aiDirection st) (userDirection st) (console st ++ [msg]).
Definition setBoard (b : Board) (st : State) : State :=
  mkState b (snake st) (userSnake st) (food st)
          (aiDirection st) (userDirection st) (console st).
Definition setSnake (s : list Coord) (st : State) : State :=
  mkState (board st) s (userSnake st) (food st)
          (aiDirection st) (userDirection st) (console st).
Definition setUserSnake (s : list Coord) (st : State) : State :=
  mkState (board st) (snake st) s (food st)
          (aiDirection st) (userDirection st) (console st).
Definition setFood (fd : option Coord) (st : State) : State :=
  mkState (board st) (snake st) (userSnake st) fd
          (aiDirection st) (userDirection st) (console st).
Definition setAiDirection (d : Direction) (st : State) : State :=
  mkState (board st) (snake st) (userSnake st) (food st)
          d (userDirection st) (console st).
Definition setUserDirection (d : Direction) (st : State) : State :=
  mkState (board st) (snake st) (userSnake st) (food st)
          (aiDirection st) d (console st).

Definition initial : State := mkState [] [] [] None RIGHT RIGHT [].

Section Dimensions.

Variables BOARD_I_LENGTH BOARD_J_LENGTH : nat.

Definition cellType (cl : State) (i j : Z) : CellType :=
  let cellType := EMPTY in
  let cellType :=
    if existsb (at_pos i j) (snake cl) || existsb (at_pos i j) (userSnake cl)
    then SNAKE else cellType in
  match food cl with
  | Some fc => if (row fc =? i) && (col fc =? j) then FOOD else cellType
  | None => cellType
  end.

Definition getPathfindingBoard (cl : State) : Board :=
  map (fun i => map (fun j => mkCoord i j (cellType cl i j))
                    (seqZ 0 (Z.of_nat BOARD_J_LENGTH)))
      (seqZ 0 (Z.of_nat BOARD_I_LENGTH)).

(** [updateBoard]: a fresh matrix on which the AI snake, then the user
    snake, then the food are marked. *)
Definition updateBoard (cl st : State) : State * Completion unit :=
  match paintAll (emptyBoard BOARD_I_LENGTH BOARD_J_LENGTH)
                 (snake cl) AI_SNAKE with
  | None => (st, Throw)
  | Some b1 =>
      match paintAll b1 (userSnake cl) USER_SNAKE with
      | None => (st, Throw)
      | Some b2 =>
          match food cl with
          | None => (setBoard b2 st, Return tt)
          | Some fc =>
              match paint b2 (row fc) (col fc) FOOD with
              | None => (st, Throw)
              | Some b3 => (setBoard b3 st, Return tt)
              end
          end
      end
  end.

Definition resetAiSnake (st : State) : State :=
  setSnake [mkCoord (Z.of_nat BOARD_I_LENGTH / 2)
                    (Z.of_nat BOARD_J_LENGTH / 2) AI_SNAKE] st.

Definition resetUserSnake (st : State) : State :=
  setUserSnake [mkCoord (Z.of_nat BOARD_I_LENGTH - 1)
                        (Z.of_nat BOARD_J_LENGTH - 1) USER_SNAKE] st.

Definition moveAiSnake (cl : State) (moveDir : Direction) (st : State)
  : State :=
  match snake cl with
  | [] => st
  | head :: _ =>
      let newHead := SnakeGame.advance head moveDir AI_SNAKE in
      if SnakeGame.outside BOARD_I_LENGTH BOARD_J_LENGTH
           (row newHead) (col newHead)
      then resetAiSnake (log "AI Snake hit wall. Resetting AI snake." st)
      else if existsb (at_pos (row newHead) (col newHead)) (snake cl)
              || existsb (at_pos (row newHead) (col newHead)) (userSnake cl)
      then resetAiSnake (log "AI Snake collided. Resetting AI snake." st)
      else if SnakeGame.eats (food cl) newHead
      then setSnake (newHead :: snake cl) (setFood None st)
      else setSnake (newHead :: SnakeGame.dropTail (snake cl)) st
  end.

Definition moveUserSnake (cl : State) (moveDir : Direction) (st : State)
  : State :=
  match userSnake cl with
  | [] => st
  | head :: _ =>
      let newHead := SnakeGame.advance head moveDir USER_SNAKE in
      if SnakeGame.outside BOARD_I_LENGTH BOARD_J_LENGTH
           (row newHead) (col newHead)
      then resetUserSnake (log "User Snake hit wall. Resetting user snake." st)
      else if existsb (at_pos (row newHead) (col newHead)) (userSnake cl)
              || existsb (at_pos (row newHead) (col newHead)) (snake cl)
      then resetUserSnake (log "User Snake collided. Resetting user snake." st)
      else if SnakeGame.eats (food cl) newHead
      then setUserSnake (newHead :: userSnake cl) (setFood None st)
      else setUserSnake (newHead :: SnakeGame.dropTail (userSnake cl)) st
  end.

(** The planner call of the tick; see [AiSnake.nextDir] for the cast. *)
Definition nextAIDir (cl : State) : Completion (option Direction) :=
  let currentPathfindingBoard := getPathfindingBoard cl in
  match food cl with
  | Some fc =>
      Planner.findShortestWayToFood currentPathfindingBoard (snake cl) fc
  | None =>
      match snake cl with
      | [] => Return None
      | _ :: _ => Throw
      end
  end.

(** The callback of the game loop's timer. *)
Definition tick (st : State) : State * Completion unit :=
  match nextAIDir st with
  | Return nextAIDir =>
      let aiMoveDir :=
        match nextAIDir with Some d => d | None => aiDirection st end in
      let st1 := setAiDirection aiMoveDir st in
      let st2 := moveAiSnake st aiMoveDir st1 in
      let st3 := moveUserSnake st (userDirection st) st2 in
      updateBoard st st3
  | Throw => (st, Throw)
  | Diverge => (st, Diverge)
  end.

Definition initBoard (st : State) : State :=
  setBoard (emptyBoard BOARD_I_LENGTH BOARD_J_LENGTH) st.

Definition initSnake (st : State) : State :=
  setUserSnake [mkCoord (Z.of_nat BOARD_I_LENGTH - 1)
                        (Z.of_nat BOARD_J_LENGTH - 1) USER_SNAKE]
    (setSnake [mkCoord (Z.of_nat BOARD_I_LENGTH / 2)
                       (Z.of_nat BOARD_J_LENGTH / 2) AI_SNAKE] st).

Definition mount (st : State) : State := initSnake (initBoard st).

Definition emptyCells (cl : State) : list Pos :=
  freeCells BOARD_I_LENGTH BOARD_J_LENGTH
    (fun i j => existsb (at_pos i j) (snake cl)
                || existsb (at_pos i j) (userSnake cl)).

Definition placeFood (u : Q) (st : State) : State * Completion unit :=
  match emptyCells st with
  | [] => (log "No empty cells available for food!" st, Return tt)
  | _ :: _ =>
      let i := randomIndex u (length (emptyCells st)) in
      match (if i <? 0 then None else emptyCells st !! Z.to_nat i) with
      | None => (st, Throw)
      | Some (r, c) => (setFood (Some (mkCoord r c FOOD)) st, Return tt)
      end
  end.

(** [handleKeyDown]: the arrow keys set the user's heading. *)
Definition handleKeyDown (key : string) (st : State) : State :=
  if String.eqb key "ArrowUp" then setUserDirection UP st
  else if String.eqb key "ArrowDown" then setUserDirection DOWN st
  else if String.eqb key "ArrowLeft" then setUserDirection LEFT st
  else if String.eqb key "ArrowRight" then setUserDirection RIGHT st
  else st.

End Dimensions.

End SnakeWithAi.

(** ** The two-player page ([SnakeTwo], [moveSnake] and [placeFood])

    The page declares its own cell kinds; its [food] state variable is
    read by [moveSnake] and passed here as an argument. *)

Module SnakeTwo.

Inductive CellType := EMPTY | PLAYER_ONE | PLAYER_TWO | FOOD.

Record Coord := mkCoord { row : Z; col : Z; type : CellType }.

Definition BOARD_ROWS : nat := 20.
Definition BOARD_COLS : nat := 20.

Definition at_pos (r c : Z) (s : Coord) : bool :=
  (row s =? r) && (col s =? c).

Definition pos_of (c : Coord) : Pos := (row c, col c).

Definition advance (head : Coord) (d : Direction) (t : CellType) : Coord :=
  mkCoord (row head + rowDelta d) (col head + colDelta d) t.

Definition outside (r c : Z) : bool :=
  (r <? 0) || (r >=? Z.of_nat BOARD_ROWS)
  || (c <? 0) || (c >=? Z.of_nat BOARD_COLS).

Definition eats (fd : option Coord) (newHead : Coord) : bool :=
  match fd with
  | None => false
  | Some fc => (row newHead =? row fc) && (col newHead =? col fc)
  end.

Definition dropTail (s : list Coord) : list Coord :=
  take (length s - 1) s.

(** [moveSnake]; [None] is the [null] it returns on a collision. *)
Definition moveSnake (food : option Coord) (snake : list Coord)
    (direction : Direction) (selfType : CellType) : option (list Coord) :=
  match snake with
  | [] => Some snake
  | head :: _ =>
      let newHead := advance head direction selfType in
      if outside (row newHead) (col newHead) then None
      else if existsb (at_pos (row newHead) (col newHead)) snake then None
      else if eats food newHead then Some (newHead :: snake)
      else Some (newHead :: dropTail snake)
  end.

(** [const emptyCells] of [placeFood]. *)
Definition emptyCells (snakeOne snakeTwo : list Coord) : list Pos :=
  freeCells BOARD_ROWS BOARD_COLS
    (fun r c => existsb (at_pos r c) snakeOne || existsb (at_pos r c) snakeTwo).

(** [placeFood]: the cell given to [setFood], if any; [Throw] when the
    index drawn is not one of [emptyCells]. *)
Definition placeFood (u : Q) (snakeOne snakeTwo : list Coord)
  : Completion (option Coord) :=
  match emptyCells snakeOne snakeTwo with
  | [] => Return None
  | _ :: _ =>
      let i := randomIndex u (length (emptyCells snakeOne snakeTwo)) in
      match (if i <? 0 then None
             else emptyCells snakeOne snakeTwo !! Z.to_nat i) with
      | None => Throw
      | Some (r, c) => Return (Some (mkCoord r c FOOD))
      end
  end.

(** The state of the page, its setters, and the rest of its functions. *)
Record State := mkState {
  board : list (list Coord);
  snakeOne : list Coord;
  snakeTwo : list Coord;
  food : option Coord;
  directionOne : Direction;
  directionTwo : Direction
}.

Definition setBoard (b : list (list Coord)) (st : State) : State :=
  mkState b (snakeOne st) (snakeTwo st) (food st)
          (directionOne st) (directionTwo st).
Definition setSnakeOne (s : list Coord) (st : State) : State :=
  mkState (board st) s (snakeTwo st) (food st)
          (directionOne st) (directionTwo st).
Definition setSnakeTwo (s : list Coord) (st : State) : State :=
  mkState (board st) (snakeOne st) s (food st)
          (directionOne st) (directionTwo st).
Definition setFood (fd : option Coord) (st : State) : State :=
  mkState (board st) (snakeOne st) (snakeTwo st) fd
          (directionOne st) (directionTwo st).
Definition setDirectionOne (d : Direction) (st : State) : State :=
  mkState (board st) (snakeOne st) (snakeTwo st) (food st)
          d (directionTwo st).
Definition setDirectionTwo (d : Direction) (st : State) : State :=
  mkState (board st) (snakeOne st) (snakeTwo st) (food st)
          (directionOne st) d.

Definition initial : State := mkState [] [] [] None RIGHT LEFT.

(** The matrix [initBoard] and [updateBoard] both build. *)
Definition emptyBoard : list (list Coord) :=
  map (fun r => map (fun c => mkCoord r c EMPTY) (seqZ 0 (Z.of_nat BOARD_COLS)))
      (seqZ 0 (Z.of_nat BOARD_ROWS)).

Definition initBoard (st : State) : State := setBoard emptyBoard st.

Definition initSnakes (st : State) : State :=
  setSnakeTwo [mkCoord (Z.of_nat BOARD_ROWS / 2) (Z.of_nat BOARD_COLS - 3)
                       PLAYER_TWO]
    (setSnakeOne [mkCoord (Z.of_nat BOARD_ROWS / 2) 2 PLAYER_ONE] st).

Definition mount (st : State) : State := initSnakes (initBoard st).

Definition resetSnakeOne (st : State) : State :=
  setDirectionOne RIGHT
    (setSnakeOne [mkCoord (Z.of_nat BOARD_ROWS / 2) 2 PLAYER_ONE] st).

Definition resetSnakeTwo (st : State) : State :=
  setDirectionTwo LEFT
    (setSnakeTwo [mkCoord (Z.of_nat BOARD_ROWS / 2) (Z.of_nat BOARD_COLS - 3)
                          PLAYER_TWO] st).

(** [{...cell}] with [type] set to [t], and the assignments of
    [updateBoard]. *)
Definition retype (t : CellType) (cell : Coord) : Coord :=
  mkCoord (row cell) (col cell) t.

Definition paint (b : list (list Coord)) (r c : Z) (t : CellType)
  : option (list (list Coord)) :=
  assignAt (retype t) b r c.

Definition paintAll (b : list (list Coord)) (segments : list Coord)
    (t : CellType) : option (list (list Coord)) :=
  assignAll (retype t) b (map pos_of segments).

(** [updateBoard], reading the values [cl] of the render. *)
Definition updateBoard (cl st : State) : State * Completion unit :=
  match paintAll emptyBoard (snakeOne cl) PLAYER_ONE with
  | None => (st, Throw)
  | Some b1 =>
      match paintAll b1 (snakeTwo cl) PLAYER_TWO with
      | None => (st, Throw)
      | Some b2 =>
          match food cl with
          | None => (setBoard b2 st, Return tt)
          | Some fc =>
              match paint b2 (row fc) (col fc) FOOD with
              | None => (st, Throw)
              | Some b3 => (setBoard b3 st, Return tt)
              end
          end
      end
  end.

(** [other.some(seg => seg.row === head.row && seg.col === head.col)]
    with [head = newSnake[0]]: the head of an empty array is [undefined],
    and reading its [row] raises as soon as [other] has a cell to
    test. *)
Definition lands (other : list Coord) (newSnake : list Coord)
  : Completion bool :=
  match newSnake with
  | head :: _ => Return (existsb (at_pos (row head) (col head)) other)
  | [] => match other with [] => Return false | _ :: _ => Throw end
  end.

(** [head && head.row === food.row && head.col === food.col] with
    [head = valid && newSnake ? newSnake[0] : null]. *)
Definition headOnFood (valid : bool) (newSnake : option (list Coord))
    (fc : Coord) : bool :=
  match (if valid then newSnake else None) with
  | Some (head :: _) => (row head =? row fc) && (col head =? col fc)
  | _ => false
  end.

(** The callback of the game loop's interval. *)
Definition tick (st : State) : State * Completion unit :=
  let newSnakeOne :=
    moveSnake (food st) (snakeOne st) (directionOne st) PLAYER_ONE in
  let '(validSnakeOne, st1) :=
    match newSnakeOne with
    | None => (false, resetSnakeOne st)
    | Some _ => (true, st)
    end in
  let newSnakeTwo :=
    moveSnake (food st) (snakeTwo st) (directionTwo st) PLAYER_TWO in
  let '(validSnakeTwo, st2) :=
    match newSnakeTwo with
    | None => (false, resetSnakeTwo st1)
    | Some _ => (true, st1)
    end in
  (* inter-snake collisions, against the bodies as they were *)
  match (match newSnakeOne with
         | Some s => lands (snakeTwo st) s
         | None => Return false
         end) with
  | Return hitOne =>
      let validSnakeOne := if hitOne then false else validSnakeOne in
      let st3 := if hitOne then resetSnakeOne st2 else st2 in
      match (match newSnakeTwo with
             | Some s => lands (snakeOne st) s
             | None => Return false
             end) with
      | Return hitTwo =>
          let validSnakeTwo := if hitTwo then false else validSnakeTwo in
          let st4 := if hitTwo then resetSnakeTwo st3 else st3 in
          let st5 :=
            match newSnakeOne with
            | Some s => if validSnakeOne then setSnakeOne s st4 else st4
            | None => st4
            end in
          let st6 :=
            match newSnakeTwo with
            | Some s => if validSnakeTwo then setSnakeTwo s st5 else st5
            | None => st5
            end in
          let st7 :=
            match food st with
            | Some fc =>
                if headOnFood validSnakeOne newSnakeOne fc
                   || headOnFood validSnakeTwo newSnakeTwo fc
                then setFood None st6 else st6
            | None => st6
            end in
          updateBoard st st7
      | Throw => (st3, Throw)
      | Diverge => (st3, Diverge)
      end
  | Throw => (st2, Throw)
  | Diverge => (st2, Diverge)
  end.

(** [handleKeyDown]: W, A, S, D steer player one, the arrow keys player
    two. *)
Definition handleKeyDown (key : string) (st : State) : State :=
  if String.eqb key "w" || String.eqb key "W" then setDirectionOne UP st
  else if String.eqb key "s" || String.eqb key "S" then setDirectionOne DOWN st
  else if String.eqb key "a" || String.eqb key "A" then setDirectionOne LEFT st
  else if String.eqb key "d" || String.eqb key "D" then setDirectionOne RIGHT st
  else if String.eqb key "ArrowUp" then setDirectionTwo UP st
  else if String.eqb key "ArrowDown" then setDirectionTwo DOWN st
  else if String.eqb key "ArrowLeft" then setDirectionTwo LEFT st
  else if String.eqb key "ArrowRight" then setDirectionTwo RIGHT st
  else st.

End SnakeTwo.

(** A board of [R] rows and [C] columns whose cells are tagged by [tag]. *)
Definition makeBoard (R C : nat) (tag : Z -> Z -> CellType) : list (list Coord) :=
  map (fun i => map (fun j => mkCoord (Z.of_nat i) (Z.of_nat j)
                                   (tag (Z.of_nat i) (Z.of_nat j)))
                    (seq 0 C))
      (seq 0 R).

Definition tag55 (r c : Z) : CellType :=
  if (r =? 2) && (c =? 2) then SNAKE
  else if (r =? 2) && (c =? 4) then FOOD else EMPTY.


(** ** Vocabulary of the specification *)

(** Two cells are 4-adjacent: distance one along exactly one axis. *)
Definition adjacent (p q : Pos) : Prop :=
  Z.abs (p.1 - q.1) + Z.abs (p.2 - q.2) = 1.

(** Consecutive cells of a body are 4-adjacent. *)
Fixpoint linked (l : list Pos) : Prop :=
  match l with
  | [] => True
  | p :: l' =>
      match l' with
      | [] => True
      | q :: _ => adjacent p q
      end /\ linked l'
  end.

(** The body invariant of an agent, over the cells' positions. *)
Definition body_ok (l : list Pos) : Prop := NoDup l /\ linked l.

(** A position lies off, or on, a board of [R] rows and [C] columns. *)
Definition off_board (R C : nat) (p : Pos) : Prop :=
  p.1 < 0 \/ p.1 >= Z.of_nat R \/ p.2 < 0 \/ p.2 >= Z.of_nat C.

Definition on_board (R C : nat) (p : Pos) : Prop :=
  0 <= p.1 < Z.of_nat R /\ 0 <= p.2 < Z.of_nat C.

(** The food lies at position [p]. *)
Definition food_at (fd : option Coord) (p : Pos) : Prop :=
  exists fc, fd = Some fc /\ pos_of fc = p.

Definition food_at_two (fd : option SnakeTwo.Coord) (p : Pos) : Prop :=
  exists fc, fd = Some fc /\ SnakeTwo.pos_of fc = p.

(** ** Vocabulary for the planner *)

(** Every row of the snapshot is as long as the first one. *)
Definition rectangular (board : list (list Coord)) : Prop :=
  forall line, line ∈ board -> length line = Planner.cols board.

(** The cell the snapshot stores at a position, if it has one. *)
Definition cell_at (board : list (list Coord)) (p : Pos) : option Coord :=
  if (p.1 <? 0) || (p.2 <? 0) then None
  else match board !! Z.to_nat p.1 with
       | Some line => line !! Z.to_nat p.2
       | None => None
       end.

(** A cell is passable when it is on the board and tagged EMPTY or FOOD;
    every other position is blocked. *)
Definition passableb (board : list (list Coord)) (p : Pos) : bool :=
  match cell_at board p with
  | Some cell => bool_decide (type cell = EMPTY) || bool_decide (type cell = FOOD)
  | None => false
  end.

Definition passable (board : list (list Coord)) (p : Pos) : Prop :=
  passableb board p = true.

(** [walk_on ok a l b]: leaving [a], the cells [l] are visited in order,
    each 4-adjacent to the one before and accepted by [ok], and the last
    one reached is [b].  Nothing is asked of the cell [a] itself. *)
Fixpoint walk_on (ok : Pos -> Prop) (a : Pos) (l : list Pos) (b : Pos)
  : Prop :=
  match l with
  | [] => a = b
  | c :: l' => adjacent a c /\ ok c /\ walk_on ok c l' b
  end.

(** The walks of a snapshot go through passable cells. *)
Abbreviation walk board := (walk_on (passable board)).

(** A path visits no cell twice; its length is the number of steps. *)
Definition simple_path (board : list (list Coord)) (a : Pos) (l : list Pos)
    (b : Pos) : Prop :=
  walk board a l b /\ NoDup (a :: l).

(** No walk from [a] to [b] is shorter than [l]. *)
Definition shortest (board : list (list Coord)) (a : Pos) (l : list Pos)
    (b : Pos) : Prop :=
  walk board a l b /\ forall l', walk board a l' b -> (length l <= length l')%nat.

(** [reach_on ok a b k]: [b] is reached from [a] in [k] steps. *)
Inductive reach_on (ok : Pos -> Prop) (a : Pos) : Pos -> nat -> Prop :=
| reach_here : reach_on ok a a 0
| reach_step (u v : Pos) (k : nat) :
    reach_on ok a u k -> adjacent u v -> ok v -> reach_on ok a v (S k).

Abbreviation reach board := (reach_on (passable board)).

(** The cells [isValid] accepts. *)
Definition valid (board : list (list Coord)) (p : Pos) : Prop :=
  Planner.isValid board p.1 p.2 = Return true.

(** ** Invariants of the search loop *)

Import Planner.

(** The first node of a list has the least [f]. *)
Definition least_first (l : list Node) : Prop :=
  match l with
  | [] => True
  | n :: rest => Forall (fun m => f n <= f m) rest
  end.

(** All positions of a board of [R] rows and [C] columns. *)
Definition allCells (R C : nat) : list Pos :=
  flat_map (fun i => map (fun j => (Z.of_nat i, Z.of_nat j)) (seq 0 C))
           (seq 0 R).

(** The cells a search can ever reach: where it starts, and the board. *)
Definition universe (board : list (list Coord)) (origin : Pos) : gset Pos :=
  {[ origin ]} ∪ list_to_set (allCells (rows board) (cols board)).

(** The key of a position, and the keys the closed set can ever hold. *)
Definition keyOf (p : Pos) : string := coordKey p.1 p.2.

Definition universeKeys (board : list (list Coord)) (origin : Pos)
  : gset string :=
  list_to_set (map keyOf (origin :: allCells (rows board) (cols board))).

(** Reading a key back: the text up to the first minus sign. *)
Fixpoint untilDash (s : string) : string * string :=
  match s with
  | EmptyString => (EmptyString, EmptyString)
  | String a s' =>
      if Ascii.eqb a "-" then (EmptyString, s')
      else (String a (untilDash s').1, (untilDash s').2)
  end.

(** The two numerals of a key: the first character may be a sign, the
    first minus sign after it is the separator. *)
Definition splitKey (s : string) : string * string :=
  match s with
  | EmptyString => (EmptyString, EmptyString)
  | String a s' => (String a (untilDash s').1, (untilDash s').2)
  end.

Section SearchInvariant.

Variable board : list (list Coord).
Variables start food : Coord.

(** A well-formed node: its parent chain leads back to the start node
    through 4-adjacent cells that [isValid] accepts, [g] counts the
    steps, [h] is the heuristic of its cell and [f] their sum. *)
Inductive wf : Node -> Prop :=
| wf_start : wf (startNode start food)
| wf_child (p n : Node) :
    wf p -> parent n = Some p ->
    adjacent (npos p) (npos n) -> valid board (npos n) ->
    g n = g p + 1 -> h n = heuristic food (nrow n) (ncol n) ->
    f n = g n + h n ->
    wf n.

(** [v] is closed, or the open set holds a node at [v] of cost at most
    [b]. *)
Definition covered (openSet : list Node) (closedSet : gset string)
    (v : Pos) (b : Z) : Prop :=
  keyOf v ∈ closedSet \/ exists m, m ∈ openSet /\ npos m = v /\ g m <= b.

(** What holds of the open and closed sets whenever the loop tests its
    condition. *)
Record search_inv (openSet : list Node) (closedSet : gset string) : Prop := {
  inv_wf : forall n, n ∈ openSet -> wf n;
  inv_open : forall n, n ∈ openSet -> keyOf (npos n) ∉ closedSet;
  inv_nodup : NoDup (map npos openSet);
  inv_start : covered openSet closedSet (pos_of start) 0;
  inv_closed : forall c k v,
      keyOf c ∈ closedSet -> reach_on (valid board) (pos_of start) c k ->
      adjacent c v -> valid board v ->
      covered openSet closedSet v (Z.of_nat k + 1);
  inv_universe : closedSet ⊆ universeKeys board (pos_of start);
  inv_food : keyOf (pos_of food) ∉ closedSet
}.

(** What holds of the open set while the neighbours of a node are
    visited. *)
Record expand_inv (closedSet : gset string) (openSet : list Node) : Prop := {
  ei_wf : forall n, n ∈ openSet -> wf n;
  ei_open : forall n, n ∈ openSet -> keyOf (npos n) ∉ closedSet;
  ei_nodup : NoDup (map npos openSet)
}.

(** What the loop's result says about the snapshot: the fuel is never
    used up; a [TypeError] needs a row shorter than the first one; an
    open set run empty means the food is out of reach; and a path rebuilt
    at the food has the least number of steps. *)
Definition search_post (r : SearchResult) : Prop :=
  match r with
  | OutOfFuel => False
  | TypeError => ~ rectangular board
  | OpenSetEmpty =>
      forall k, ~ reach_on (valid board) (pos_of start) (pos_of food) k
  | Reached path answer =>
      exists current,
        wf current /\ npos current = pos_of food
        /\ (forall k, reach_on (valid board) (pos_of start) (pos_of food) k ->
                      g current <= Z.of_nat k)
        /\ path = rev (ancestors current)
        /\ atFood start current = Answer path answer
  end.

End SearchInvariant.

(** ** A reference breadth-first search

    The oracle the specification compares the planner with: the cells
    reached are grown one layer of passable neighbours at a time, and the
    distance is the number of the first layer that holds the target. *)

Definition neighbours (board : list (list Coord)) (p : Pos) : list Pos :=
  List.filter (passableb board) (map (shift p) moves).

Definition bfsLayer (board : list (list Coord)) (seen : gset Pos) : gset Pos :=
  seen ∪ list_to_set (flat_map (neighbours board) (elements seen)).

Fixpoint bfsFrom (board : list (list Coord)) (target : Pos)
    (fuel dist : nat) (seen : gset Pos) : option nat :=
  if bool_decide (target ∈ seen) then Some dist
  else match fuel with
       | O => None
       | S fuel' =>
           if bool_decide (bfsLayer board seen = seen) then None
           else bfsFrom board target fuel' (S dist) (bfsLayer board seen)
       end.

Definition bfsDistance (board : list (list Coord)) (origin target : Pos)
  : option nat :=
  bfsFrom board target (rows board * cols board) 0 {[ origin ]}.

(** [seen] holds exactly the cells reached in at most [dist] steps. *)
Definition layer_spec (board : list (list Coord)) (origin : Pos)
    (dist : nat) (seen : gset Pos) : Prop :=
  forall v, v ∈ seen <-> exists j, (j <= dist)%nat /\ reach board origin v j.

(** ** Vocabulary for food placement *)


(** A board of exactly [R] rows of [C] cells, as [initBoard] builds it. *)
Definition well_sized (R C : nat) (b : Board) : Prop :=
  length b = R /\ forall line, line ∈ b -> length line = C.

(** A snapshot whose food is walled in at the corner. *)
Definition tagWalled (r c : Z) : CellType :=
  if (r =? 0) && (c =? 0) then FOOD
  else if (r + c =? 1) then SNAKE
  else if (r =? 2) && (c =? 2) then SNAKE
  else EMPTY.

(** The single-player step ends the game: it logs a game-over message
    (and changes nothing else). *)
Definition game_over (R C : nat) (st : SnakeGame.State) : Prop :=
  SnakeGame.console (SnakeGame.move R C st).1 <> SnakeGame.console st.

(** ** Vocabulary for the pages' steps *)

(** A matrix of exactly [R] rows of [C] cells, whatever the cells are. *)
Definition sized {A : Type} (R C : nat) (b : list (list A)) : Prop :=
  length b = R /\ forall line, line ∈ b -> length line = C.

(** The cell a matrix stores at a position, if it has one. *)
Definition lookup2 {A : Type} (b : list (list A)) (p : Pos) : option A :=
  if (p.1 <? 0) || (p.2 <? 0) then None
  else match b !! Z.to_nat p.1 with
       | Some line => line !! Z.to_nat p.2
       | None => None
       end.

(** The kind of the cell a board shows at a position. *)
Definition type_at (b : Board) (p : Pos) : option CellType :=
  type <$> cell_at b p.

Definition type_at_two (b : list (list SnakeTwo.Coord)) (p : Pos)
  : option SnakeTwo.CellType :=
  SnakeTwo.type <$> lookup2 b p.

(** A body covers a position; the food lies on it. *)
Definition covers (body : list Coord) (p : Pos) : bool :=
  existsb (at_pos p.1 p.2) body.

Definition covers_two (body : list SnakeTwo.Coord) (p : Pos) : bool :=
  existsb (SnakeTwo.at_pos p.1 p.2) body.

Definition is_food (fd : option Coord) (p : Pos) : bool :=
  match fd with
  | Some fc => (row fc =? p.1) && (col fc =? p.2)
  | None => false
  end.

Definition is_food_two (fd : option SnakeTwo.Coord) (p : Pos) : bool :=
  match fd with
  | Some fc => (SnakeTwo.row fc =? p.1) && (SnakeTwo.col fc =? p.2)
  | None => false
  end.

(** A body as the pages keep it: duplicate-free, connected and on the
    board. *)
Definition kept (R C : nat) (body : list Coord) : Prop :=
  body_ok (map pos_of body)
  /\ Forall (fun seg => on_board R C (pos_of seg)) body.

Definition kept_two (body : list SnakeTwo.Coord) : Prop :=
  body_ok (map SnakeTwo.pos_of body)
  /\ Forall (fun seg => on_board SnakeTwo.BOARD_ROWS SnakeTwo.BOARD_COLS
                                  (SnakeTwo.pos_of seg)) body.

(** The heading a snake cannot turn to without running into its neck. *)
Definition opposite (d : Direction) : Direction :=
  match d with UP => DOWN | DOWN => UP | LEFT => RIGHT | RIGHT => LEFT end.

(** The arrow key that asks for a heading. *)
Definition arrow (d : Direction) : string :=
  match d with
  | UP => "ArrowUp" | DOWN => "ArrowDown"
  | LEFT => "ArrowLeft" | RIGHT => "ArrowRight"
  end.

(** A state of the single-player page in good order: a board of the
    declared size, a body as the page keeps it, and the food, if any, on
    the board and not under the body. *)
Definition well_kept (R C : nat) (st : SnakeGame.State) : Prop :=
  well_sized R C (SnakeGame.board st)
  /\ kept R C (SnakeGame.snake st)
  /\ forall fc, SnakeGame.food st = Some fc ->
                on_board R C (pos_of fc)
                /\ pos_of fc ∉ map pos_of (SnakeGame.snake st).

(** * Theorems *)

(** ** Bodies: generic facts about positions *)

Lemma adjacent_shift (p : Pos) (d : Direction) : adjacent p (shift p d).
Proof. destruct p as [r c]; destruct d; unfold adjacent, shift; simpl; lia. Qed.

Lemma adjacent_shift_back (p : Pos) (d : Direction) : adjacent (shift p d) p.
Proof. destruct p as [r c]; destruct d; unfold adjacent, shift; simpl; lia. Qed.

Lemma take_pred_removelast {A} (s : list A) :
  take (length s - 1) s = removelast s.
Proof.
  induction s as [|a [|b s] IH]; [done..|].
  change (removelast (a :: b :: s)) with (a :: removelast (b :: s)).
  rewrite <- IH. simpl. by rewrite Nat.sub_0_r.
Qed.

Lemma length_removelast_cons {A} (a : A) (s : list A) :
  S (length (removelast (a :: s))) = length (a :: s).
Proof.
  revert a; induction s as [|b s IH]; intros a; [done|].
  change (removelast (a :: b :: s)) with (a :: removelast (b :: s)).
  change (S (S (length (removelast (b :: s)))) = S (length (b :: s))).
  by rewrite IH.
Qed.

Lemma removelast_map {A B} (fn : A -> B) (s : list A) :
  removelast (map fn s) = map fn (removelast s).
Proof.
  induction s as [|a [|b s] IH]; [done..|].
  change (removelast (a :: b :: s)) with (a :: removelast (b :: s)).
  simpl map. simpl map in IH. by rewrite <- IH.
Qed.

Lemma elem_of_removelast {A} (x : A) (s : list A) :
  x ∈ removelast s -> x ∈ s.
Proof.
  induction s as [|a [|b s] IH]; [done | intros H; inversion H |].
  change (removelast (a :: b :: s)) with (a :: removelast (b :: s)).
  rewrite !(elem_of_cons _ x a). intros [->|H]; [by left|right; auto].
Qed.

Lemma NoDup_removelast {A} (s : list A) : NoDup s -> NoDup (removelast s).
Proof.
  induction s as [|a [|b s] IH]; [done| intros _; constructor |].
  change (removelast (a :: b :: s)) with (a :: removelast (b :: s)).
  intros [Ha Hs]%NoDup_cons. apply NoDup_cons. split; [|auto].
  intros Hin. apply Ha. by apply elem_of_removelast.
Qed.

Lemma linked_removelast (s : list Pos) : linked s -> linked (removelast s).
Proof.
  induction s as [|a [|b [|c s]] IH]; [done..| |].
  - intros _. simpl. done.
  - change (removelast (a :: b :: c :: s))
      with (a :: b :: removelast (c :: s)).
    change (removelast (b :: c :: s)) with (b :: removelast (c :: s)) in IH.
    intros [Hab Hrest]. split; [exact Hab|]. by apply IH.
Qed.

Lemma body_ok_grow (p : Pos) (d : Direction) (l : list Pos) :
  shift p d ∉ p :: l -> body_ok (p :: l) -> body_ok (shift p d :: p :: l).
Proof.
  intros Hfresh [Hnd Hl]. split.
  - by apply NoDup_cons.
  - split; [apply adjacent_shift_back | exact Hl].
Qed.

Lemma body_ok_slide (p : Pos) (d : Direction) (l : list Pos) :
  shift p d ∉ p :: l -> body_ok (p :: l) ->
  body_ok (shift p d :: removelast (p :: l)).
Proof.
  intros Hfresh [Hnd Hl]. split.
  - apply NoDup_cons. split.
    + intros Hin. by apply Hfresh, elem_of_removelast.
    + by apply NoDup_removelast.
  - pose proof (linked_removelast _ Hl) as Hl'.
    destruct l as [|q l]; [simpl; done|].
    change (removelast (p :: q :: l)) with (p :: removelast (q :: l)) in *.
    split; [apply adjacent_shift_back | exact Hl'].
Qed.

(** [snake.some(s => s.row === r && s.col === c)] decides membership of
    the position. *)
Lemma existsb_at_pos (r c : Z) (s : list Coord) :
  existsb (at_pos r c) s = true <-> (r, c) ∈ map pos_of s.
Proof.
  induction s as [|a s IH]; simpl.
  - split; [done | intros H; inversion H].
  - rewrite orb_true_iff, IH, elem_of_cons. unfold at_pos, pos_of.
    rewrite andb_true_iff, !Z.eqb_eq. split.
    + intros [[<- <-]|H]; [by left | by right].
    + intros [[= -> ->]|H]; [by left | by right].
Qed.

Lemma existsb_at_pos_two (r c : Z) (s : list SnakeTwo.Coord) :
  existsb (SnakeTwo.at_pos r c) s = true <-> (r, c) ∈ map SnakeTwo.pos_of s.
Proof.
  induction s as [|a s IH]; simpl.
  - split; [done | intros H; inversion H].
  - rewrite orb_true_iff, IH, elem_of_cons.
    unfold SnakeTwo.at_pos, SnakeTwo.pos_of.
    rewrite andb_true_iff, !Z.eqb_eq. split.
    + intros [[<- <-]|H]; [by left | by right].
    + intros [[= -> ->]|H]; [by left | by right].
Qed.

(** ** The single-player step, branch by branch *)

Section MoveBranches.

Variables R C : nat.

Lemma outside_off_board (r c : Z) :
  SnakeGame.outside R C r c = true <-> off_board R C (r, c).
Proof.
  unfold SnakeGame.outside, off_board; simpl.
  rewrite !orb_true_iff, !Z.ltb_lt, !Z.geb_le. lia.
Qed.

Lemma outside_on_board (r c : Z) :
  SnakeGame.outside R C r c = false <-> on_board R C (r, c).
Proof.
  unfold SnakeGame.outside, on_board; simpl.
  rewrite !orb_false_iff, !Z.ltb_ge, Z.geb_leb, Z.geb_leb, !Z.leb_gt. lia.
Qed.

Lemma eats_food_at (fd : option Coord) (nh : Coord) :
  SnakeGame.eats fd nh = true <-> food_at fd (pos_of nh).
Proof.
  unfold SnakeGame.eats, food_at, pos_of. destruct fd as [fc|].
  - rewrite andb_true_iff, !Z.eqb_eq. split.
    + intros [Hr Hc]. exists fc. by rewrite Hr, Hc.
    + intros (fc' & [= <-] & [= -> ->]). done.
  - split; [done | intros (fc' & [=] & _)].
Qed.

Lemma move_wall (st : SnakeGame.State) (head : Coord) (tl : list Coord) :
  SnakeGame.snake st = head :: tl ->
  off_board R C (shift (pos_of head) (SnakeGame.direction st)) ->
  SnakeGame.move R C st = (SnakeGame.log "Game Over: Hit wall" st, Return tt).
Proof.
  intros Hs Hoff. unfold SnakeGame.move. rewrite Hs.
  apply outside_off_board in Hoff. simpl in Hoff |- *. by rewrite Hoff.
Qed.

Lemma move_self (st : SnakeGame.State) (head : Coord) (tl : list Coord) :
  SnakeGame.snake st = head :: tl ->
  on_board R C (shift (pos_of head) (SnakeGame.direction st)) ->
  shift (pos_of head) (SnakeGame.direction st) ∈ map pos_of (SnakeGame.snake st) ->
  SnakeGame.move R C st = (SnakeGame.log "Game Over: Hit itself" st, Return tt).
Proof.
  intros Hs Hon Hin. unfold SnakeGame.move. rewrite Hs in Hin |- *.
  apply outside_on_board in Hon. apply existsb_at_pos in Hin.
  simpl in Hon, Hin |- *. by rewrite Hon, Hin.
Qed.

Lemma move_advance (st : SnakeGame.State) (head : Coord) (tl : list Coord) :
  SnakeGame.snake st = head :: tl ->
  on_board R C (shift (pos_of head) (SnakeGame.direction st)) ->
  shift (pos_of head) (SnakeGame.direction st) ∉ map pos_of (SnakeGame.snake st) ->
  let newHead := SnakeGame.advance head (SnakeGame.direction st) SNAKE in
  let st' := (SnakeGame.move R C st).1 in
  SnakeGame.console st' = SnakeGame.console st /\
  SnakeGame.direction st' = SnakeGame.direction st /\
  if SnakeGame.eats (SnakeGame.food st) newHead
  then SnakeGame.snake st' = newHead :: head :: tl /\ SnakeGame.food st' = None
  else SnakeGame.snake st' = newHead :: removelast (head :: tl)
       /\ SnakeGame.food st' = SnakeGame.food st.
Proof.
  destruct st as [b0 s0 fd0 d0 c0].
  cbn [SnakeGame.snake SnakeGame.direction SnakeGame.food SnakeGame.console].
  intros -> Hon Hnin. unfold SnakeGame.move.
  cbn [SnakeGame.snake SnakeGame.direction SnakeGame.food SnakeGame.board].
  set (newHead := SnakeGame.advance head d0 SNAKE).
  apply outside_on_board in Hon.
  assert (existsb (at_pos (row newHead) (col newHead)) (head :: tl) = false)
    as Hex.
  { apply not_true_is_false. intros H. by apply existsb_at_pos in H. }
  change (SnakeGame.outside R C (row newHead) (col newHead) = false) in Hon.
  rewrite Hon, Hex. unfold SnakeGame.dropTail. rewrite take_pred_removelast.
  destruct (SnakeGame.eats fd0 newHead) eqn:He.
  - destruct (paintAll _ _ _) as [b|]; [|done].
    destruct fd0; done.
  - destruct (paintAll _ _ _) as [b|]; [|done].
    destruct fd0 as [fc|]; [|done].
    destruct (paint b (row fc) (col fc) FOOD); done.
Qed.

End MoveBranches.

(** ** The two-player step, branch by branch *)

Lemma outside_two_off_board (r c : Z) :
  SnakeTwo.outside r c = true <->
  off_board SnakeTwo.BOARD_ROWS SnakeTwo.BOARD_COLS (r, c).
Proof.
  unfold SnakeTwo.outside, off_board; simpl.
  rewrite !orb_true_iff, !Z.ltb_lt, !Z.geb_le. lia.
Qed.

Lemma outside_two_on_board (r c : Z) :
  SnakeTwo.outside r c = false <->
  on_board SnakeTwo.BOARD_ROWS SnakeTwo.BOARD_COLS (r, c).
Proof.
  unfold SnakeTwo.outside, on_board; simpl.
  rewrite !orb_false_iff, !Z.ltb_ge, Z.geb_leb, Z.geb_leb, !Z.leb_gt. lia.
Qed.

Lemma eats_two_food_at (fd : option SnakeTwo.Coord) (nh : SnakeTwo.Coord) :
  SnakeTwo.eats fd nh = true <-> food_at_two fd (SnakeTwo.pos_of nh).
Proof.
  unfold SnakeTwo.eats, food_at_two, SnakeTwo.pos_of. destruct fd as [fc|].
  - rewrite andb_true_iff, !Z.eqb_eq. split.
    + intros [Hr Hc]. exists fc. by rewrite Hr, Hc.
    + intros (fc' & [= <-] & [= -> ->]). done.
  - split; [done | intros (fc' & [=] & _)].
Qed.

Lemma moveSnake_wall fd (head : SnakeTwo.Coord) tl d t :
  off_board SnakeTwo.BOARD_ROWS SnakeTwo.BOARD_COLS
            (shift (SnakeTwo.pos_of head) d) ->
  SnakeTwo.moveSnake fd (head :: tl) d t = None.
Proof.
  intros Hoff. apply outside_two_off_board in Hoff.
  unfold SnakeTwo.moveSnake. simpl in Hoff |- *. by rewrite Hoff.
Qed.

Lemma moveSnake_self fd (head : SnakeTwo.Coord) tl d t :
  on_board SnakeTwo.BOARD_ROWS SnakeTwo.BOARD_COLS
           (shift (SnakeTwo.pos_of head) d) ->
  shift (SnakeTwo.pos_of head) d ∈ map SnakeTwo.pos_of (head :: tl) ->
  SnakeTwo.moveSnake fd (head :: tl) d t = None.
Proof.
  intros Hon Hin. apply outside_two_on_board in Hon.
  apply existsb_at_pos_two in Hin.
  unfold SnakeTwo.moveSnake. simpl in Hon, Hin |- *. by rewrite Hon, Hin.
Qed.

Lemma moveSnake_advance fd (head : SnakeTwo.Coord) tl d t :
  on_board SnakeTwo.BOARD_ROWS SnakeTwo.BOARD_COLS
           (shift (SnakeTwo.pos_of head) d) ->
  shift (SnakeTwo.pos_of head) d ∉ map SnakeTwo.pos_of (head :: tl) ->
  let newHead := SnakeTwo.advance head d t in
  SnakeTwo.moveSnake fd (head :: tl) d t =
    if SnakeTwo.eats fd newHead then Some (newHead :: head :: tl)
    else Some (newHead :: removelast (head :: tl)).
Proof.
  intros Hon Hnin newHead. apply outside_two_on_board in Hon.
  assert (existsb (SnakeTwo.at_pos (SnakeTwo.row newHead) (SnakeTwo.col newHead))
            (head :: tl) = false) as Hex.
  { apply not_true_is_false. intros H. by apply existsb_at_pos_two in H. }
  unfold SnakeTwo.moveSnake.
  change (SnakeTwo.advance head d t) with newHead.
  change (SnakeTwo.outside (SnakeTwo.row newHead) (SnakeTwo.col newHead) = false)
    in Hon.
  rewrite Hon, Hex. unfold SnakeTwo.dropTail. by rewrite take_pred_removelast.
Qed.

Lemma clearBoard_well_sized (R C : nat) (b : Board) :
  well_sized R C b -> well_sized R C (clearBoard b).
Proof.
  intros [Hlen Hrows]. unfold clearBoard. split.
  - by rewrite length_map.
  - intros line Hin. apply list_elem_of_fmap in Hin as (line0 & -> & Hin).
    rewrite length_map. by apply Hrows.
Qed.

Lemma Forall_removelast {A} (P : A -> Prop) (l : list A) :
  Forall P l -> Forall P (removelast l).
Proof.
  rewrite !Forall_forall. intros Hall x Hx. by apply Hall, elem_of_removelast.
Qed.

(** ** Claims about one step of an agent *)

Lemma log_changes_console (msg : string) (st : SnakeGame.State) :
  SnakeGame.console (SnakeGame.log msg st) <> SnakeGame.console st.
Proof.
  unfold SnakeGame.log; simpl. intros H.
  apply (f_equal length) in H. rewrite length_app in H. simpl in H. lia.
Qed.

Lemma board_cases (R C : nat) (p : Pos) : off_board R C p \/ on_board R C p.
Proof. unfold off_board, on_board. lia. Qed.

(** C4.  Whenever the new head computed from the head and the heading
    lies off the board, [move] ends the game with its wall message and
    changes nothing else, and [moveSnake] returns [null]; neither the
    body, nor the food, nor anything else is looked at. *)
Theorem wall_collision_decided_first :
  (forall (R C : nat) (st : SnakeGame.State) (head : Coord) (tl : list Coord),
      SnakeGame.snake st = head :: tl ->
      off_board R C (shift (pos_of head) (SnakeGame.direction st)) ->
      SnakeGame.move R C st
      = (SnakeGame.log "Game Over: Hit wall" st, Return tt))
  /\ (forall (fd : option SnakeTwo.Coord) (head : SnakeTwo.Coord)
        (tl : list SnakeTwo.Coord) (d : Direction) (t : SnakeTwo.CellType),
      off_board SnakeTwo.BOARD_ROWS SnakeTwo.BOARD_COLS
                (shift (SnakeTwo.pos_of head) d) ->
      SnakeTwo.moveSnake fd (head :: tl) d t = None).
Proof.
  split.
  - intros R C st head tl. apply move_wall.
  - intros fd head tl d t. apply moveSnake_wall.
Qed.

(** The scenario at the left wall: body [(0,0),(0,1)] heading LEFT. *)
Lemma wall_collision_decided_first_witness :
  SnakeGame.move 5 5
    (SnakeGame.mkState [] [mkCoord 0 0 SNAKE; mkCoord 0 1 SNAKE]
                       (Some (mkCoord 0 1 FOOD)) LEFT [])
  = (SnakeGame.log "Game Over: Hit wall"
       (SnakeGame.mkState [] [mkCoord 0 0 SNAKE; mkCoord 0 1 SNAKE]
                          (Some (mkCoord 0 1 FOOD)) LEFT []), Return tt)
  /\ SnakeTwo.moveSnake None
       [SnakeTwo.mkCoord 19 19 SnakeTwo.PLAYER_TWO] DOWN SnakeTwo.PLAYER_TWO
     = None.
Proof.
  split.
  - apply (proj1 wall_collision_decided_first 5%nat 5%nat _
             (mkCoord 0 0 SNAKE) [mkCoord 0 1 SNAKE]).
    + reflexivity.
    + unfold off_board; simpl; lia.
  - apply (proj2 wall_collision_decided_first).
    unfold off_board, SnakeTwo.BOARD_ROWS, SnakeTwo.BOARD_COLS; simpl; lia.
Defined.

(** A new head that is both off the board and on a cell of the body is
    reported as a wall collision: the bounds are tested first. *)
Example wall_before_self :
  SnakeGame.move 5 5
    (SnakeGame.mkState [] [mkCoord 0 0 SNAKE; mkCoord 0 (-1) SNAKE]
                       (Some (mkCoord 0 (-1) FOOD)) LEFT [])
  = (SnakeGame.log "Game Over: Hit wall"
       (SnakeGame.mkState [] [mkCoord 0 0 SNAKE; mkCoord 0 (-1) SNAKE]
                          (Some (mkCoord 0 (-1) FOOD)) LEFT []), Return tt).
Proof. reflexivity. Qed.

(** C5.  Whenever the new head is on the board and coincides with a cell
    of the agent's own body before the move, the last cell included,
    [move] ends the game with its self-collision message and leaves the
    body as it was, and [moveSnake] returns [null]. *)
Theorem self_collision_kills :
  (forall (R C : nat) (st : SnakeGame.State) (head : Coord) (tl : list Coord),
      SnakeGame.snake st = head :: tl ->
      on_board R C (shift (pos_of head) (SnakeGame.direction st)) ->
      shift (pos_of head) (SnakeGame.direction st)
        ∈ map pos_of (SnakeGame.snake st) ->
      SnakeGame.move R C st
      = (SnakeGame.log "Game Over: Hit itself" st, Return tt)
      /\ SnakeGame.snake (SnakeGame.move R C st).1 = SnakeGame.snake st)
  /\ (forall (fd : option SnakeTwo.Coord) (head : SnakeTwo.Coord)
        (tl : list SnakeTwo.Coord) (d : Direction) (t : SnakeTwo.CellType),
      on_board SnakeTwo.BOARD_ROWS SnakeTwo.BOARD_COLS
               (shift (SnakeTwo.pos_of head) d) ->
      shift (SnakeTwo.pos_of head) d ∈ map SnakeTwo.pos_of (head :: tl) ->
      SnakeTwo.moveSnake fd (head :: tl) d t = None).
Proof.
  split.
  - intros R C st head tl Hs Hon Hin.
    rewrite (move_self R C st head tl Hs Hon Hin). done.
  - intros fd head tl d t. apply moveSnake_self.
Qed.

(** A body that turns back onto its own last cell, which a plain move
    would have vacated on this very tick. *)
Lemma self_collision_kills_witness :
  SnakeGame.move 5 5
    (SnakeGame.mkState [] [mkCoord 0 0 SNAKE; mkCoord 0 1 SNAKE] None RIGHT [])
  = (SnakeGame.log "Game Over: Hit itself"
       (SnakeGame.mkState [] [mkCoord 0 0 SNAKE; mkCoord 0 1 SNAKE]
                          None RIGHT []), Return tt)
  /\ SnakeTwo.moveSnake None
       [SnakeTwo.mkCoord 3 3 SnakeTwo.PLAYER_ONE;
        SnakeTwo.mkCoord 3 4 SnakeTwo.PLAYER_ONE] RIGHT SnakeTwo.PLAYER_ONE
     = None.
Proof.
  split.
  - refine (proj1 (proj1 self_collision_kills 5%nat 5%nat _
                    (mkCoord 0 0 SNAKE) [mkCoord 0 1 SNAKE] _ _ _)).
    + reflexivity.
    + unfold on_board; simpl; lia.
    + simpl. apply list_elem_of_further, list_elem_of_here.
  - apply (proj2 self_collision_kills).
    + unfold on_board, SnakeTwo.BOARD_ROWS, SnakeTwo.BOARD_COLS; simpl; lia.
    + simpl. apply list_elem_of_further, list_elem_of_here.
Defined.

(** C3.  For a non-empty body whose new head is on the board and misses
    the body: when the new head is the food cell, the body after the step
    is the new head in front of the whole old body (one cell longer) and
    the food is gone; otherwise it is the new head in front of the old
    body without its last cell (same length) and the food is as before.
    [moveSnake] builds the same bodies. *)
Theorem food_consumption :
  (forall (R C : nat) (st : SnakeGame.State) (head : Coord) (tl : list Coord),
      SnakeGame.snake st = head :: tl ->
      on_board R C (shift (pos_of head) (SnakeGame.direction st)) ->
      shift (pos_of head) (SnakeGame.direction st)
        ∉ map pos_of (SnakeGame.snake st) ->
      let newHead := SnakeGame.advance head (SnakeGame.direction st) SNAKE in
      let st' := (SnakeGame.move R C st).1 in
      (food_at (SnakeGame.food st) (pos_of newHead) ->
         SnakeGame.snake st' = newHead :: SnakeGame.snake st
         /\ SnakeGame.food st' = None
         /\ length (SnakeGame.snake st') = S (length (SnakeGame.snake st)))
      /\ (~ food_at (SnakeGame.food st) (pos_of newHead) ->
         SnakeGame.snake st' = newHead :: removelast (SnakeGame.snake st)
         /\ SnakeGame.food st' = SnakeGame.food st
         /\ length (SnakeGame.snake st') = length (SnakeGame.snake st)))
  /\ (forall (fd : option SnakeTwo.Coord) (head : SnakeTwo.Coord)
        (tl : list SnakeTwo.Coord) (d : Direction) (t : SnakeTwo.CellType),
      on_board SnakeTwo.BOARD_ROWS SnakeTwo.BOARD_COLS
               (shift (SnakeTwo.pos_of head) d) ->
      shift (SnakeTwo.pos_of head) d ∉ map SnakeTwo.pos_of (head :: tl) ->
      let newHead := SnakeTwo.advance head d t in
      (food_at_two fd (SnakeTwo.pos_of newHead) ->
         SnakeTwo.moveSnake fd (head :: tl) d t = Some (newHead :: head :: tl))
      /\ (~ food_at_two fd (SnakeTwo.pos_of newHead) ->
         SnakeTwo.moveSnake fd (head :: tl) d t
         = Some (newHead :: removelast (head :: tl)))).
Proof.
  split.
  - intros R C st head tl Hs Hon Hnin newHead st'.
    destruct (move_advance R C st head tl Hs Hon Hnin) as (_ & _ & Hmv).
    fold newHead in Hmv. fold st' in Hmv. rewrite Hs. split.
    + intros Hf. apply eats_food_at in Hf. rewrite Hf in Hmv.
      destruct Hmv as [-> ->]. done.
    + intros Hf.
      destruct (SnakeGame.eats (SnakeGame.food st) newHead) eqn:He.
      { exfalso. by apply Hf, eats_food_at. }
      destruct Hmv as [-> ->]. repeat split.
      change (S (length (removelast (head :: tl))) = length (head :: tl)).
      apply length_removelast_cons.
  - intros fd head tl d t Hon Hnin newHead.
    pose proof (moveSnake_advance fd head tl d t Hon Hnin) as Hmv.
    fold newHead in Hmv. cbv zeta in Hmv. split.
    + intros Hf. apply eats_two_food_at in Hf. by rewrite Hmv, Hf.
    + intros Hf. destruct (SnakeTwo.eats fd newHead) eqn:He; [|done].
      exfalso. by apply Hf, eats_two_food_at.
Qed.

(** The scenario one cell from the food: head (2,3), heading RIGHT, food
    at (2,4); the body grows to [(2,4),(2,3)] and the food is gone. *)
Lemma food_consumption_witness :
  let st := SnakeGame.mkState [] [mkCoord 2 3 SNAKE]
                              (Some (mkCoord 2 4 FOOD)) RIGHT [] in
  SnakeGame.snake (SnakeGame.move 5 5 st).1
    = [mkCoord 2 4 SNAKE; mkCoord 2 3 SNAKE]
  /\ SnakeGame.food (SnakeGame.move 5 5 st).1 = None
  /\ length (SnakeGame.snake (SnakeGame.move 5 5 st).1) = 2%nat.
Proof.
  intros st.
  refine (proj1 (proj1 food_consumption 5%nat 5%nat st
                   (mkCoord 2 3 SNAKE) [] _ _ _) _).
  - reflexivity.
  - unfold on_board; simpl; lia.
  - simpl. intros H. apply elem_of_cons in H as [H|H]; [discriminate H|].
    by apply elem_of_nil in H.
  - exists (mkCoord 2 4 FOOD). split; reflexivity.
Defined.

(** C2, as amended.  For a non-empty body whose cells are pairwise
    distinct and consecutively 4-adjacent: if [move] does not end the
    game, and likewise if [moveSnake] does not return [null], the body
    after the step again has pairwise distinct, consecutively 4-adjacent
    cells and at least one cell. *)
Theorem body_invariant_preserved :
  (forall (R C : nat) (st : SnakeGame.State),
      SnakeGame.snake st <> [] ->
      body_ok (map pos_of (SnakeGame.snake st)) ->
      ~ game_over R C st ->
      body_ok (map pos_of (SnakeGame.snake (SnakeGame.move R C st).1))
      /\ (1 <= length (SnakeGame.snake (SnakeGame.move R C st).1))%nat)
  /\ (forall (fd : option SnakeTwo.Coord) (s s' : list SnakeTwo.Coord)
        (d : Direction) (t : SnakeTwo.CellType),
      s <> [] ->
      body_ok (map SnakeTwo.pos_of s) ->
      SnakeTwo.moveSnake fd s d t = Some s' ->
      body_ok (map SnakeTwo.pos_of s') /\ (1 <= length s')%nat).
Proof.
  split.
  - intros R C st Hne Hok Hlive.
    destruct (SnakeGame.snake st) as [|head tl] eqn:Hs; [done|]. clear Hne.
    destruct (board_cases R C (shift (pos_of head) (SnakeGame.direction st)))
      as [Hoff|Hon].
    { exfalso. apply Hlive. unfold game_over.
      rewrite (move_wall R C st head tl Hs Hoff). apply log_changes_console. }
    destruct (decide (shift (pos_of head) (SnakeGame.direction st)
                        ∈ map pos_of (head :: tl))) as [Hin|Hnin].
    { exfalso. apply Hlive. unfold game_over. rewrite <- Hs in Hin.
      rewrite (move_self R C st head tl Hs Hon Hin). apply log_changes_console. }
    pose proof Hnin as Hnin'. rewrite <- Hs in Hnin'.
    destruct (move_advance R C st head tl Hs Hon Hnin') as (_ & _ & Hmv).
    destruct (SnakeGame.eats _ _); destruct Hmv as [-> _].
    + split; [|simpl; lia].
      change (body_ok (shift (pos_of head) (SnakeGame.direction st)
                         :: pos_of head :: map pos_of tl)).
      by apply body_ok_grow.
    + split; [|simpl; lia].
      rewrite map_cons, <- removelast_map.
      change (body_ok (shift (pos_of head) (SnakeGame.direction st)
                         :: removelast (pos_of head :: map pos_of tl))).
      by apply body_ok_slide.
  - intros fd s s' d t Hne Hok Hmv.
    destruct s as [|head tl]; [done|]. clear Hne.
    destruct (board_cases SnakeTwo.BOARD_ROWS SnakeTwo.BOARD_COLS
                          (shift (SnakeTwo.pos_of head) d)) as [Hoff|Hon].
    { by rewrite (moveSnake_wall fd head tl d t Hoff) in Hmv. }
    destruct (decide (shift (SnakeTwo.pos_of head) d
                        ∈ map SnakeTwo.pos_of (head :: tl))) as [Hin|Hnin].
    { by rewrite (moveSnake_self fd head tl d t Hon Hin) in Hmv. }
    rewrite (moveSnake_advance fd head tl d t Hon Hnin) in Hmv.
    cbv zeta in Hmv.
    destruct (SnakeTwo.eats _ _); injection Hmv as <-.
    + split; [|simpl; lia].
      change (body_ok (shift (SnakeTwo.pos_of head) d
                         :: SnakeTwo.pos_of head :: map SnakeTwo.pos_of tl)).
      by apply body_ok_grow.
    + split; [|simpl; lia].
      change (match tl with [] => [] | _ :: _ => head :: removelast tl end)
        with (removelast (head :: tl)).
      rewrite map_cons, <- removelast_map.
      change (body_ok (shift (SnakeTwo.pos_of head) d
                :: removelast (SnakeTwo.pos_of head :: map SnakeTwo.pos_of tl))).
      by apply body_ok_slide.
Qed.

Lemma body_invariant_preserved_witness :
  let st := SnakeGame.mkState (makeBoard 5 5 (fun _ _ => EMPTY))
              [mkCoord 2 2 SNAKE; mkCoord 2 1 SNAKE] None RIGHT [] in
  let s' := [SnakeTwo.mkCoord 2 3 SnakeTwo.PLAYER_ONE;
             SnakeTwo.mkCoord 2 2 SnakeTwo.PLAYER_ONE] in
  (body_ok (map pos_of (SnakeGame.snake (SnakeGame.move 5 5 st).1))
   /\ (1 <= length (SnakeGame.snake (SnakeGame.move 5 5 st).1))%nat)
  /\ (body_ok (map SnakeTwo.pos_of s') /\ (1 <= length s')%nat).
Proof.
  intros st s'. split.
  - apply (proj1 body_invariant_preserved 5%nat 5%nat st).
    + discriminate.
    + split; simpl.
      * apply NoDup_cons. split.
        -- intros H. apply elem_of_cons in H as [H|H]; [discriminate H|].
           by apply elem_of_nil in H.
        -- apply NoDup_singleton.
      * unfold adjacent; simpl. split; [lia | done].
    + unfold game_over. intros H. apply H. reflexivity.
  - apply (proj2 body_invariant_preserved None
             [SnakeTwo.mkCoord 2 2 SnakeTwo.PLAYER_ONE;
              SnakeTwo.mkCoord 2 1 SnakeTwo.PLAYER_ONE]
             s' RIGHT SnakeTwo.PLAYER_ONE).
    + discriminate.
    + split; simpl.
      * apply NoDup_cons. split.
        -- intros H. apply elem_of_cons in H as [H|H]; [discriminate H|].
           by apply elem_of_nil in H.
        -- apply NoDup_singleton.
      * unfold adjacent; simpl. split; [lia | done].
    + reflexivity.
Defined.

(** C2 as it is worded does not ask for a non-empty body.  The empty
    body has pairwise distinct, consecutively adjacent cells; [move]
    returns at once without ending the game and [moveSnake] hands the
    empty body back, so the body after the step has no cell. *)
Lemma body_invariant_empty_body :
  let st := SnakeGame.mkState [] [] None RIGHT [] in
  body_ok (map pos_of (SnakeGame.snake st))
  /\ ~ game_over 5 5 st
  /\ ~ (1 <= length (SnakeGame.snake (SnakeGame.move 5 5 st).1))%nat
  /\ body_ok (map SnakeTwo.pos_of [])
  /\ SnakeTwo.moveSnake None [] RIGHT SnakeTwo.PLAYER_ONE = Some []
  /\ ~ (1 <= length (@nil SnakeTwo.Coord))%nat.
Proof.
  intros st. repeat split.
  - apply NoDup_nil_2.
  - unfold game_over. intros H. apply H. reflexivity.
  - simpl. lia.
  - apply NoDup_nil_2.
  - simpl. lia.
Qed.

(** C8, as amended.  An empty body is not rejected: [move] returns
    normally and leaves the state as it was, [moveSnake] returns the
    empty body, and the planner returns [null]. *)
Theorem empty_body_is_tolerated :
  (forall (R C : nat) (b : Board) (fd : option Coord) (d : Direction)
          (out : list string),
      SnakeGame.move R C (SnakeGame.mkState b [] fd d out)
      = (SnakeGame.mkState b [] fd d out, Return tt))
  /\ (forall (fd : option SnakeTwo.Coord) (d : Direction)
        (t : SnakeTwo.CellType),
      SnakeTwo.moveSnake fd [] d t = Some [])
  /\ (forall (board : list (list Coord)) (food : Coord),
      Planner.findShortestWayToFood board [] food = Return None).
Proof. repeat split. Qed.

(** C8 as it is worded: neither [move] nor the planner raises on an
    empty body. *)
Lemma empty_body_does_not_raise :
  (SnakeGame.move 5 5 (SnakeGame.mkState (makeBoard 5 5 tag55) []
                         (Some (mkCoord 2 4 FOOD)) RIGHT [])).2 <> Throw
  /\ Planner.findShortestWayToFood (makeBoard 5 5 tag55) []
       (mkCoord 2 4 FOOD) <> Throw.
Proof. split; discriminate. Qed.

(** C9.  The 5x5 scenario: one agent at (2,2) heading RIGHT, food at
    (2,4), nothing else on the board.  On the snapshot the AI page builds
    from this state the planner answers RIGHT; one step with heading
    RIGHT puts the head at (2,3), keeps the length and the food, logs
    nothing and returns normally. *)
Theorem scenario_5x5 :
  let food := mkCoord 2 4 FOOD in
  let snake := [mkCoord 2 2 SNAKE] in
  let st := SnakeGame.mkState (makeBoard 5 5 tag55) snake (Some food) RIGHT [] in
  let st' := (SnakeGame.move 5 5 st).1 in
  Planner.findShortestWayToFood
    (AiSnake.getPathfindingBoard 5 5 snake (Some food)) snake food
    = Return (Some RIGHT)
  /\ (SnakeGame.move 5 5 st).2 = Return tt
  /\ map pos_of (SnakeGame.snake st') = [(2, 3)]
  /\ length (SnakeGame.snake st') = length (SnakeGame.snake st)
  /\ SnakeGame.food st' = Some food
  /\ ~ game_over 5 5 st
  /\ SnakeGame.board st'
     = makeBoard 5 5 (fun r c => if (r =? 2) && (c =? 3) then SNAKE
                                 else if (r =? 2) && (c =? 4) then FOOD
                                 else EMPTY).
Proof.
  cbv zeta. repeat split; try (vm_compute; reflexivity).
  unfold game_over. intros H. apply H. vm_compute. reflexivity.
Qed.

(** ** Walks *)

Lemma adjacent_iff_shift (p q : Pos) :
  adjacent p q <-> exists d, q = shift p d.
Proof.
  destruct p as [r c], q as [r' c']. unfold adjacent, shift; simpl. split.
  - intros H.
    assert ((r' = r - 1 /\ c' = c) \/ (r' = r + 1 /\ c' = c)
            \/ (r' = r /\ c' = c - 1) \/ (r' = r /\ c' = c + 1))
      as [[-> ->]|[[-> ->]|[[-> ->]|[-> ->]]]] by lia.
    + exists UP. simpl. f_equal; lia.
    + exists DOWN. simpl. f_equal; lia.
    + exists LEFT. simpl. f_equal; lia.
    + exists RIGHT. simpl. f_equal; lia.
  - intros [d [= -> ->]]. destruct d; simpl; lia.
Qed.

Section Walks.

Variable ok : Pos -> Prop.

Lemma walk_snoc (a : Pos) (l : list Pos) (u v : Pos) :
  walk_on ok a l u -> adjacent u v -> ok v -> walk_on ok a (l ++ [v]) v.
Proof.
  revert a. induction l as [|c l IH]; simpl; intros a.
  - intros -> ? ?. done.
  - intros (? & ? & ?) ? ?. repeat split; auto.
Qed.

Lemma reach_prepend (a c b : Pos) (k : nat) :
  adjacent a c -> ok c -> reach_on ok c b k -> reach_on ok a b (S k).
Proof.
  intros Hac Hc Hr. induction Hr as [|u v k Hr IH Huv Hv].
  - eapply reach_step; [apply reach_here | done..].
  - eapply reach_step; eauto.
Qed.

Lemma walk_reach (a : Pos) (l : list Pos) (b : Pos) :
  walk_on ok a l b -> reach_on ok a b (length l).
Proof.
  revert a. induction l as [|c l IH]; simpl; intros a.
  - intros ->. constructor.
  - intros (Hac & Hc & Hw). eapply reach_prepend; eauto.
Qed.

Lemma reach_walk (a b : Pos) (k : nat) :
  reach_on ok a b k -> exists l, walk_on ok a l b /\ length l = k.
Proof.
  induction 1 as [|u v k Hr (l & Hw & Hl) Huv Hv].
  - by exists [].
  - exists (l ++ [v]). split; [by eapply walk_snoc|].
    rewrite length_app. simpl. lia.
Qed.

Lemma walk_last (a : Pos) (l : list Pos) (b : Pos) :
  walk_on ok a l b -> l <> [] -> b ∈ l.
Proof.
  revert a. induction l as [|c l IH]; [done|]. simpl.
  intros a (_ & _ & Hw) _. destruct l as [|c' l].
  - simpl in Hw. subst. apply list_elem_of_here.
  - apply list_elem_of_further. eapply IH; [exact Hw | done].
Qed.

(** Walks only depend on which cells are accepted. *)
Lemma walk_on_equiv (ok' : Pos -> Prop) (a : Pos) (l : list Pos) (b : Pos) :
  (forall p, ok p <-> ok' p) -> walk_on ok a l b <-> walk_on ok' a l b.
Proof.
  intros Heq. revert a. induction l as [|c l IH]; simpl; intros a; [done|].
  by rewrite Heq, IH.
Qed.

Lemma reach_on_equiv (ok' : Pos -> Prop) (a b : Pos) (k : nat) :
  (forall p, ok p <-> ok' p) -> reach_on ok a b k -> reach_on ok' a b k.
Proof.
  intros Heq. induction 1 as [|u v k Hr IH Huv Hv]; [constructor|].
  eapply reach_step; [done..|]. by apply Heq.
Qed.

End Walks.

Lemma simple_path_distinct_ends (board : list (list Coord)) (a : Pos)
    (l : list Pos) (b : Pos) :
  simple_path board a l b -> (1 <= length l)%nat -> a <> b.
Proof.
  intros [Hw Hnd] Hlen ->. apply NoDup_cons in Hnd as [Hnin _].
  apply Hnin. eapply walk_last; [exact Hw|]. by destruct l; [simpl in Hlen; lia|].
Qed.

(** ** The snapshot as [isValid] sees it *)

Lemma cell_at_on_board (board : list (list Coord)) (p : Pos) (cell : Coord) :
  rectangular board -> cell_at board p = Some cell ->
  on_board (Planner.rows board) (Planner.cols board) p.
Proof.
  intros Hrect. unfold cell_at, on_board.
  destruct ((p.1 <? 0) || (p.2 <? 0)) eqn:Hneg; [done|].
  apply orb_false_iff in Hneg as [H1%Z.ltb_ge H2%Z.ltb_ge].
  destruct (board !! Z.to_nat p.1) as [line|] eqn:Hline; [|done].
  intros Hcell. apply lookup_lt_Some in Hcell.
  pose proof (lookup_lt_Some _ _ _ Hline) as Hr.
  rewrite (Hrect line) in Hcell by (eapply list_elem_of_lookup_2; eauto).
  unfold Planner.rows. lia.
Qed.

Lemma passable_on_board (board : list (list Coord)) (p : Pos) :
  rectangular board -> passable board p ->
  on_board (Planner.rows board) (Planner.cols board) p.
Proof.
  intros Hrect. unfold passable, passableb.
  destruct (cell_at board p) as [cell|] eqn:Hc; [|done].
  intros _. by eapply cell_at_on_board.
Qed.

Lemma isValid_rectangular (board : list (list Coord)) (r c : Z) :
  rectangular board ->
  Planner.isValid board r c = Return (passableb board (r, c)).
Proof.
  intros Hrect. unfold Planner.isValid, passableb, cell_at. simpl.
  destruct (r <? 0) eqn:Hr0; [done|].
  destruct (c <? 0) eqn:Hc0.
  { simpl. by rewrite orb_true_r. }
  apply Z.ltb_ge in Hr0, Hc0. simpl.
  destruct (r >=? Z.of_nat (Planner.rows board)) eqn:Hr1.
  { simpl. rewrite Z.geb_leb in Hr1. apply Z.leb_le in Hr1.
    rewrite (proj2 (lookup_ge_None board (Z.to_nat r))); [done|].
    unfold Planner.rows in Hr1. lia. }
  rewrite Z.geb_leb in Hr1. apply Z.leb_gt in Hr1. simpl.
  destruct (lookup_lt_is_Some_2 board (Z.to_nat r)) as [line Hline].
  { unfold Planner.rows in Hr1. lia. }
  rewrite Hline.
  pose proof (Hrect line (list_elem_of_lookup_2 _ _ _ Hline)) as Hlen.
  destruct (c >=? Z.of_nat (Planner.cols board)) eqn:Hc1.
  - rewrite Z.geb_leb in Hc1. apply Z.leb_le in Hc1.
    rewrite (proj2 (lookup_ge_None line (Z.to_nat c))); [done|]. lia.
  - rewrite Z.geb_leb in Hc1. apply Z.leb_gt in Hc1.
    destruct (lookup_lt_is_Some_2 line (Z.to_nat c)) as [cell Hcell]; [lia|].
    by rewrite Hcell.
Qed.

Lemma isValid_cases (board : list (list Coord)) (r c : Z) :
  (exists b, Planner.isValid board r c = Return b)
  \/ (Planner.isValid board r c = Throw /\ ~ rectangular board).
Proof.
  destruct (Planner.isValid board r c) as [b| |] eqn:Hv.
  - left. by exists b.
  - right. split; [done|]. intros Hrect.
    by rewrite (isValid_rectangular _ _ _ Hrect) in Hv.
  - exfalso. unfold Planner.isValid in Hv.
    repeat match type of Hv with
           | (if ?b then _ else _) = _ => destruct b
           | match ?o with Some _ => _ | None => _ end = _ => destruct o
           end; discriminate.
Qed.

(** What [isValid] accepts is on the board and tagged EMPTY or FOOD,
    whatever the shape of the snapshot. *)
Lemma valid_on_board (board : list (list Coord)) (p : Pos) :
  valid board p ->
  on_board (Planner.rows board) (Planner.cols board) p.
Proof.
  unfold valid, Planner.isValid, on_board.
  destruct (_ || _) eqn:Hb; [discriminate|]. intros _.
  rewrite !orb_false_iff, !Z.ltb_ge, Z.geb_leb, Z.geb_leb, !Z.leb_gt in Hb.
  lia.
Qed.

Lemma valid_passable (board : list (list Coord)) (p : Pos) :
  valid board p -> passable board p.
Proof.
  intros Hv. pose proof (valid_on_board _ _ Hv) as [[Hr _] [Hc _]].
  revert Hv. unfold valid, Planner.isValid, passable, passableb, cell_at.
  rewrite (proj2 (Z.ltb_ge p.1 0) Hr), (proj2 (Z.ltb_ge p.2 0) Hc).
  cbn [orb]. destruct (_ || _); [discriminate|].
  destruct (board !! Z.to_nat p.1) as [line|]; [|discriminate].
  destruct (line !! Z.to_nat p.2) as [cell|]; [|discriminate].
  by intros [= ->].
Qed.

Lemma valid_iff_passable (board : list (list Coord)) (p : Pos) :
  rectangular board -> valid board p <-> passable board p.
Proof.
  intros Hrect. unfold valid, passable.
  rewrite (isValid_rectangular _ _ _ Hrect), <- surjective_pairing.
  split; [by intros [= ->] | by intros ->].
Qed.

(** ** The open set: sorting, finding, improving *)

Lemma insertByF_perm (n : Node) (l : list Node) : insertByF n l ≡ₚ n :: l.
Proof.
  induction l as [|m l IH]; simpl; [done|].
  destruct (f n <=? f m); [done|]. rewrite IH. apply Permutation_swap.
Qed.

Lemma sortByF_perm (l : list Node) : sortByF l ≡ₚ l.
Proof.
  induction l as [|n l IH]; simpl; [done|].
  rewrite insertByF_perm. by constructor.
Qed.

Lemma insertByF_least (n : Node) (l : list Node) :
  least_first l -> least_first (insertByF n l).
Proof.
  destruct l as [|m l]; simpl; [constructor|]. intros Hm.
  destruct (f n <=? f m) eqn:Hle; simpl.
  - apply Z.leb_le in Hle. constructor; [done|].
    eapply Forall_impl; [exact Hm|]. simpl. intros; lia.
  - apply Z.leb_gt in Hle. rewrite insertByF_perm.
    constructor; [lia | done].
Qed.

Lemma sortByF_least (l : list Node) : least_first (sortByF l).
Proof.
  induction l as [|n l IH]; simpl; [done|]. by apply insertByF_least.
Qed.

Lemma sortByF_head (l : list Node) (current : Node) (rest : list Node) :
  sortByF l = current :: rest ->
  l ≡ₚ current :: rest /\ forall m, m ∈ l -> f current <= f m.
Proof.
  intros Hs. pose proof (sortByF_perm l) as Hp. rewrite Hs in Hp.
  split; [done|]. intros m Hm.
  pose proof (sortByF_least l) as Hl. rewrite Hs in Hl. simpl in Hl.
  rewrite <- Hp in Hm. apply elem_of_cons in Hm as [->|Hm]; [lia|].
  rewrite Forall_forall in Hl. by apply Hl.
Qed.

Lemma sameCell_npos (r c : Z) (n : Node) :
  sameCell r c n = true <-> npos n = (r, c).
Proof.
  unfold sameCell, npos. rewrite andb_true_iff, !Z.eqb_eq.
  split; [intros [-> ->]; done | intros [= -> ->]; done].
Qed.

Lemma findNode_Some (r c : Z) (l : list Node) (n : Node) :
  findNode r c l = Some n -> n ∈ l /\ npos n = (r, c).
Proof.
  unfold findNode. intros H. apply find_some in H as [Hin Hs].
  split; [by apply list_elem_of_In | by apply sameCell_npos].
Qed.

Lemma findNode_None (r c : Z) (l : list Node) :
  findNode r c l = None -> (r, c) ∉ map npos l.
Proof.
  unfold findNode. intros H Hin.
  apply list_elem_of_fmap in Hin as (n & Hn & Hin).
  apply list_elem_of_In in Hin.
  pose proof (find_none _ _ H n Hin) as Hf.
  symmetry in Hn. apply sameCell_npos in Hn. congruence.
Qed.

(** Improving replaces the node that [findNode] returns, in place. *)
Lemma improve_split (r c tg : Z) (current : Node) (l : list Node)
    (neighbor : Node) :
  findNode r c l = Some neighbor ->
  exists l1 l2,
    l = l1 ++ neighbor :: l2
    /\ improve r c tg current l
       = l1 ++ mkNode (nrow neighbor) (ncol neighbor) tg (h neighbor)
                      (tg + h neighbor) (Some current) :: l2.
Proof.
  unfold findNode. induction l as [|n l IH]; simpl; [done|].
  destruct (sameCell r c n) eqn:Hs.
  - intros [= ->]. by exists [], l.
  - intros Hf. destruct (IH Hf) as (l1 & l2 & -> & ->).
    by exists (n :: l1), l2.
Qed.

(** ** The cells a search can reach *)

Lemma allCells_on_board (R C : nat) (p : Pos) :
  on_board R C p -> p ∈ allCells R C.
Proof.
  destruct p as [r c]. unfold on_board, allCells; simpl. intros [Hr Hc].
  apply list_elem_of_In, in_flat_map. exists (Z.to_nat r). split.
  - apply in_seq. lia.
  - apply in_map_iff. exists (Z.to_nat c). split.
    + f_equal; lia.
    + apply in_seq. lia.
Qed.

Lemma length_allCells (R C : nat) : length (allCells R C) = (R * C)%nat.
Proof.
  unfold allCells. generalize 0%nat at 2.
  induction R as [|R IH]; intros k; simpl; [done|].
  rewrite length_app, length_map, length_seq, IH. done.
Qed.

Lemma size_list_to_set_le `{Countable A} (l : list A) :
  (size (list_to_set l : gset A) <= length l)%nat.
Proof.
  induction l as [|x l IH].
  - rewrite list_to_set_nil, size_empty. done.
  - rewrite list_to_set_cons. simpl length.
    destruct (decide (x ∈ (list_to_set l : gset A))) as [Hin|Hnin].
    + assert ({[x]} ∪ list_to_set l = (list_to_set l : gset A)) as ->
        by (by apply subseteq_union_1_L, singleton_subseteq_l). lia.
    + rewrite size_union by (by apply disjoint_singleton_l).
      rewrite size_singleton. lia.
Qed.

Lemma passable_universe (board : list (list Coord)) (origin v : Pos) :
  rectangular board -> passable board v -> v ∈ universe board origin.
Proof.
  intros Hrect Hv. unfold universe. apply elem_of_union_r, elem_of_list_to_set.
  by apply allCells_on_board, passable_on_board.
Qed.

Lemma size_universeKeys (board : list (list Coord)) (origin : Pos) :
  (size (universeKeys board origin) <= S (rows board * cols board))%nat.
Proof.
  unfold universeKeys. etransitivity; [apply size_list_to_set_le|].
  rewrite length_map. simpl. by rewrite length_allCells.
Qed.

Lemma valid_universeKeys (board : list (list Coord)) (origin v : Pos) :
  valid board v -> keyOf v ∈ universeKeys board origin.
Proof.
  intros Hv. unfold universeKeys.
  apply elem_of_list_to_set, list_elem_of_fmap. exists v. split; [done|].
  by apply list_elem_of_further, allCells_on_board, valid_on_board.
Qed.

(** ** Keys of the closed set *)

Lemma untilDash_digits (d : Decimal.uint) (rest : string) :
  untilDash (NilEmpty.string_of_uint d +:+ "-" +:+ rest)
  = (NilEmpty.string_of_uint d, rest).
Proof. induction d; simpl; rewrite ?IHd; done. Qed.

(** A numeral is one character, a digit or the sign, and then digits. *)
Lemma numberToString_shape (n : Z) :
  exists a d, numberToString n = String a (NilEmpty.string_of_uint d).
Proof.
  unfold numberToString. destruct n as [|p|p]; simpl.
  - by exists "0"%char, Decimal.Nil.
  - destruct (Pos.to_uint p) as [|d|d|d|d|d|d|d|d|d|d]; simpl;
      first [ by exists "0"%char, Decimal.Nil | by eexists _, d ].
  - destruct (Pos.to_uint p) as [|d|d|d|d|d|d|d|d|d|d]; simpl.
    + by exists "-"%char, (Decimal.D0 Decimal.Nil).
    + by exists "-"%char, (Decimal.D0 d).
    + by exists "-"%char, (Decimal.D1 d).
    + by exists "-"%char, (Decimal.D2 d).
    + by exists "-"%char, (Decimal.D3 d).
    + by exists "-"%char, (Decimal.D4 d).
    + by exists "-"%char, (Decimal.D5 d).
    + by exists "-"%char, (Decimal.D6 d).
    + by exists "-"%char, (Decimal.D7 d).
    + by exists "-"%char, (Decimal.D8 d).
    + by exists "-"%char, (Decimal.D9 d).
Qed.

Lemma splitKey_coordKey (r c : Z) :
  splitKey (coordKey r c) = (numberToString r, numberToString c).
Proof.
  unfold coordKey. destruct (numberToString_shape r) as (a & d & ->).
  simpl. by rewrite untilDash_digits.
Qed.

Lemma numberToString_inj (a b : Z) :
  numberToString a = numberToString b -> a = b.
Proof.
  unfold numberToString. intros H.
  assert (Hnn : forall z, Z.to_int z <> Decimal.Pos Decimal.Nil
                          /\ Z.to_int z <> Decimal.Neg Decimal.Nil).
  { intros [|p|p]; simpl; split; try discriminate;
      intros [= Hp]; by apply (DecimalPos.Unsigned.to_uint_nonnil p). }
  apply (f_equal NilZero.int_of_string) in H.
  rewrite !NilZero.isi in H by apply Hnn.
  injection H as H. apply (f_equal Z.of_int) in H.
  by rewrite !DecimalZ.of_to in H.
Qed.

(** Two cells never share a key. *)
Lemma coordKey_inj (r c r' c' : Z) :
  coordKey r c = coordKey r' c' -> (r, c) = (r', c').
Proof.
  intros H. apply (f_equal splitKey) in H.
  rewrite !splitKey_coordKey in H. injection H as Hr Hc.
  by rewrite (numberToString_inj _ _ Hr), (numberToString_inj _ _ Hc).
Qed.

Lemma keyOf_inj (p q : Pos) : keyOf p = keyOf q -> p = q.
Proof.
  destruct p, q. unfold keyOf; simpl. apply coordKey_inj.
Qed.

(** ** Correctness of the search *)

Section AStar.

Variable board : list (list Coord).
Variables start food : Coord.

Local Abbreviation s := (pos_of start).
Local Abbreviation t := (pos_of food).
Local Abbreviation wf := (wf board start food).
Local Abbreviation search_inv := (search_inv board start food).
Local Abbreviation expand_inv := (expand_inv board start food).
Local Abbreviation hcost := (fun v : Pos => heuristic food v.1 v.2).

(** The Manhattan distance is consistent on the grid. *)
Lemma heuristic_step (u v : Pos) :
  adjacent u v -> hcost u <= 1 + hcost v.
Proof. unfold adjacent, heuristic; simpl. lia. Qed.

Lemma wf_f (n : Node) : wf n -> f n = g n + hcost (npos n).
Proof.
  destruct 1 as [|p n _ _ _ _ _ Hh Hf]; simpl; [lia|]. by rewrite Hf, Hh.
Qed.

Lemma ancestors_child (n p : Node) :
  parent n = Some p -> ancestors n = n :: ancestors p.
Proof. destruct n as [? ? ? ? ? [q|]]; simpl; [intros [= ->]; done | done]. Qed.

Lemma wf_universe (n : Node) : wf n -> keyOf (npos n) ∈ universeKeys board s.
Proof.
  destruct 1 as [|p n _ _ _ Hv _ _ _].
  - unfold universeKeys. apply elem_of_list_to_set, list_elem_of_fmap.
    exists s. split; [done | apply list_elem_of_here].
  - by apply valid_universeKeys.
Qed.

(** The path that [atFood] rebuilds from a well-formed node is a walk
    from the start cell to the node's cell, of [g] steps. *)
Lemma wf_chain (n : Node) :
  wf n ->
  exists l, map npos (rev (ancestors n)) = s :: l
            /\ walk_on (valid board) s l (npos n)
            /\ Z.of_nat (length l) = g n.
Proof.
  induction 1 as [|p n Hp (l & Hl & Hw & Hg) Hpar Hadj Hv Hgn Hh Hf].
  - exists []. done.
  - exists (l ++ [npos n]). rewrite (ancestors_child _ _ Hpar). simpl.
    rewrite map_app, Hl. simpl. split; [done|]. split.
    + by eapply walk_snoc.
    + rewrite length_app. simpl. lia.
Qed.

Lemma covered_weaken (O : list Node) (C : gset string) (v : Pos) (b b' : Z) :
  b <= b' -> covered O C v b -> covered O C v b'.
Proof.
  intros Hb [Hc|(m & Hm & Hp & Hg)]; [by left|].
  right. exists m. repeat split; [done..|lia].
Qed.

(** Every cell reached from the start in [k] steps is closed, or some
    open node has an [f] of at most [k] plus the cell's heuristic. *)
Lemma frontier (O : list Node) (C : gset string) (v : Pos) (k : nat) :
  search_inv O C -> reach_on (valid board) s v k ->
  keyOf v ∈ C \/ exists m, m ∈ O /\ f m <= Z.of_nat k + hcost v.
Proof.
  intros HI Hr. induction Hr as [|u v k Hr IH Huv Hv].
  - destruct (inv_start _ _ _ _ _ HI) as [Hc|(m & Hm & Hp & Hg)]; [by left|].
    right. exists m. split; [done|].
    rewrite (wf_f m) by (by eapply inv_wf). rewrite Hp. simpl. lia.
  - destruct IH as [Hu|(m & Hm & Hf)].
    + destruct (inv_closed _ _ _ _ _ HI u k v Hu Hr Huv Hv)
        as [Hc|(m & Hm & Hp & Hg)]; [by left|].
      right. exists m. split; [done|].
      rewrite (wf_f m) by (by eapply inv_wf). rewrite Hp. simpl. lia.
    + right. exists m. split; [done|].
      pose proof (heuristic_step u v Huv). simpl in *. lia.
Qed.

(** The node taken out of the open set carries the least number of
    steps in which its cell can be reached. *)
Lemma pop_optimal (O : list Node) (C : gset string) (current : Node) (k : nat) :
  search_inv O C -> current ∈ O -> (forall m, m ∈ O -> f current <= f m) ->
  reach_on (valid board) s (npos current) k -> g current <= Z.of_nat k.
Proof.
  intros HI Hin Hmin Hr.
  destruct (frontier O C _ k HI Hr) as [Hc|(m & Hm & Hf)].
  - by destruct (inv_open _ _ _ _ _ HI current Hin).
  - pose proof (Hmin m Hm) as Hle.
    rewrite (wf_f current) in Hle by (by eapply inv_wf). simpl in *. lia.
Qed.

Lemma wf_h (n : Node) : wf n -> h n = hcost (npos n).
Proof. by destruct 1. Qed.

(** One neighbour visited: the visit raises only on a snapshot that is
    not rectangular, and otherwise keeps the open set in order. *)
Lemma visit_ok (C : gset string) (current : Node) (O : list Node) (d : Direction) :
  wf current -> expand_inv C O ->
  (visit board food C current O d = Throw /\ ~ rectangular board)
  \/ exists O',
    visit board food C current O d = Return O'
    /\ expand_inv C O'
    /\ (forall v b, covered O C v b -> covered O' C v b)
    /\ (valid board (shift (npos current) d) ->
        covered O' C (shift (npos current) d) (g current + 1)).
Proof.
  intros Hcur [Hwf Hopen Hnd]. unfold visit.
  destruct (isValid_cases board (nrow current + rowDelta d)
                          (ncol current + colDelta d))
    as [[valid_here Hb]|[Hthrow Hnr]].
  2:{ left. by rewrite Hthrow. }
  right. rewrite Hb.
  assert (Hadj : adjacent (npos current) (shift (npos current) d))
    by (apply adjacent_iff_shift; by exists d).
  assert (Hval : valid_here = true <-> valid board (shift (npos current) d)).
  { unfold valid. simpl fst; simpl snd. rewrite Hb.
    split; [by intros -> | by intros [= ->]]. }
  change (nrow current + rowDelta d, ncol current + colDelta d)
    with (shift (npos current) d).
  change (nrow current + rowDelta d) with (shift (npos current) d).1.
  change (ncol current + colDelta d) with (shift (npos current) d).2.
  clear Hb. destruct (shift (npos current) d) as [r c] eqn:Hv.
  simpl fst; simpl snd.
  destruct valid_here.
  2:{ exists O. repeat split; try done. intros Habs. by apply Hval in Habs. }
  assert (Hpass : valid board (r, c)) by (by apply Hval).
  case_bool_decide as Hclosed.
  { exists O. repeat split; try done. intros _. by left. }
  destruct (findNode r c O) as [neighbor|] eqn:Hfind.
  - destruct (improve_split r c (g current + 1) current O neighbor Hfind)
      as (l1 & l2 & HO & Himp).
    apply findNode_Some in Hfind as [Hnin Hnpos].
    set (n' := mkNode (nrow neighbor) (ncol neighbor) (g current + 1)
                      (h neighbor) (g current + 1 + h neighbor) (Some current))
      in *.
    assert (Hn' : npos n' = npos neighbor) by done.
    destruct (g current + 1 <? g neighbor) eqn:Hlt.
    + apply Z.ltb_lt in Hlt. eexists. split; [done|].
      rewrite Himp. subst O. split; [|split].
      * constructor.
        -- intros n Hn. rewrite elem_of_app, elem_of_cons in Hn.
           destruct Hn as [Hn|[->|Hn]].
           ++ apply Hwf. rewrite elem_of_app. by left.
           ++ eapply wf_child with (p := current); try done.
              ** by rewrite Hn', Hnpos.
              ** by rewrite Hn', Hnpos.
              ** apply (wf_h neighbor), Hwf, Hnin.
           ++ apply Hwf. rewrite elem_of_app, elem_of_cons. by right; right.
        -- intros n Hn. rewrite elem_of_app, elem_of_cons in Hn.
           destruct Hn as [Hn|[->|Hn]].
           ++ apply Hopen. rewrite elem_of_app. by left.
           ++ rewrite Hn'. by apply Hopen.
           ++ apply Hopen. rewrite elem_of_app, elem_of_cons. by right; right.
        -- rewrite map_app, map_cons, Hn'.
           by rewrite map_app, map_cons in Hnd.
      * intros x b [Hx|(m & Hm & Hp & Hg)]; [by left|]. right.
        rewrite elem_of_app, elem_of_cons in Hm.
        destruct Hm as [Hm|[->|Hm]].
        -- exists m. rewrite elem_of_app. by repeat split; [left|..].
        -- exists n'. rewrite elem_of_app, elem_of_cons.
           split; [by right; left|]. split; [by rewrite Hn'|]. simpl. lia.
        -- exists m. rewrite elem_of_app, elem_of_cons.
           by repeat split; [right; right|..].
      * intros _. right. exists n'. rewrite elem_of_app, elem_of_cons.
        split; [by right; left|]. split; [by rewrite Hn'|]. simpl. lia.
    + apply Z.ltb_ge in Hlt. exists O. repeat split; try done.
      intros _. right. exists neighbor. repeat split; [done..|lia].
  - apply findNode_None in Hfind.
    set (n' := mkNode r c (g current + 1) (heuristic food r c)
                      (g current + 1 + heuristic food r c) (Some current)).
    exists (O ++ [n']). split; [done|]. split; [|split].
    + constructor.
      * intros n Hn. apply elem_of_app in Hn as [Hn|Hn]; [by apply Hwf|].
        apply list_elem_of_singleton in Hn as ->.
        by eapply wf_child with (p := current).
      * intros n Hn. apply elem_of_app in Hn as [Hn|Hn]; [by apply Hopen|].
        by apply list_elem_of_singleton in Hn as ->.
      * rewrite map_app. simpl. apply NoDup_app. split; [done|].
        split; [|apply NoDup_singleton].
        intros x Hx Hx'. apply list_elem_of_singleton in Hx'. by subst x.
    + intros x b [Hx|(m & Hm & Hp & Hg)]; [by left|]. right.
      exists m. split; [|done]. apply elem_of_app. by left.
    + intros _. right. exists n'. split.
      * apply elem_of_app. right. by apply list_elem_of_singleton.
      * split; [done | simpl; lia].
Qed.

(** All the neighbours visited. *)
Lemma expand_ok (C : gset string) (current : Node) (ms : list Direction) :
  wf current -> forall O, expand_inv C O ->
  (expand board food C current O ms = Throw /\ ~ rectangular board)
  \/ exists O',
    expand board food C current O ms = Return O'
    /\ expand_inv C O'
    /\ (forall v b, covered O C v b -> covered O' C v b)
    /\ (forall d, d ∈ ms -> valid board (shift (npos current) d) ->
        covered O' C (shift (npos current) d) (g current + 1)).
Proof.
  intros Hcur. induction ms as [|d ms IH]; intros O HE; simpl.
  - right. exists O. split; [done|]. split; [done|]. split; [done|].
    intros d Hd. by apply elem_of_nil in Hd.
  - destruct (visit_ok C current O d Hcur HE)
      as [[-> Hnr]|(O1 & -> & HE1 & Hmono1 & Hd1)]; [by left|].
    destruct (IH O1 HE1) as [[-> Hnr]|(O' & -> & HE' & Hmono & Hds)];
      [by left|].
    right. exists O'. split; [done|]. split; [done|]. split; [by auto|].
    intros d' Hd' Hp. apply elem_of_cons in Hd' as [->|Hd']; by auto.
Qed.

(** What [atFood] answers for a well-formed node: nothing when the node
    is the start node itself, and otherwise the heading of the first
    step of the rebuilt path. *)
Lemma atFood_spec (current : Node) :
  wf current ->
  exists l,
    map npos (rev (ancestors current)) = s :: l
    /\ walk_on (valid board) s l (npos current)
    /\ Z.of_nat (length l) = g current
    /\ match l with
       | [] => atFood start current = Answer (rev (ancestors current)) None
       | v :: _ =>
           exists d, v = shift s d
             /\ atFood start current
                = Answer (rev (ancestors current)) (Some d)
       end.
Proof.
  intros Hcur. destruct (wf_chain current Hcur) as (l & Hl & Hw & Hg).
  exists l. repeat split; try done. unfold atFood.
  destruct (rev (ancestors current)) as [|p0 [|p1 path]]; [done| |].
  - simpl in Hl. injection Hl as _ Hl. by subst l.
  - simpl in Hl. injection Hl as _ Hl. subst l. destruct Hw as (Hadj & _ & _).
    apply adjacent_iff_shift in Hadj as [d Hd]. exists d. split; [done|].
    unfold npos, pos_of, shift in Hd. simpl in Hd. injection Hd as Hr Hc.
    rewrite !Z.gtb_ltb.
    destruct d; simpl in Hr, Hc;
      repeat match goal with
             | |- context [?a <? ?b] => destruct (Z.ltb_spec a b); try lia
             end; done.
Qed.

Lemma at_food_test (current : Node) :
  (nrow current =? row food) && (ncol current =? col food) = true
  <-> npos current = t.
Proof.
  unfold npos, pos_of. rewrite andb_true_iff, !Z.eqb_eq.
  split; [intros [-> ->]; done | intros [= -> ->]; done].
Qed.

(** The loop: with enough fuel for the cells not yet closed, the search
    ends, and ends as [search_post] says. *)
Lemma search_correct (fuel : nat) :
  forall (O : list Node) (C : gset string),
    search_inv O C ->
    (size (universeKeys board s ∖ C) < fuel)%nat ->
    search_post board start food (search board start food fuel O C).
Proof.
  induction fuel as [|fuel IH]; intros O C HI Hfuel; [lia|].
  simpl. destruct O as [|n0 O0].
  { simpl. intros k Hr.
    destruct (frontier [] C _ k HI Hr) as [Hc|(m & Hm & _)].
    - by apply (inv_food _ _ _ _ _ HI).
    - by apply elem_of_nil in Hm. }
  destruct (sortByF (n0 :: O0)) as [|current rest] eqn:Hsort.
  { pose proof (sortByF_perm (n0 :: O0)) as Hp. rewrite Hsort in Hp.
    by apply Permutation_nil_cons in Hp. }
  apply sortByF_head in Hsort as [Hperm Hmin].
  set (O := n0 :: O0) in *. clearbody O. clear n0 O0.
  assert (Hin : current ∈ O) by (rewrite Hperm; apply list_elem_of_here).
  assert (Hsub : forall m, m ∈ rest -> m ∈ O)
    by (intros m Hm; rewrite Hperm; by apply list_elem_of_further).
  pose proof (inv_wf _ _ _ _ _ HI current Hin) as Hcur.
  pose proof (inv_open _ _ _ _ _ HI current Hin) as Hfresh.
  pose proof (inv_nodup _ _ _ _ _ HI) as Hnd.
  rewrite Hperm in Hnd. simpl in Hnd. apply NoDup_cons in Hnd as [Hnotin Hnd].
  change (coordKey (nrow current) (ncol current)) with (keyOf (npos current)).
  set (C' := {[keyOf (npos current)]} ∪ C).
  assert (Hcont : npos current <> t ->
    search_post board start food
      match expand board food C' current rest moves with
      | Return openSet' => search board start food fuel openSet' C'
      | Throw => TypeError
      | Diverge => OutOfFuel
      end).
  { intros Hnt.
    assert (HE : expand_inv C' rest).
    { constructor.
      - intros n Hn. apply (inv_wf _ _ _ _ _ HI). auto.
      - intros n Hn. subst C'. apply not_elem_of_union. split.
        + apply not_elem_of_singleton. intros Heq%keyOf_inj. apply Hnotin.
          rewrite <- Heq. apply list_elem_of_fmap. by exists n.
        + apply (inv_open _ _ _ _ _ HI). auto.
      - done. }
    destruct (expand_ok C' current moves Hcur rest HE)
      as [[-> Hnr]|(O' & -> & [Hwf' Hopen' Hnd'] & Hmono & Hnew)]; [done|].
    assert (Hpass : forall v b, covered O C v b -> covered O' C' v b).
    { intros v b Hc. apply Hmono. destruct Hc as [Hc|(m & Hm & Hp & Hg)].
      - left. subst C'. by apply elem_of_union_r.
      - rewrite Hperm in Hm. apply elem_of_cons in Hm as [->|Hm].
        + left. subst C' v. by apply elem_of_union_l, elem_of_singleton.
        + right. by exists m. }
    apply IH.
    - constructor; try done.
      + apply Hpass, (inv_start _ _ _ _ _ HI).
      + intros c k v Hc Hr Hadj Hv. subst C'.
        apply elem_of_union in Hc as [Hc|Hc].
        * apply elem_of_singleton, keyOf_inj in Hc. subst c.
          apply covered_weaken with (b := g current + 1).
          { pose proof (pop_optimal O C current k HI Hin Hmin Hr). lia. }
          apply adjacent_iff_shift in Hadj as [d ->].
          apply Hnew; [|done]. unfold moves.
          destruct d; rewrite !elem_of_cons; auto.
        * apply Hpass. by apply (inv_closed _ _ _ _ _ HI c k v).
      + subst C'. apply union_subseteq. split.
        * apply singleton_subseteq_l. by apply wf_universe.
        * apply (inv_universe _ _ _ _ _ HI).
      + subst C'. apply not_elem_of_union. split.
        * apply not_elem_of_singleton. intros Heq%keyOf_inj. congruence.
        * apply (inv_food _ _ _ _ _ HI).
    - assert (universeKeys board s ∖ C' ⊂ universeKeys board s ∖ C) as Hlt.
      { subst C'. pose proof (wf_universe current Hcur) as Hu. split.
        - intros x. rewrite !elem_of_difference, elem_of_union. tauto.
        - intros Hback.
          assert (keyOf (npos current)
                    ∈ universeKeys board s ∖ ({[keyOf (npos current)]} ∪ C))
            as Hx by (by apply Hback, elem_of_difference).
          apply elem_of_difference in Hx as [_ Hx].
          by apply Hx, elem_of_union_l, elem_of_singleton. }
      apply subset_size in Hlt. lia. }
  destruct ((nrow current =? row food) && (ncol current =? col food)) eqn:Hat.
  - apply at_food_test in Hat.
    destruct (atFood_spec current Hcur) as (l & Hl & Hw & Hg & Hans).
    assert (Hres : exists ans,
               atFood start current = Answer (rev (ancestors current)) ans).
    { destruct l; [by eexists | destruct Hans as (d & _ & ->); by eexists]. }
    destruct Hres as [ans Hres]. rewrite Hres. simpl.
    exists current. repeat split; try done.
    intros k Hr. apply (pop_optimal O C current k HI Hin Hmin).
    by rewrite Hat.
  - apply Hcont. intros Heq. apply at_food_test in Heq. congruence.
Qed.

Lemma search_inv_init : search_inv [startNode start food] ∅.
Proof.
  constructor.
  - intros n Hn. apply list_elem_of_singleton in Hn as ->. constructor.
  - intros n _. apply not_elem_of_empty.
  - apply NoDup_singleton.
  - right. exists (startNode start food).
    split; [by apply list_elem_of_singleton | done].
  - intros c k v Hc. by apply not_elem_of_empty in Hc.
  - apply empty_subseteq.
  - apply not_elem_of_empty.
Qed.

(** The search started by [findShortestWayToFood] never runs out of the
    fuel it is given, and ends as [search_post] says. *)
Lemma search_runs :
  search_post board start food
    (search board start food (searchFuel board) [startNode start food] ∅).
Proof.
  apply search_correct; [apply search_inv_init|].
  pose proof (size_universeKeys board s) as Hu. unfold searchFuel.
  rewrite difference_empty_L. lia.
Qed.

(** The ways a call on a non-empty snake can end, on any snapshot. *)
Lemma planner_outcomes (tl : list Coord) :
  (findShortestWayToFood board (start :: tl) food = Throw
   /\ ~ rectangular board)
  \/ (findShortestWayToFood board (start :: tl) food = Return None
      /\ foundPath board (start :: tl) food = None
      /\ forall l, ~ walk_on (valid board) s l t)
  \/ (findShortestWayToFood board (start :: tl) food = Return None
      /\ s = t
      /\ exists path, foundPath board (start :: tl) food = Some path
                      /\ map npos path = [s])
  \/ (exists d path rest,
        findShortestWayToFood board (start :: tl) food = Return (Some d)
        /\ foundPath board (start :: tl) food = Some path
        /\ map npos path = s :: shift s d :: rest
        /\ walk_on (valid board) s (shift s d :: rest) t
        /\ forall l', walk_on (valid board) s l' t ->
                      (length (shift s d :: rest) <= length l')%nat).
Proof.
  pose proof search_runs as Hpost.
  unfold findShortestWayToFood, foundPath.
  destruct (search board start food (searchFuel board) [startNode start food] ∅)
    as [| | |path ans]; simpl in Hpost; try done.
  - by left.
  - right; left. repeat split; try done. intros l Hw.
    by apply (Hpost (length l)), walk_reach.
  - right; right. destruct Hpost as (current & Hcur & Hat & Hopt & -> & Hans).
    destruct (atFood_spec current Hcur) as (l & Hl & Hw & Hg & Hspec).
    destruct l as [|v l].
    + left. rewrite Hspec in Hans. injection Hans as <-.
      simpl in Hw. repeat split; try done; [congruence|]. by eexists.
    + right. destruct Hspec as (d & -> & Hspec).
      rewrite Hspec in Hans. injection Hans as <-.
      exists d, (rev (ancestors current)), l.
      split; [done|]. split; [done|]. split; [done|]. split.
      * by rewrite <- Hat.
      * intros l' Hw'. apply walk_reach, Hopt in Hw'. lia.
Qed.

End AStar.

(** On a rectangular snapshot [isValid] accepts exactly the passable
    cells and nothing raises. *)
Lemma planner_cases (board : list (list Coord)) (start food : Coord)
    (tl : list Coord) :
  rectangular board ->
  (findShortestWayToFood board (start :: tl) food = Return None
   /\ foundPath board (start :: tl) food = None
   /\ forall l, ~ walk board (pos_of start) l (pos_of food))
  \/ (findShortestWayToFood board (start :: tl) food = Return None
      /\ pos_of start = pos_of food
      /\ exists path, foundPath board (start :: tl) food = Some path
                      /\ map npos path = [pos_of start])
  \/ (exists d path rest,
        findShortestWayToFood board (start :: tl) food = Return (Some d)
        /\ foundPath board (start :: tl) food = Some path
        /\ map npos path = pos_of start :: shift (pos_of start) d :: rest
        /\ shortest board (pos_of start) (shift (pos_of start) d :: rest)
                    (pos_of food)).
Proof.
  intros Hrect.
  assert (Heq : forall a l b,
             walk_on (valid board) a l b <-> walk board a l b)
    by (intros; apply walk_on_equiv; intros; by apply valid_iff_passable).
  destruct (planner_outcomes board start food tl)
    as [[_ Hnr]|[(Hr & Hp & Hno)|[Hat|(d & path & rest & Hr & Hp & Hc & Hw & Hmin)]]].
  - done.
  - left. repeat split; try done. intros l Hw. by apply (Hno l), Heq.
  - by right; left.
  - right; right. exists d, path, rest.
    split; [done|]. split; [done|]. split; [done|]. split.
    + by apply Heq.
    + intros l' Hw'. by apply Hmin, Heq.
Qed.

(** ** Correctness of the reference breadth-first search *)

Section ReferenceBFS.

Variable board : list (list Coord).
Hypothesis Hrect : rectangular board.
Variables origin target : Pos.

Local Abbreviation layer_spec := (layer_spec board origin).

Lemma neighbours_spec (u v : Pos) :
  v ∈ neighbours board u <-> adjacent u v /\ passable board v.
Proof.
  unfold neighbours. rewrite list_elem_of_In, filter_In, in_map_iff.
  rewrite adjacent_iff_shift. unfold passable. split.
  - intros [(d & <- & _) Hp]. split; [by exists d | done].
  - intros [(d & ->) Hp]. split; [|done]. exists d. split; [done|].
    unfold moves. destruct d; simpl; auto.
Qed.

Lemma bfsLayer_step (seen : gset Pos) (u v : Pos) :
  u ∈ seen -> adjacent u v -> passable board v -> v ∈ bfsLayer board seen.
Proof.
  intros Hu Huv Hv. unfold bfsLayer.
  apply elem_of_union_r, elem_of_list_to_set, list_elem_of_In, in_flat_map.
  exists u. split.
  - by apply list_elem_of_In, elem_of_elements.
  - by apply list_elem_of_In, neighbours_spec.
Qed.

Lemma bfsLayer_inv (seen : gset Pos) (v : Pos) :
  v ∈ bfsLayer board seen ->
  v ∈ seen \/ exists u, u ∈ seen /\ adjacent u v /\ passable board v.
Proof.
  unfold bfsLayer. rewrite elem_of_union, elem_of_list_to_set.
  intros [Hv|Hv]; [by left|]. right.
  apply list_elem_of_In, in_flat_map in Hv as (u & Hu & Hv).
  apply list_elem_of_In, elem_of_elements in Hu.
  apply list_elem_of_In, neighbours_spec in Hv. by exists u.
Qed.

Lemma bfsLayer_spec (dist : nat) (seen : gset Pos) :
  layer_spec dist seen -> layer_spec (S dist) (bfsLayer board seen).
Proof.
  intros Hs v. split.
  - intros [Hv|(u & Hu & Huv & Hv)]%bfsLayer_inv.
    + apply Hs in Hv as (j & Hj & Hr). exists j. split; [lia | done].
    + apply Hs in Hu as (j & Hj & Hr). exists (S j). split; [lia|].
      by eapply reach_step.
  - intros (j & Hj & Hr).
    destruct (decide (j <= dist)%nat) as [Hle|Hgt].
    + unfold bfsLayer. apply elem_of_union_l, Hs. by exists j.
    + assert (j = S dist) as -> by lia. inversion Hr as [|u v' k Hr' Huv Hv]; subst.
      eapply bfsLayer_step; [|done..]. apply Hs. by exists dist.
Qed.

Lemma reach_universe (v : Pos) (k : nat) :
  reach board origin v k -> v ∈ universe board origin.
Proof.
  destruct 1.
  - unfold universe. by apply elem_of_union_l, elem_of_singleton.
  - by apply passable_universe.
Qed.

Lemma bfsFrom_correct (fuel : nat) :
  forall (dist : nat) (seen : gset Pos),
    layer_spec dist seen ->
    (forall j, (j < dist)%nat -> ~ reach board origin target j) ->
    (size (universe board origin ∖ seen) <= fuel)%nat ->
    match bfsFrom board target fuel dist seen with
    | Some k => reach board origin target k
                /\ forall k', reach board origin target k' -> (k <= k')%nat
    | None => forall k, ~ reach board origin target k
    end.
Proof.
  induction fuel as [|fuel IH]; intros dist seen Hs Hfar Hfuel; simpl.
  - case_bool_decide as Hin.
    + apply Hs in Hin as (j & Hj & Hr).
      assert (j = dist) as -> by (destruct (decide (j < dist)%nat) as [Hlt|];
                                  [by destruct (Hfar j Hlt) | lia]).
      split; [done|]. intros k' Hr'.
      destruct (decide (k' < dist)%nat) as [Hlt|]; [by destruct (Hfar k' Hlt)|lia].
    + intros k Hr. apply Hin.
      assert (universe board origin ∖ seen = ∅) as Hempty
        by (apply leibniz_equiv, size_empty_inv; lia).
      pose proof (reach_universe _ _ Hr) as Hu.
      assert (target ∈ universe board origin ∖ seen) as Hd
        by (by apply elem_of_difference).
      rewrite Hempty in Hd. by apply not_elem_of_empty in Hd.
  - case_bool_decide as Hin.
    + apply Hs in Hin as (j & Hj & Hr).
      assert (j = dist) as -> by (destruct (decide (j < dist)%nat) as [Hlt|];
                                  [by destruct (Hfar j Hlt) | lia]).
      split; [done|]. intros k' Hr'.
      destruct (decide (k' < dist)%nat) as [Hlt|]; [by destruct (Hfar k' Hlt)|lia].
    + case_bool_decide as Hfix.
      * intros k Hr. apply Hin.
        assert (forall v j, reach board origin v j -> v ∈ seen) as Hclosed.
        { intros v j Hv. induction Hv as [|u v j Hu IHu Huv Hv].
          - apply Hs. exists 0%nat. split; [lia | constructor].
          - rewrite <- Hfix. by eapply bfsLayer_step. }
        by eapply Hclosed.
      * apply IH.
        -- by apply bfsLayer_spec.
        -- intros j Hj Hr. destruct (decide (j < dist)%nat) as [Hlt|Hge].
           ++ by apply (Hfar j).
           ++ apply Hin, Hs. exists j. split; [lia | done].
        -- assert (seen ⊆ bfsLayer board seen) as Hsub
             by (unfold bfsLayer; apply union_subseteq_l).
           assert (bfsLayer board seen ⊆ universe board origin) as Huni.
           { intros v Hv. apply (bfsLayer_spec _ _ Hs) in Hv as (j & _ & Hr).
             by eapply reach_universe. }
           assert (universe board origin ∖ bfsLayer board seen
                   ⊂ universe board origin ∖ seen) as Hlt.
           { assert (exists v, v ∈ bfsLayer board seen /\ v ∉ seen)
               as (v & Hv & Hnv).
             { apply not_eq_sym in Hfix.
               destruct (set_choose_L (bfsLayer board seen ∖ seen)) as [v Hv].
               - intros Hempty. apply Hfix. apply set_eq. intros x.
                 split; [apply Hsub|]. intros Hx.
                 destruct (decide (x ∈ seen)) as [|Hnx]; [done|]. exfalso.
                 assert (x ∈ bfsLayer board seen ∖ seen) as Hd
                   by (by apply elem_of_difference).
                 rewrite Hempty in Hd. by apply not_elem_of_empty in Hd.
               - apply elem_of_difference in Hv. by exists v. }
             pose proof (Huni v Hv) as Hu. split.
             - intros x [Hx Hnx]%elem_of_difference.
               apply elem_of_difference. split; [done|]. auto.
             - intros Hback.
               assert (v ∈ universe board origin ∖ bfsLayer board seen) as Hd
                 by (by apply Hback, elem_of_difference).
               by apply elem_of_difference in Hd as [_ Hd]. }
           apply subset_size in Hlt. lia.
Qed.

(** The reference search returns the least number of steps in which the
    target is reached, and nothing when it is not reached at all. *)
Lemma bfsDistance_correct :
  match bfsDistance board origin target with
  | Some k => reach board origin target k
              /\ forall k', reach board origin target k' -> (k <= k')%nat
  | None => forall k, ~ reach board origin target k
  end.
Proof.
  apply bfsFrom_correct.
  - intros v. rewrite elem_of_singleton. split.
    + intros ->. exists 0%nat. split; [lia | constructor].
    + intros (j & Hj & Hr). assert (j = 0%nat) as -> by lia.
      by inversion Hr.
  - intros j Hj. lia.
  - pose proof (size_list_to_set_le (allCells (rows board) (cols board))) as H.
    rewrite length_allCells in H.
    assert (size (universe board origin ∖ {[origin]})
            <= size (list_to_set (allCells (rows board) (cols board)) : gset Pos))%nat.
    { apply subseteq_size. unfold universe. intros x.
      rewrite elem_of_difference, elem_of_union. tauto. }
    lia.
Qed.

Lemma bfsDistance_shortest (l : list Pos) :
  shortest board origin l target ->
  bfsDistance board origin target = Some (length l).
Proof.
  intros [Hw Hmin]. pose proof bfsDistance_correct as Hb.
  destruct (bfsDistance board origin target) as [k|].
  - destruct Hb as [Hr Hk]. f_equal.
    apply reach_walk in Hr as (l' & Hw' & <-).
    pose proof (Hmin l' Hw'). pose proof (Hk _ (walk_reach _ _ _ _ Hw)). lia.
  - by destruct (Hb _ (walk_reach _ _ _ _ Hw)).
Qed.

End ReferenceBFS.

(** ** Claims about the planner *)

Lemma makeBoard_rectangular (R C : nat) (tag : Z -> Z -> CellType) :
  rectangular (makeBoard R C tag).
Proof.
  intros line Hin. unfold makeBoard in *.
  apply list_elem_of_fmap in Hin as (i & -> & Hi).
  rewrite length_map, length_seq. unfold cols.
  destruct R as [|R]; [by apply elem_of_nil in Hi|].
  simpl. by rewrite length_map, length_seq.
Qed.

(** The snapshot the AI page builds is rectangular, so the planner never
    raises on it. *)
Lemma getPathfindingBoard_rectangular (I J : nat) (snake : list Coord)
    (food : option Coord) :
  rectangular (AiSnake.getPathfindingBoard I J snake food).
Proof.
  intros line Hin. unfold AiSnake.getPathfindingBoard in *.
  apply list_elem_of_fmap in Hin as (i & -> & Hi).
  rewrite length_map, length_seqZ. unfold cols.
  destruct I as [|I]; [by apply elem_of_nil in Hi|].
  rewrite Nat2Z.inj_succ.
  rewrite (seqZ_cons 0 (Z.succ (Z.of_nat I))) by lia. simpl.
  by rewrite length_map, length_seqZ.
Qed.

Lemma getPathfindingBoard_cell (I J : nat) (snake : list Coord)
    (food : option Coord) (p : Pos) :
  on_board I J p ->
  cell_at (AiSnake.getPathfindingBoard I J snake food) p
  = Some (mkCoord p.1 p.2 (AiSnake.cellType snake food p.1 p.2)).
Proof.
  destruct p as [i j]. intros [[Hi0 Hi1] [Hj0 Hj1]]. simpl in *.
  unfold cell_at, AiSnake.getPathfindingBoard. simpl.
  rewrite (proj2 (Z.ltb_ge i 0) Hi0), (proj2 (Z.ltb_ge j 0) Hj0). simpl.
  rewrite list_lookup_fmap, lookup_seqZ_lt by lia. simpl.
  rewrite list_lookup_fmap, lookup_seqZ_lt by lia. simpl.
  do 3 f_equal; lia.
Qed.

Example scenario_snapshot :
  AiSnake.getPathfindingBoard 5 5 [mkCoord 2 2 SNAKE] (Some (mkCoord 2 4 FOOD))
  = makeBoard 5 5 tag55.
Proof. reflexivity. Qed.

(** C1.  On a rectangular snapshot, for a non-empty snake and a food
    cell joined to the head by a passable 4-connected path of at least
    one step, [findShortestWayToFood] returns a heading; the cell next to
    the head in that heading is the first step of a passable walk to the
    food that no other walk undercuts; that walk is the path the search
    rebuilt, and its number of steps is the distance the reference
    breadth-first search finds. *)
Theorem first_step_on_shortest_path
    (board : list (list Coord)) (head : Coord) (tl : list Coord)
    (food : Coord) (l : list Pos) :
  rectangular board ->
  simple_path board (pos_of head) l (pos_of food) ->
  (1 <= length l)%nat ->
  exists d path rest,
    findShortestWayToFood board (head :: tl) food = Return (Some d)
    /\ foundPath board (head :: tl) food = Some path
    /\ map npos path = pos_of head :: shift (pos_of head) d :: rest
    /\ shortest board (pos_of head) (shift (pos_of head) d :: rest)
                (pos_of food)
    /\ bfsDistance board (pos_of head) (pos_of food)
       = Some (length path - 1)%nat.
Proof.
  intros Hrect Hpath Hlen.
  destruct (planner_cases board head food tl Hrect)
    as [(_ & _ & Hno)|[(_ & Heq & _)|(d & path & rest & Hd & Hp & Hcells & Hs)]].
  - destruct Hpath as [Hw _]. by destruct (Hno l).
  - by destruct (simple_path_distinct_ends board _ _ _ Hpath Hlen).
  - exists d, path, rest. repeat split; try done; try apply Hs.
    rewrite (bfsDistance_shortest board Hrect _ _ _ Hs). f_equal.
    apply (f_equal length) in Hcells. rewrite length_map in Hcells.
    simpl in Hcells |- *. lia.
Qed.

Lemma first_step_on_shortest_path_witness :
  exists d path rest,
    findShortestWayToFood (makeBoard 5 5 tag55) [mkCoord 2 2 SNAKE]
                          (mkCoord 2 4 FOOD) = Return (Some d)
    /\ foundPath (makeBoard 5 5 tag55) [mkCoord 2 2 SNAKE] (mkCoord 2 4 FOOD)
       = Some path
    /\ map npos path = (2, 2) :: shift (2, 2) d :: rest
    /\ shortest (makeBoard 5 5 tag55) (2, 2) (shift (2, 2) d :: rest) (2, 4)
    /\ bfsDistance (makeBoard 5 5 tag55) (2, 2) (2, 4)
       = Some (length path - 1)%nat.
Proof.
  apply (first_step_on_shortest_path (makeBoard 5 5 tag55)
           (mkCoord 2 2 SNAKE) [] (mkCoord 2 4 FOOD) [(2, 3); (2, 4)]).
  - apply makeBoard_rectangular.
  - split.
    + simpl. unfold adjacent, passable. simpl.
      repeat split; try lia; reflexivity.
    + apply (bool_decide_unpack _). vm_compute. exact I.
  - simpl. lia.
Defined.

(** C6.  On a rectangular snapshot and for a non-empty snake,
    [findShortestWayToFood] returns [null] exactly when the head is at
    the food or no passable 4-connected walk leads from the head to the
    food.  In the first case the food is reached at once and the path
    rebuilt has a single node; in the second the open set runs empty and
    no path is rebuilt.  The call always returns, with [null] or with a
    heading. *)
Theorem null_iff_at_food_or_unreachable
    (board : list (list Coord)) (head : Coord) (tl : list Coord)
    (food : Coord) :
  rectangular board ->
  (findShortestWayToFood board (head :: tl) food = Return None
   <-> pos_of head = pos_of food
       \/ forall l, ~ walk board (pos_of head) l (pos_of food))
  /\ (pos_of head = pos_of food ->
      exists path, foundPath board (head :: tl) food = Some path
                   /\ length path = 1%nat)
  /\ ((forall l, ~ walk board (pos_of head) l (pos_of food)) ->
      foundPath board (head :: tl) food = None)
  /\ exists answer, findShortestWayToFood board (head :: tl) food = Return answer.
Proof.
  intros Hrect.
  destruct (planner_cases board head food tl Hrect)
    as [(Hr & Hp & Hno)|[(Hr & Heq & path & Hp & Hcells)
                        |(d & path & rest & Hd & _ & _ & Hw & Hmin)]].
  - split; [split; [by right | done]|].
    split; [intros Heq; by destruct (Hno [])|].
    split; [done | by eexists].
  - split; [split; [by left | done]|].
    split; [|split; [intros Hno; by destruct (Hno [])| by eexists]].
    intros _. exists path. split; [done|].
    apply (f_equal length) in Hcells. by rewrite length_map in Hcells.
  - assert (pos_of head <> pos_of food) as Hne.
    { intros Heq.
      assert (walk board (pos_of head) [] (pos_of food)) as Hw0 by done.
      apply Hmin in Hw0. simpl in Hw0. lia. }
    split; [|split; [done|split; [|by eexists]]].
    + rewrite Hd. split; [done|]. intros [Heq|Hno]; [done|].
      by destruct (Hno _ Hw).
    + intros Hno. by destruct (Hno _ Hw).
Qed.

Example walled_in_food :
  findShortestWayToFood (makeBoard 5 5 tagWalled) [mkCoord 2 2 SNAKE]
                        (mkCoord 0 0 FOOD) = Return None.
Proof. vm_compute. reflexivity. Qed.

Lemma null_iff_at_food_or_unreachable_witness :
  (findShortestWayToFood (makeBoard 5 5 tagWalled)
     [mkCoord 2 2 SNAKE] (mkCoord 0 0 FOOD) = Return None
   <-> pos_of (mkCoord 2 2 SNAKE) = pos_of (mkCoord 0 0 FOOD)
       \/ forall l, ~ walk (makeBoard 5 5 tagWalled) (pos_of (mkCoord 2 2 SNAKE))
                      l (pos_of (mkCoord 0 0 FOOD)))
  /\ (pos_of (mkCoord 2 2 SNAKE) = pos_of (mkCoord 0 0 FOOD) ->
      exists path,
        foundPath (makeBoard 5 5 tagWalled) [mkCoord 2 2 SNAKE]
                  (mkCoord 0 0 FOOD) = Some path
        /\ length path = 1%nat)
  /\ ((forall l, ~ walk (makeBoard 5 5 tagWalled) (pos_of (mkCoord 2 2 SNAKE))
                    l (pos_of (mkCoord 0 0 FOOD))) ->
      foundPath (makeBoard 5 5 tagWalled) [mkCoord 2 2 SNAKE]
                (mkCoord 0 0 FOOD) = None)
  /\ exists answer,
      findShortestWayToFood (makeBoard 5 5 tagWalled)
        [mkCoord 2 2 SNAKE] (mkCoord 0 0 FOOD)
      = Return answer.
Proof.
  apply null_iff_at_food_or_unreachable, makeBoard_rectangular.
Defined.

(** C10.  On any snapshot, whenever [findShortestWayToFood] returns a
    heading, the cell next to the head in that heading is on the board
    and tagged EMPTY or FOOD; nothing is asked of the head's own cell. *)
Theorem answer_is_safe
    (board : list (list Coord)) (head : Coord) (tl : list Coord)
    (food : Coord) (d : Direction) :
  findShortestWayToFood board (head :: tl) food = Return (Some d) ->
  on_board (rows board) (cols board) (shift (pos_of head) d)
  /\ exists cell, cell_at board (shift (pos_of head) d) = Some cell
                  /\ (type cell = EMPTY \/ type cell = FOOD).
Proof.
  intros Hret.
  destruct (planner_outcomes board head food tl)
    as [[Hr _]|[(Hr & _)|[(Hr & _)|(d' & path & rest & Hd & _ & _ & Hw & _)]]];
    [congruence..|].
  assert (d' = d) as -> by congruence.
  destruct Hw as (_ & Hv & _).
  split; [by apply valid_on_board|].
  apply valid_passable in Hv. unfold passable, passableb in Hv.
  destruct (cell_at board (shift (pos_of head) d)) as [cell|]; [|done].
  exists cell. split; [done|].
  apply orb_true_iff in Hv as [Hv|Hv]; apply bool_decide_eq_true in Hv; auto.
Qed.

(** The head stands on a cell tagged SNAKE, and the answer is safe. *)
Lemma answer_is_safe_witness :
  cell_at (makeBoard 5 5 tag55) (2, 2) = Some (mkCoord 2 2 SNAKE)
  /\ on_board 5 5 (2, 3)
  /\ exists cell, cell_at (makeBoard 5 5 tag55) (2, 3) = Some cell
                  /\ (type cell = EMPTY \/ type cell = FOOD).
Proof.
  split; [reflexivity|].
  apply (answer_is_safe (makeBoard 5 5 tag55) (mkCoord 2 2 SNAKE) []
           (mkCoord 2 4 FOOD) RIGHT).
  vm_compute. reflexivity.
Defined.

(** The loop of the model always ends within its fuel: a call returns or
    raises, and it raises only on a snapshot with a short row. *)
Lemma planner_total (board : list (list Coord)) (snake : list Coord)
    (food : Coord) :
  (exists answer, findShortestWayToFood board snake food = Return answer)
  \/ (findShortestWayToFood board snake food = Throw /\ ~ rectangular board).
Proof.
  destruct snake as [|head tl]; [left; by eexists|].
  destruct (planner_outcomes board head food tl)
    as [Hr|[(Hr & _)|[(Hr & _)|(d & path & rest & Hr & _)]]];
    [by right | left; by eexists..].
Qed.

(** A snapshot whose second row is short: looking at its missing cell
    raises. *)
Example ragged_board_raises :
  findShortestWayToFood
    [[mkCoord 0 0 SNAKE; mkCoord 0 1 EMPTY]; [mkCoord 1 0 EMPTY]]
    [mkCoord 0 0 SNAKE] (mkCoord 1 1 FOOD) = Throw.
Proof. vm_compute. reflexivity. Qed.

(** ** Food placement *)



Lemma randomIndex_range (u : Q) (n : nat) :
  (0 <= u)%Q -> (u < 1)%Q -> (0 < n)%nat ->
  0 <= randomIndex u n < Z.of_nat n.
Proof.
  intros H0 H1 Hn. unfold randomIndex.
  assert (0 < inject_Z (Z.of_nat n))%Q as Hpos
    by (rewrite <- (Zlt_Qlt 0); lia).
  split.
  - rewrite <- (Qfloor_Z 0). apply Qfloor_resp_le.
    apply Qmult_le_0_compat; [done|]. by apply Qlt_le_weak.
  - assert (u * inject_Z (Z.of_nat n) < inject_Z (Z.of_nat n))%Q as Hlt.
    { rewrite <- (Qmult_1_l (inject_Z (Z.of_nat n))) at 2.
      by apply Qmult_lt_r. }
    pose proof (Qfloor_le (u * inject_Z (Z.of_nat n))) as Hf.
    assert (inject_Z (Qfloor (u * inject_Z (Z.of_nat n)))
            < inject_Z (Z.of_nat n))%Q as Hlt'
      by (eapply Qle_lt_trans; eauto).
    by rewrite <- Zlt_Qlt in Hlt'.
Qed.

(** The cell the index selects, as both [placeFood] read it. *)
Lemma drawn_cell (u : Q) (cells : list Pos) :
  (0 <= u)%Q -> (u < 1)%Q -> cells <> [] ->
  exists (i : nat) (p : Pos),
    randomIndex u (length cells) = Z.of_nat i
    /\ cells !! i = Some p
    /\ (if randomIndex u (length cells) <? 0 then None
        else cells !! Z.to_nat (randomIndex u (length cells))) = Some p.
Proof.
  intros H0 H1 Hne.
  assert (0 < length cells)%nat as Hn by (destruct cells; [done | simpl; lia]).
  pose proof (randomIndex_range u (length cells) H0 H1 Hn) as [Hlo Hhi].
  destruct (lookup_lt_is_Some_2 cells (Z.to_nat (randomIndex u (length cells))))
    as [p Hp]; [lia|].
  exists (Z.to_nat (randomIndex u (length cells))), p.
  split; [lia|]. split; [done|].
  by rewrite (proj2 (Z.ltb_ge _ _) Hlo).
Qed.

Lemma freeCells_spec (R C : nat) (occupied : Z -> Z -> bool) (p : Pos) :
  p ∈ freeCells R C occupied <-> on_board R C p /\ occupied p.1 p.2 = false.
Proof.
  unfold freeCells, on_board. rewrite list_elem_of_bind. split.
  - intros (i & Hp & Hi). apply list_elem_of_bind in Hp as (j & Hp & Hj).
    apply elem_of_seqZ in Hi, Hj.
    destruct (occupied i j) eqn:Hocc; [by apply elem_of_nil in Hp|].
    apply list_elem_of_singleton in Hp as ->. simpl. split; [lia | done].
  - destruct p as [i j]; simpl. intros [[Hi Hj] Hocc]. exists i. split.
    + apply list_elem_of_bind. exists j. rewrite Hocc. split.
      * by apply list_elem_of_singleton.
      * apply elem_of_seqZ. lia.
    + apply elem_of_seqZ. lia.
Qed.


Lemma freeCells_nil (R C : nat) (occupied : Z -> Z -> bool) :
  freeCells R C occupied = [] <->
  forall p, on_board R C p -> occupied p.1 p.2 = true.
Proof.
  split.
  - intros Hnil p Hp. apply not_false_iff_true. intros Hocc.
    assert (p ∈ freeCells R C occupied) as Hin by (by apply freeCells_spec).
    rewrite Hnil in Hin. by apply elem_of_nil in Hin.
  - intros Hall. apply elem_of_nil_inv. intros p Hin.
    apply freeCells_spec in Hin as [Hp Hocc]. rewrite (Hall p Hp) in Hocc.
    discriminate.
Qed.


Lemma makeBoard_well_sized (R C : nat) (tag : Z -> Z -> CellType) :
  well_sized R C (makeBoard R C tag).
Proof.
  unfold makeBoard. split.
  - by rewrite length_map, length_seq.
  - intros line Hin. apply list_elem_of_fmap in Hin as (i & -> & _).
    by rewrite length_map, length_seq.
Qed.

Lemma occupied_one (s : list Coord) (p : Pos) :
  existsb (at_pos p.1 p.2) s = false <-> p ∉ map pos_of s.
Proof.
  destruct p as [r c]. simpl. rewrite <- existsb_at_pos.
  by destruct (existsb (at_pos r c) s).
Qed.




Example placeFood_half :
  SnakeGame.placeFood 5 5 (1 # 2)
    (SnakeGame.mkState (makeBoard 5 5 (fun _ _ => EMPTY))
                       [mkCoord 2 2 SNAKE] None RIGHT [])
  = (SnakeGame.mkState
       (makeBoard 5 5 (fun r c => if (r =? 2) && (c =? 3) then FOOD else EMPTY))
       [mkCoord 2 2 SNAKE] (Some (mkCoord 2 3 FOOD)) RIGHT [], Return tt).
Proof. vm_compute. reflexivity. Qed.

(** ** Assignments into a matrix *)

Lemma paint_assignAt (b : Board) (r c : Z) (t : CellType) :
  paint b r c t = assignAt (retype t) b r c.
Proof. reflexivity. Qed.

Lemma paintAll_assignAll (segments : list Coord) (t : CellType) (b : Board) :
  paintAll b segments t = assignAll (retype t) b (map pos_of segments).
Proof.
  revert b. induction segments as [|seg segments IH]; intros b; [done|].
  simpl. rewrite paint_assignAt.
  destruct (assignAt (retype t) b (row seg) (col seg)); [apply IH | done].
Qed.

Lemma cell_at_lookup2 (b : Board) (p : Pos) : cell_at b p = lookup2 b p.
Proof. reflexivity. Qed.

Section Assign.

Context {A : Type}.
Variable upd : A -> A.
Variables R C : nat.

Lemma lookup2_on_board (b : list (list A)) (p : Pos) :
  sized R C b -> on_board R C p -> is_Some (lookup2 b p).
Proof.
  intros [Hlen Hrows] [[Hr0 Hr1] [Hc0 Hc1]]. unfold lookup2.
  rewrite (proj2 (Z.ltb_ge p.1 0) Hr0), (proj2 (Z.ltb_ge p.2 0) Hc0).
  cbn [orb].
  destruct (lookup_lt_is_Some_2 b (Z.to_nat p.1)) as [line Hline]; [lia|].
  rewrite Hline. apply lookup_lt_is_Some_2.
  rewrite (Hrows line) by (by eapply list_elem_of_lookup_2). lia.
Qed.

Lemma lookup2_off_board (b : list (list A)) (p : Pos) :
  sized R C b -> ~ on_board R C p -> lookup2 b p = None.
Proof.
  intros [Hlen Hrows] Hoff. unfold lookup2, on_board in *.
  destruct (p.1 <? 0) eqn:Hr0; [done|]. destruct (p.2 <? 0) eqn:Hc0; [done|].
  apply Z.ltb_ge in Hr0, Hc0. cbn [orb].
  destruct (b !! Z.to_nat p.1) as [line|] eqn:Hline; [|done].
  apply lookup_ge_None.
  rewrite (Hrows line) by (by eapply list_elem_of_lookup_2).
  apply lookup_lt_Some in Hline. lia.
Qed.

(** Assigning to a cell of the board succeeds, keeps the size and changes
    that cell only. *)
Lemma assignAt_on_board (b : list (list A)) (r c : Z) :
  sized R C b -> on_board R C (r, c) ->
  exists b',
    assignAt upd b r c = Some b' /\ sized R C b'
    /\ forall p, lookup2 b' p
                 = if bool_decide (p = (r, c)) then upd <$> lookup2 b p
                   else lookup2 b p.
Proof.
  intros Hsize Hon. pose proof Hsize as [Hlen Hrows].
  pose proof Hon as [[Hr0 Hr1] [Hc0 Hc1]]. simpl in *.
  unfold assignAt.
  rewrite (proj2 (Z.ltb_ge r 0) Hr0), (proj2 (Z.ltb_ge c 0) Hc0).
  cbn [orb].
  destruct (lookup_lt_is_Some_2 b (Z.to_nat r)) as [line Hline]; [lia|].
  rewrite Hline.
  pose proof (Hrows line (list_elem_of_lookup_2 _ _ _ Hline)) as Hl.
  destruct (lookup_lt_is_Some_2 line (Z.to_nat c)) as [cell Hcell]; [lia|].
  rewrite Hcell. eexists. split; [done|]. split.
  - split; [by rewrite length_insert|].
    intros line' Hin. apply list_elem_of_lookup in Hin as [j Hj].
    apply list_lookup_insert_Some in Hj as [(_ & <- & _)|(_ & Hj)].
    + by rewrite length_insert.
    + apply Hrows. by eapply list_elem_of_lookup_2.
  - intros [i j]. unfold lookup2. simpl.
    destruct ((i <? 0) || (j <? 0)) eqn:Hneg.
    { case_bool_decide as Heq; [|done]. injection Heq as -> ->.
      apply orb_true_iff in Hneg as [?%Z.ltb_lt|?%Z.ltb_lt]; lia. }
    apply orb_false_iff in Hneg as [Hi%Z.ltb_ge Hj%Z.ltb_ge].
    destruct (decide (Z.to_nat i = Z.to_nat r)) as [Heqr|Hner].
    + rewrite Heqr, list_lookup_insert_eq by (apply lookup_lt_Some in Hline; lia).
      rewrite Hline.
      destruct (decide (Z.to_nat j = Z.to_nat c)) as [Heqc|Hnec].
      * rewrite Heqc, list_lookup_insert_eq by lia.
        rewrite bool_decide_eq_true_2 by (f_equal; lia).
        by rewrite Hcell.
      * rewrite list_lookup_insert_ne by done.
        rewrite bool_decide_eq_false_2; [done|]. intros [= -> ->]. done.
    + rewrite list_lookup_insert_ne by done.
      rewrite bool_decide_eq_false_2; [done|]. intros [= -> ->]. done.
Qed.

Hypothesis upd_idem : forall x, upd (upd x) = upd x.

Lemma assignAll_on_board (cells : list Pos) :
  forall b : list (list A),
    sized R C b -> Forall (on_board R C) cells ->
    exists b',
      assignAll upd b cells = Some b' /\ sized R C b'
      /\ forall p, lookup2 b' p
                   = if bool_decide (p ∈ cells) then upd <$> lookup2 b p
                     else lookup2 b p.
Proof.
  induction cells as [|q cells IH]; intros b Hsize Hall.
  - exists b. split; [done|]. split; [done|]. intros p.
    rewrite bool_decide_eq_false_2; [done | apply not_elem_of_nil].
  - apply Forall_cons in Hall as [Hq Hall]. destruct q as [r c].
    destruct (assignAt_on_board b r c Hsize Hq) as (b1 & Hb1 & Hsize1 & Hlook1).
    destruct (IH b1 Hsize1 Hall) as (b' & Hb' & Hsize' & Hlook').
    exists b'. simpl. rewrite Hb1. split; [done|]. split; [done|].
    intros p. rewrite Hlook', Hlook1.
    destruct (decide (p = (r, c))) as [->|Hne].
    + rewrite (bool_decide_eq_true_2 ((r, c) ∈ (r, c) :: cells))
        by apply list_elem_of_here.
      rewrite (bool_decide_eq_true_2 ((r, c) = (r, c))) by done.
      case_bool_decide; [|done].
      destruct (lookup2 b (r, c)); simpl; [|done]. by rewrite upd_idem.
    + rewrite (bool_decide_eq_false_2 (p = (r, c))) by done.
      case_bool_decide as Hin; case_bool_decide as Hin'; try done.
      * exfalso. apply Hin'. by apply list_elem_of_further.
      * exfalso. apply elem_of_cons in Hin' as [?|?]; [by apply Hne | by apply Hin].
Qed.

End Assign.

(** ** More about the planner *)

Lemma walk_on_all (ok : Pos -> Prop) (a : Pos) (l : list Pos) (b : Pos) :
  walk_on ok a l b -> Forall ok l.
Proof.
  revert a. induction l as [|c l IH]; intros a; [by constructor|].
  intros (_ & Hc & Hw). constructor; [done | by eapply IH].
Qed.

(** X1.  [coordKey] gives two cells the same key only when they are the
    same cell, negative indices included: the closed set never takes one
    cell for another. *)
Theorem coordKey_identifies_cell (r c r' c' : Z) :
  coordKey r c = coordKey r' c' <-> r = r' /\ c = c'.
Proof.
  split.
  - intros H. apply coordKey_inj in H. by injection H.
  - by intros [-> ->].
Qed.

(** X2.  The heuristic is admissible: along any walk that ends at the
    food, whatever cells it may use, it is at most the number of steps
    left. *)
Theorem heuristic_never_overestimates
    (ok : Pos -> Prop) (food : Coord) (a : Pos) (l : list Pos) :
  walk_on ok a l (pos_of food) ->
  0 <= heuristic food a.1 a.2 <= Z.of_nat (length l).
Proof.
  revert a. induction l as [|c l IH]; intros a.
  - simpl. intros ->. unfold heuristic, pos_of. simpl. lia.
  - intros (Hac & _ & Hw). specialize (IH c Hw).
    unfold adjacent in Hac. unfold heuristic in *. simpl length. lia.
Qed.

Lemma heuristic_never_overestimates_witness :
  0 <= heuristic (mkCoord 2 4 FOOD) 2 2 <= 2.
Proof.
  apply (heuristic_never_overestimates (fun _ => True) (mkCoord 2 4 FOOD)
           (2, 2) [(2, 3); (2, 4)]).
  simpl. unfold adjacent. simpl. repeat split; lia.
Defined.

(** X3.  [isValid] on a rectangular snapshot never raises; it answers
    [true] exactly for the positions inside the matrix whose cell is
    tagged EMPTY or FOOD, and [false] for every position outside. *)
Theorem isValid_on_rectangular (board : list (list Coord)) (r c : Z) :
  rectangular board ->
  exists b,
    isValid board r c = Return b
    /\ (b = true <->
        on_board (rows board) (cols board) (r, c)
        /\ exists cell, cell_at board (r, c) = Some cell
                        /\ (type cell = EMPTY \/ type cell = FOOD)).
Proof.
  intros Hrect. exists (passableb board (r, c)).
  split; [by apply isValid_rectangular|]. split.
  - intros Hp. split; [by apply passable_on_board|].
    unfold passableb in Hp.
    destruct (cell_at board (r, c)) as [cell|]; [|done].
    exists cell. split; [done|].
    apply orb_true_iff in Hp as [Hp|Hp]; apply bool_decide_eq_true in Hp; auto.
  - intros (_ & cell & Hcell & Ht). unfold passableb. rewrite Hcell.
    apply orb_true_iff.
    destruct Ht as [Ht|Ht]; [left | right]; by apply bool_decide_eq_true.
Qed.

Lemma isValid_on_rectangular_witness :
  exists b,
    isValid (makeBoard 5 5 tag55) 2 5 = Return b
    /\ (b = true <->
        on_board (rows (makeBoard 5 5 tag55)) (cols (makeBoard 5 5 tag55)) (2, 5)
        /\ exists cell, cell_at (makeBoard 5 5 tag55) (2, 5) = Some cell
                        /\ (type cell = EMPTY \/ type cell = FOOD)).
Proof.
  apply (isValid_on_rectangular (makeBoard 5 5 tag55) 2 5).
  apply makeBoard_rectangular.
Defined.

(** X4.  When the snapshot holds no passable cell at the food's position
    (the food lies off the board, on a cell tagged as a snake, or the
    board is empty), the planner returns [null], for every snake. *)
Theorem blocked_food_gives_null
    (board : list (list Coord)) (snake : list Coord) (food : Coord) :
  rectangular board ->
  ~ passable board (pos_of food) ->
  findShortestWayToFood board snake food = Return None.
Proof.
  intros Hrect Hblocked. destruct snake as [|head tl]; [done|].
  destruct (planner_cases board head food tl Hrect)
    as [(Hr & _)|[(Hr & _)|(d & path & rest & _ & _ & _ & Hw & _)]];
    [done..|].
  destruct Hblocked.
  pose proof (walk_on_all _ _ _ _ Hw) as Hall.
  rewrite Forall_forall in Hall. apply Hall.
  by eapply walk_last.
Qed.

(** The food lies on a cell tagged SNAKE, next to the head. *)
Lemma blocked_food_gives_null_witness :
  findShortestWayToFood (makeBoard 5 5 tagWalled) [mkCoord 1 1 SNAKE]
    (mkCoord 0 1 FOOD) = Return None.
Proof.
  apply (blocked_food_gives_null (makeBoard 5 5 tagWalled)).
  - apply makeBoard_rectangular.
  - vm_compute. discriminate.
Defined.

(** X5.  On a rectangular snapshot the heading returned leads to a cell
    that is exactly one step nearer to the food than the head, by the
    distance of the reference breadth-first search. *)
Theorem heading_gets_closer
    (board : list (list Coord)) (head : Coord) (tl : list Coord)
    (food : Coord) (d : Direction) :
  rectangular board ->
  findShortestWayToFood board (head :: tl) food = Return (Some d) ->
  exists n : nat,
    bfsDistance board (pos_of head) (pos_of food) = Some (S n)
    /\ bfsDistance board (shift (pos_of head) d) (pos_of food) = Some n.
Proof.
  intros Hrect Hret.
  destruct (planner_cases board head food tl Hrect)
    as [(Hr & _)|[(Hr & _)|(d' & path & rest & Hd & _ & _ & Hw & Hmin)]];
    [congruence..|].
  assert (d' = d) as -> by congruence.
  exists (length rest). split.
  - by apply (bfsDistance_shortest board Hrect (pos_of head) (pos_of food)
                (shift (pos_of head) d :: rest)).
  - apply (bfsDistance_shortest board Hrect). destruct Hw as (Hadj & Hok & Hw).
    split; [done|]. intros l' Hw'.
    assert (walk board (pos_of head) (shift (pos_of head) d :: l') (pos_of food))
      as Hlong by done.
    apply Hmin in Hlong. simpl in Hlong. lia.
Qed.

Lemma heading_gets_closer_witness :
  exists n : nat,
    bfsDistance (makeBoard 5 5 tag55) (2, 2) (2, 4) = Some (S n)
    /\ bfsDistance (makeBoard 5 5 tag55) (shift (2, 2) RIGHT) (2, 4) = Some n.
Proof.
  apply (heading_gets_closer (makeBoard 5 5 tag55) (mkCoord 2 2 SNAKE) []
           (mkCoord 2 4 FOOD) RIGHT).
  - apply makeBoard_rectangular.
  - vm_compute. reflexivity.
Defined.

(** ** Matrices built cell by cell *)

Lemma grid_sized {A : Type} (I J : nat) (fn : Z -> Z -> A) :
  sized I J (map (fun i => map (fun j => fn i j) (seqZ 0 (Z.of_nat J)))
                 (seqZ 0 (Z.of_nat I))).
Proof.
  split.
  - rewrite length_map, length_seqZ. lia.
  - intros line Hin. apply list_elem_of_fmap in Hin as (i & -> & _).
    rewrite length_map, length_seqZ. lia.
Qed.

Lemma grid_lookup {A : Type} (I J : nat) (fn : Z -> Z -> A) (p : Pos) :
  on_board I J p ->
  lookup2 (map (fun i => map (fun j => fn i j) (seqZ 0 (Z.of_nat J)))
               (seqZ 0 (Z.of_nat I))) p
  = Some (fn p.1 p.2).
Proof.
  destruct p as [i j]. intros [[Hi0 Hi1] [Hj0 Hj1]]. simpl in *.
  unfold lookup2. simpl.
  rewrite (proj2 (Z.ltb_ge i 0) Hi0), (proj2 (Z.ltb_ge j 0) Hj0). simpl.
  rewrite list_lookup_fmap, lookup_seqZ_lt by lia. simpl.
  rewrite list_lookup_fmap, lookup_seqZ_lt by lia. simpl.
  do 2 f_equal; lia.
Qed.

Lemma is_food_food_at (fd : option Coord) (p : Pos) :
  is_food fd p = true <-> food_at fd p.
Proof.
  unfold is_food, food_at, pos_of. destruct fd as [fc|].
  - rewrite andb_true_iff, !Z.eqb_eq. destruct p as [i j]. simpl. split.
    + intros [<- <-]. by exists fc.
    + by intros (fc' & [= <-] & [= -> ->]).
  - split; [done | by intros (fc' & [=] & _)].
Qed.

Lemma covers_elem_of (body : list Coord) (p : Pos) :
  covers body p = true <-> p ∈ map pos_of body.
Proof. unfold covers. rewrite existsb_at_pos. by destruct p. Qed.

(** A snapshot is passable where the cell kind it computes is EMPTY or
    FOOD, on the board, and nowhere else. *)
Lemma grid_passable (I J : nat) (tag : Z -> Z -> CellType) (p : Pos) :
  passable (map (fun i => map (fun j => mkCoord i j (tag i j))
                              (seqZ 0 (Z.of_nat J)))
                (seqZ 0 (Z.of_nat I))) p
  <-> on_board I J p /\ (tag p.1 p.2 = EMPTY \/ tag p.1 p.2 = FOOD).
Proof.
  unfold passable, passableb. rewrite cell_at_lookup2.
  destruct (decide (0 <= p.1 < Z.of_nat I /\ 0 <= p.2 < Z.of_nat J))
    as [Hon|Hoff].
  - rewrite (grid_lookup I J (fun i j => mkCoord i j (tag i j)) p Hon).
    simpl. rewrite orb_true_iff, !bool_decide_eq_true. by split; [|intros [_ ?]].
  - rewrite (lookup2_off_board I J _ p (grid_sized I J _) Hoff).
    split; [done | by intros [? _]].
Qed.

(** ** The snapshots handed to the planner *)

Lemma getPathfindingBoard_passable
    (I J : nat) (snake : list Coord) (food : option Coord) (p : Pos) :
  passable (AiSnake.getPathfindingBoard I J snake food) p
  <-> on_board I J p /\ (food_at food p \/ p ∉ map pos_of snake).
Proof.
  unfold AiSnake.getPathfindingBoard. rewrite grid_passable.
  apply and_iff_compat_l.
  rewrite <- is_food_food_at, <- covers_elem_of.
  unfold AiSnake.cellType, is_food, covers.
  destruct (existsb (at_pos p.1 p.2) snake); destruct food as [fc|];
    try destruct (_ && _); cbn [orb]; intuition congruence.
Qed.

(** X6.  In the snapshot of the AI page a position is passable exactly
    when it is on the board and either holds the food or is covered by no
    cell of the snake: the food cell counts as free even under the
    snake. *)
Theorem snapshot_passable
    (I J : nat) (snake : list Coord) (food : option Coord) (p : Pos) :
  passable (AiSnake.getPathfindingBoard I J snake food) p
  <-> on_board I J p /\ (food_at food p \/ p ∉ map pos_of snake).
Proof. apply getPathfindingBoard_passable. Qed.

Lemma getPathfindingBoard_passable_two
    (I J : nat) (cl : SnakeWithAi.State) (p : Pos) :
  passable (SnakeWithAi.getPathfindingBoard I J cl) p
  <-> on_board I J p
      /\ (food_at (SnakeWithAi.food cl) p
          \/ ((p ∉ map pos_of (SnakeWithAi.snake cl))
              /\ (p ∉ map pos_of (SnakeWithAi.userSnake cl)))).
Proof.
  unfold SnakeWithAi.getPathfindingBoard. rewrite grid_passable.
  apply and_iff_compat_l.
  rewrite <- is_food_food_at, <- !covers_elem_of.
  unfold SnakeWithAi.cellType, is_food, covers.
  destruct (existsb (at_pos p.1 p.2) (SnakeWithAi.snake cl));
    destruct (existsb (at_pos p.1 p.2) (SnakeWithAi.userSnake cl));
    destruct (SnakeWithAi.food cl) as [fc|];
    try destruct (_ && _); cbn [orb]; intuition congruence.
Qed.

(** X7.  In the snapshot of the page with two snakes a position is
    passable exactly when it is on the board and either holds the food or
    is covered by neither snake. *)
Theorem snapshot_passable_two_snakes
    (I J : nat) (cl : SnakeWithAi.State) (p : Pos) :
  passable (SnakeWithAi.getPathfindingBoard I J cl) p
  <-> on_board I J p
      /\ (food_at (SnakeWithAi.food cl) p
          \/ ((p ∉ map pos_of (SnakeWithAi.snake cl))
              /\ (p ∉ map pos_of (SnakeWithAi.userSnake cl)))).
Proof. apply getPathfindingBoard_passable_two. Qed.

(** ** What the rendered board shows *)

Lemma retype_idem (t : CellType) (cell : Coord) :
  retype t (retype t cell) = retype t cell.
Proof. reflexivity. Qed.

Lemma lookup2_fmap {A B : Type} (fn : A -> B) (b : list (list A)) (p : Pos) :
  lookup2 (map (map fn) b) p = fn <$> lookup2 b p.
Proof.
  unfold lookup2. destruct ((p.1 <? 0) || (p.2 <? 0)); [done|].
  rewrite list_lookup_fmap. destruct (b !! Z.to_nat p.1) as [line|]; [|done].
  simpl. by rewrite list_lookup_fmap.
Qed.

Lemma Forall_on_board_pos (R C : nat) (body : list Coord) :
  Forall (fun seg => on_board R C (pos_of seg)) body
  <-> Forall (on_board R C) (map pos_of body).
Proof. by rewrite Forall_fmap. Qed.

Section Rendering.

Variables R C : nat.

Lemma clearBoard_shows (b : Board) (p : Pos) :
  well_sized R C b -> on_board R C p -> type_at (clearBoard b) p = Some EMPTY.
Proof.
  intros Hsize Hon. unfold type_at, clearBoard, cell_at.
  fold (lookup2 (map (map (fun cell => mkCoord (row cell) (col cell) EMPTY)) b) p).
  rewrite lookup2_fmap.
  by destruct (lookup2_on_board R C b p Hsize Hon) as [cell ->].
Qed.

Lemma paint_shows (b : Board) (r c : Z) (t : CellType) :
  well_sized R C b -> on_board R C (r, c) ->
  exists b',
    paint b r c t = Some b' /\ well_sized R C b'
    /\ forall p, on_board R C p ->
                 type_at b' p
                 = if (r =? p.1) && (c =? p.2) then Some t else type_at b p.
Proof.
  intros Hsize Hon.
  destruct (assignAt_on_board (retype t) R C b r c Hsize Hon)
    as (b' & Hb' & Hsize' & Hlook).
  exists b'. split; [done|]. split; [done|]. intros p Hp.
  unfold type_at, cell_at. fold (lookup2 b' p). fold (lookup2 b p).
  rewrite Hlook.
  destruct (lookup2_on_board R C b p Hsize Hp) as [cell Hcell]. rewrite Hcell.
  destruct p as [i j]. simpl.
  case_bool_decide as Heq.
  - injection Heq as -> ->. by rewrite !Z.eqb_refl.
  - destruct ((r =? i) && (c =? j)) eqn:Hrc; [|done].
    apply andb_true_iff in Hrc as [->%Z.eqb_eq ->%Z.eqb_eq]. done.
Qed.

Lemma paintAll_shows (b : Board) (segments : list Coord) (t : CellType) :
  well_sized R C b ->
  Forall (fun seg => on_board R C (pos_of seg)) segments ->
  exists b',
    paintAll b segments t = Some b' /\ well_sized R C b'
    /\ forall p, on_board R C p ->
                 type_at b' p
                 = if covers segments p then Some t else type_at b p.
Proof.
  intros Hsize Hall. apply Forall_on_board_pos in Hall.
  destruct (assignAll_on_board (retype t) R C (retype_idem t)
              (map pos_of segments) b Hsize Hall)
    as (b' & Hb' & Hsize' & Hlook).
  exists b'. rewrite paintAll_assignAll. split; [done|]. split; [done|].
  intros p Hp. unfold type_at, cell_at. fold (lookup2 b' p). fold (lookup2 b p).
  rewrite Hlook.
  destruct (lookup2_on_board R C b p Hsize Hp) as [cell Hcell]. rewrite Hcell.
  destruct (covers segments p) eqn:Hcov.
  - apply covers_elem_of in Hcov. by rewrite bool_decide_eq_true_2.
  - rewrite bool_decide_eq_false_2; [done|].
    rewrite <- covers_elem_of. by rewrite Hcov.
Qed.

(** The repainting both [move] functions end with. *)
Lemma repaint_shows (b : Board) (newSnake : list Coord) (fd : option Coord) :
  well_sized R C b ->
  Forall (fun seg => on_board R C (pos_of seg)) newSnake ->
  (forall fc, fd = Some fc -> on_board R C (pos_of fc)) ->
  exists b1,
    paintAll (clearBoard b) newSnake SNAKE = Some b1
    /\ (forall p, on_board R C p ->
                  type_at b1 p
                  = Some (if covers newSnake p then SNAKE else EMPTY))
    /\ match fd with
       | None => True
       | Some fc =>
           exists b2,
             paint b1 (row fc) (col fc) FOOD = Some b2
             /\ forall p, on_board R C p ->
                          type_at b2 p
                          = Some (if is_food fd p then FOOD
                                  else if covers newSnake p then SNAKE
                                       else EMPTY)
       end.
Proof.
  intros Hsize Hall Hfood.
  destruct (paintAll_shows (clearBoard b) newSnake SNAKE
              (clearBoard_well_sized R C b Hsize) Hall)
    as (b1 & Hb1 & Hsize1 & Hshow1).
  exists b1. split; [done|].
  assert (Hs1 : forall p, on_board R C p ->
                  type_at b1 p
                  = Some (if covers newSnake p then SNAKE else EMPTY)).
  { intros p Hp. rewrite (Hshow1 p Hp), (clearBoard_shows b p Hsize Hp).
    by destruct (covers newSnake p). }
  split; [done|]. destruct fd as [fc|]; [|done].
  destruct (paint_shows b1 (row fc) (col fc) FOOD Hsize1 (Hfood fc eq_refl))
    as (b2 & Hb2 & _ & Hshow2).
  exists b2. split; [done|]. intros p Hp.
  rewrite (Hshow2 p Hp), (Hs1 p Hp). unfold is_food.
  by destruct ((row fc =? p.1) && (col fc =? p.2)).
Qed.

End Rendering.

(** X8.  A step of the single-player page that advances the snake leaves
    a board that shows the state it leaves: the food cell (if the food
    was not eaten) as FOOD, the cells of the new body as SNAKE, every
    other cell EMPTY. *)
Theorem move_repaints_board (R C : nat) (st : SnakeGame.State) :
  well_sized R C (SnakeGame.board st) ->
  Forall (fun seg => on_board R C (pos_of seg)) (SnakeGame.snake st) ->
  (forall fc, SnakeGame.food st = Some fc -> on_board R C (pos_of fc)) ->
  SnakeGame.snake st <> [] ->
  ~ game_over R C st ->
  forall p, on_board R C p ->
    type_at (SnakeGame.board (SnakeGame.move R C st).1) p
    = Some (if is_food (SnakeGame.food (SnakeGame.move R C st).1) p then FOOD
            else if covers (SnakeGame.snake (SnakeGame.move R C st).1) p
                 then SNAKE else EMPTY).
Proof.
  destruct st as [b0 s0 fd0 d0 c0]. unfold game_over.
  cbn [SnakeGame.board SnakeGame.snake SnakeGame.food].
  intros Hsize Hbody Hfood Hne Halive p Hp. revert Halive.
  unfold SnakeGame.move.
  cbn [SnakeGame.board SnakeGame.snake SnakeGame.food SnakeGame.direction].
  destruct s0 as [|head tl]; [done|].
  set (newHead := SnakeGame.advance head d0 SNAKE).
  destruct (SnakeGame.outside R C (row newHead) (col newHead)) eqn:Hout.
  { intros Halive. destruct Halive. simpl. intros Heq.
    apply (f_equal length) in Heq. rewrite length_app in Heq. simpl in Heq. lia. }
  destruct (existsb _ (head :: tl)) eqn:Hself.
  { intros Halive. destruct Halive. simpl. intros Heq.
    apply (f_equal length) in Heq. rewrite length_app in Heq. simpl in Heq. lia. }
  intros _. apply outside_on_board in Hout.
  set (newSnake := if SnakeGame.eats fd0 newHead then newHead :: head :: tl
                   else newHead :: SnakeGame.dropTail (head :: tl)).
  assert (Hall : Forall (fun seg => on_board R C (pos_of seg)) newSnake).
  { subst newSnake. destruct (SnakeGame.eats fd0 newHead).
    - by constructor.
    - constructor; [done|]. unfold SnakeGame.dropTail.
      rewrite take_pred_removelast. by apply Forall_removelast. }
  destruct (repaint_shows R C b0 newSnake fd0 Hsize Hall Hfood)
    as (b1 & -> & Hshow1 & Hshow2).
  destruct fd0 as [fc|].
  - destruct (SnakeGame.eats (Some fc) newHead) eqn:Heat.
    + simpl. by rewrite (Hshow1 p Hp).
    + destruct Hshow2 as (b2 & -> & Hshow2). simpl.
      by rewrite (Hshow2 p Hp).
  - simpl. by rewrite (Hshow1 p Hp).
Qed.

Lemma move_repaints_board_witness :
  type_at
    (SnakeGame.board
       (SnakeGame.move 5 5
          (SnakeGame.mkState (makeBoard 5 5 tag55) [mkCoord 2 2 SNAKE]
             (Some (mkCoord 2 4 FOOD)) RIGHT [])).1) (2, 3)
  = Some SNAKE.
Proof.
  apply (move_repaints_board 5 5
           (SnakeGame.mkState (makeBoard 5 5 tag55) [mkCoord 2 2 SNAKE]
              (Some (mkCoord 2 4 FOOD)) RIGHT []) ).
  - apply makeBoard_well_sized.
  - repeat constructor; simpl; lia.
  - intros fc [= <-]. unfold on_board. simpl. lia.
  - done.
  - unfold game_over. vm_compute. intros H. by apply H.
  - unfold on_board. simpl. lia.
Defined.

(** ** The step of the AI page *)

Section AiStep.

Variables I J : nat.

Lemma centre_on_board (p : Pos) :
  on_board I J p -> on_board I J (Z.of_nat I / 2, Z.of_nat J / 2).
Proof.
  intros [[Hr0 Hr1] [Hc0 Hc1]]. unfold on_board. simpl.
  pose proof (Z.div_pos (Z.of_nat I) 2). pose proof (Z.div_pos (Z.of_nat J) 2).
  pose proof (Z.div_lt (Z.of_nat I) 2). pose proof (Z.div_lt (Z.of_nat J) 2).
  lia.
Qed.

Lemma kept_single (c : Coord) : on_board I J (pos_of c) -> kept I J [c].
Proof.
  intros Hon. split.
  - split; [apply NoDup_singleton | done].
  - by constructor.
Qed.

(** The body after a step that advances it. *)
Lemma kept_advance (head : Coord) (tl : list Coord) (d : Direction)
    (t : CellType) (grow : bool) :
  kept I J (head :: tl) ->
  on_board I J (shift (pos_of head) d) ->
  shift (pos_of head) d ∉ map pos_of (head :: tl) ->
  kept I J (SnakeGame.advance head d t
            :: if grow then head :: tl else SnakeGame.dropTail (head :: tl)).
Proof.
  intros [Hok Hall] Hon Hfresh. unfold SnakeGame.dropTail.
  rewrite take_pred_removelast. split.
  - destruct grow.
    + change (map pos_of (SnakeGame.advance head d t :: head :: tl))
        with (shift (pos_of head) d :: pos_of head :: map pos_of tl).
      by apply body_ok_grow.
    + change (map pos_of (SnakeGame.advance head d t :: removelast (head :: tl)))
        with (shift (pos_of head) d :: map pos_of (removelast (head :: tl))).
      rewrite <- removelast_map. by apply body_ok_slide.
  - constructor; [done|]. destruct grow; [done|]. by apply Forall_removelast.
Qed.

Lemma ai_move_advance (st : SnakeGame.State) (head : Coord) (tl : list Coord)
    (d : Direction) :
  SnakeGame.snake st = head :: tl ->
  on_board I J (shift (pos_of head) d) ->
  shift (pos_of head) d ∉ map pos_of (head :: tl) ->
  let newHead := SnakeGame.advance head d SNAKE in
  let st' := (AiSnake.move I J d st).1 in
  SnakeGame.console st' = SnakeGame.console st
  /\ SnakeGame.direction st' = SnakeGame.direction st
  /\ SnakeGame.snake st'
     = newHead :: (if SnakeGame.eats (SnakeGame.food st) newHead
                   then head :: tl else SnakeGame.dropTail (head :: tl))
  /\ SnakeGame.food st'
     = if SnakeGame.eats (SnakeGame.food st) newHead then None
       else SnakeGame.food st.
Proof.
  destruct st as [b0 s0 fd0 d0 c0].
  cbn [SnakeGame.snake SnakeGame.direction SnakeGame.food SnakeGame.console].
  intros -> Hon Hnin. unfold AiSnake.move.
  cbn [SnakeGame.snake SnakeGame.direction SnakeGame.food SnakeGame.board].
  set (newHead := SnakeGame.advance head d SNAKE).
  apply outside_on_board in Hon.
  assert (existsb (at_pos (row newHead) (col newHead)) (head :: tl) = false)
    as Hex.
  { apply not_true_is_false. intros H. by apply existsb_at_pos in H. }
  change (SnakeGame.outside I J (row newHead) (col newHead) = false) in Hon.
  rewrite Hon, Hex.
  destruct (SnakeGame.eats fd0 newHead) eqn:He.
  - destruct (paintAll _ _ _) as [b|]; [|done].
    destruct fd0; done.
  - destruct (paintAll _ _ _) as [b|]; [|done].
    destruct fd0 as [fc|]; [|done].
    destruct (paint b (row fc) (col fc) FOOD); done.
Qed.

(** On the snapshot of the page the planner returns. *)
Lemma nextDir_returns (st : SnakeGame.State) (fc : Coord) :
  SnakeGame.food st = Some fc ->
  exists answer, AiSnake.nextDir I J st = Return answer.
Proof.
  intros Hfood. unfold AiSnake.nextDir. rewrite Hfood.
  destruct (SnakeGame.snake st) as [|head tl]; [by eexists|].
  destruct (planner_cases
              (AiSnake.getPathfindingBoard I J (head :: tl) (Some fc))
              head fc tl (getPathfindingBoard_rectangular I J _ _))
    as [(Hr & _)|[(Hr & _)|(d & path & rest & Hr & _)]]; rewrite Hr; by eexists.
Qed.

Lemma ai_move_returns (d : Direction) (st : SnakeGame.State) :
  well_sized I J (SnakeGame.board st) ->
  Forall (fun seg => on_board I J (pos_of seg)) (SnakeGame.snake st) ->
  (forall fc, SnakeGame.food st = Some fc -> on_board I J (pos_of fc)) ->
  (AiSnake.move I J d st).2 = Return tt.
Proof.
  destruct st as [b0 s0 fd0 d0 c0].
  cbn [SnakeGame.board SnakeGame.snake SnakeGame.food].
  intros Hsize Hbody Hfood. unfold AiSnake.move.
  cbn [SnakeGame.board SnakeGame.snake SnakeGame.food SnakeGame.direction].
  destruct s0 as [|head tl]; [done|].
  set (newHead := SnakeGame.advance head d SNAKE).
  destruct (SnakeGame.outside I J (row newHead) (col newHead)) eqn:Hout; [done|].
  destruct (existsb _ (head :: tl)); [done|].
  apply outside_on_board in Hout.
  set (newSnake := if SnakeGame.eats fd0 newHead then newHead :: head :: tl
                   else newHead :: SnakeGame.dropTail (head :: tl)).
  assert (Hall : Forall (fun seg => on_board I J (pos_of seg)) newSnake).
  { subst newSnake. destruct (SnakeGame.eats fd0 newHead).
    - by constructor.
    - constructor; [done|]. unfold SnakeGame.dropTail.
      rewrite take_pred_removelast. by apply Forall_removelast. }
  destruct (repaint_shows I J b0 newSnake fd0 Hsize Hall Hfood)
    as (b1 & -> & _ & Hshow2).
  destruct fd0 as [fc|]; [|done].
  destruct (SnakeGame.eats (Some fc) newHead); [done|].
  by destruct Hshow2 as (b2 & -> & _).
Qed.

Lemma ai_move_keeps (d : Direction) (st : SnakeGame.State) :
  kept I J (SnakeGame.snake st) ->
  kept I J (SnakeGame.snake (AiSnake.move I J d st).1).
Proof.
  destruct st as [b0 s0 fd0 d0 c0]. cbn [SnakeGame.snake].
  intros Hkept. unfold AiSnake.move.
  cbn [SnakeGame.board SnakeGame.snake SnakeGame.food SnakeGame.direction].
  destruct s0 as [|head tl]; [done|].
  set (newHead := SnakeGame.advance head d SNAKE).
  destruct (SnakeGame.outside I J (row newHead) (col newHead)) eqn:Hout;
    [done|].
  destruct (existsb _ (head :: tl)) eqn:Hself.
  { simpl. apply kept_single. destruct Hkept as [_ Hall].
    apply Forall_cons in Hall as [Hhead _]. by eapply centre_on_board. }
  apply (outside_on_board I J) in Hout.
  assert (Hfresh : shift (pos_of head) d ∉ map pos_of (head :: tl)).
  { intros Hin. apply existsb_at_pos in Hin.
    change (existsb (at_pos (row newHead) (col newHead)) (head :: tl) = true)
      in Hin.
    congruence. }
  pose proof (kept_advance head tl d SNAKE (SnakeGame.eats fd0 newHead)
                Hkept Hout Hfresh) as Hnew.
  fold newHead in Hnew.
  destruct (SnakeGame.eats fd0 newHead);
    destruct (paintAll _ _ _) as [b|]; try done;
    destruct fd0 as [fc|]; try done;
    try (destruct (paint b _ _ _); done).
Qed.

End AiStep.

(** The first step of a walk in the snapshot can be taken: it is on the
    board and, when the food does not lie under the snake, off the
    snake. *)
Lemma first_step_is_free (I J : nat) (head : Coord) (tl : list Coord)
    (fc : Coord) (q : Pos) :
  pos_of fc ∉ map pos_of (head :: tl) ->
  passable (AiSnake.getPathfindingBoard I J (head :: tl) (Some fc)) q ->
  on_board I J q /\ q ∉ map pos_of (head :: tl).
Proof.
  intros Hfood Hq. apply getPathfindingBoard_passable in Hq as [Hon Hq].
  split; [done|]. destruct Hq as [(fc' & [= <-] & <-)|Hq]; done.
Qed.

(** X9.  While a walk leads from the head to the food in the snapshot
    and the food does not lie under the snake, a tick of the AI page
    never ends in a collision: the heading becomes the one of the
    planner, nothing is logged, and the head advances onto the first cell
    of a shortest walk to the food, the body growing on the food cell and
    sliding otherwise. *)
Theorem ai_tick_follows_shortest_path
    (I J : nat) (st : SnakeGame.State) (head : Coord) (tl : list Coord)
    (fc : Coord) (l : list Pos) :
  SnakeGame.snake st = head :: tl ->
  SnakeGame.food st = Some fc ->
  pos_of fc ∉ map pos_of (head :: tl) ->
  walk (AiSnake.getPathfindingBoard I J (head :: tl) (Some fc))
       (pos_of head) l (pos_of fc) ->
  exists d rest,
    shortest (AiSnake.getPathfindingBoard I J (head :: tl) (Some fc))
             (pos_of head) (shift (pos_of head) d :: rest) (pos_of fc)
    /\ SnakeGame.direction (AiSnake.tick I J st).1 = d
    /\ SnakeGame.console (AiSnake.tick I J st).1 = SnakeGame.console st
    /\ SnakeGame.snake (AiSnake.tick I J st).1
       = SnakeGame.advance head d SNAKE
         :: (if SnakeGame.eats (Some fc) (SnakeGame.advance head d SNAKE)
             then head :: tl else SnakeGame.dropTail (head :: tl)).
Proof.
  intros Hsnake Hfood Hunder Hwalk.
  destruct (planner_cases
              (AiSnake.getPathfindingBoard I J (head :: tl) (Some fc))
              head fc tl (getPathfindingBoard_rectangular I J _ _))
    as [(_ & _ & Hno)|[(_ & Heq & _)|(d & path & rest & Hr & _ & _ & Hshort)]].
  - by destruct (Hno l).
  - destruct Hunder. rewrite <- Heq. apply list_elem_of_here.
  - exists d, rest. split; [done|].
    destruct Hshort as [(_ & Hfree & _) _].
    apply first_step_is_free in Hfree as [Hon Hfresh]; [|done].
    unfold AiSnake.tick, AiSnake.nextDir. rewrite Hfood, Hsnake, Hr.
    destruct (ai_move_advance I J (SnakeGame.setDirection d st) head tl d)
      as (Hc & Hd & Hs & _); [by destruct st | done..|].
    rewrite Hc, Hd, Hs. destruct st. simpl in *. by subst.
Qed.

Lemma ai_tick_follows_shortest_path_witness :
  exists d rest,
    shortest (AiSnake.getPathfindingBoard 5 5 [mkCoord 2 2 SNAKE]
                (Some (mkCoord 2 4 FOOD)))
             (2, 2) (shift (2, 2) d :: rest) (2, 4)
    /\ SnakeGame.direction
         (AiSnake.tick 5 5
            (SnakeGame.mkState (makeBoard 5 5 tag55) [mkCoord 2 2 SNAKE]
               (Some (mkCoord 2 4 FOOD)) UP [])).1 = d
    /\ SnakeGame.console
         (AiSnake.tick 5 5
            (SnakeGame.mkState (makeBoard 5 5 tag55) [mkCoord 2 2 SNAKE]
               (Some (mkCoord 2 4 FOOD)) UP [])).1 = []
    /\ SnakeGame.snake
         (AiSnake.tick 5 5
            (SnakeGame.mkState (makeBoard 5 5 tag55) [mkCoord 2 2 SNAKE]
               (Some (mkCoord 2 4 FOOD)) UP [])).1
       = SnakeGame.advance (mkCoord 2 2 SNAKE) d SNAKE
         :: (if SnakeGame.eats (Some (mkCoord 2 4 FOOD))
                  (SnakeGame.advance (mkCoord 2 2 SNAKE) d SNAKE)
             then [mkCoord 2 2 SNAKE]
             else SnakeGame.dropTail [mkCoord 2 2 SNAKE]).
Proof.
  apply (ai_tick_follows_shortest_path 5 5
           (SnakeGame.mkState (makeBoard 5 5 tag55) [mkCoord 2 2 SNAKE]
              (Some (mkCoord 2 4 FOOD)) UP [])
           (mkCoord 2 2 SNAKE) [] (mkCoord 2 4 FOOD) [(2, 3); (2, 4)]).
  - reflexivity.
  - reflexivity.
  - simpl. intros Hin. apply list_elem_of_singleton in Hin. discriminate.
  - unfold adjacent, passable. vm_compute. repeat split; congruence.
Defined.

(** X10.  On a board of the declared size that holds the body and the
    food, a tick of the AI page raises in one case only: there is a
    snake but no food, and then nothing has been updated.  In every
    other case it returns normally. *)
Theorem ai_tick_raises_only_without_food (I J : nat) (st : SnakeGame.State) :
  well_sized I J (SnakeGame.board st) ->
  Forall (fun seg => on_board I J (pos_of seg)) (SnakeGame.snake st) ->
  (forall fc, SnakeGame.food st = Some fc -> on_board I J (pos_of fc)) ->
  match SnakeGame.food st, SnakeGame.snake st with
  | None, _ :: _ => AiSnake.tick I J st = (st, Throw)
  | _, _ => (AiSnake.tick I J st).2 = Return tt
  end.
Proof.
  intros Hsize Hbody Hfood.
  destruct (SnakeGame.food st) as [fc|] eqn:Hfd.
  - assert ((AiSnake.tick I J st).2 = Return tt) as Hok.
    { destruct (nextDir_returns I J st fc Hfd) as [answer Hret].
      unfold AiSnake.tick. rewrite Hret.
      apply ai_move_returns; destruct st; simpl in *; by subst. }
    by destruct (SnakeGame.snake st).
  - destruct (SnakeGame.snake st) as [|head tl] eqn:Hs.
    + unfold AiSnake.tick, AiSnake.nextDir. rewrite Hfd, Hs.
      apply ai_move_returns; destruct st; simpl in *; by subst.
    + unfold AiSnake.tick, AiSnake.nextDir. by rewrite Hfd, Hs.
Qed.

Lemma ai_tick_raises_only_without_food_witness :
  AiSnake.tick 5 5
    (SnakeGame.mkState (makeBoard 5 5 tag55) [mkCoord 2 2 SNAKE] None RIGHT [])
  = (SnakeGame.mkState (makeBoard 5 5 tag55) [mkCoord 2 2 SNAKE] None RIGHT [],
     Throw).
Proof.
  apply (ai_tick_raises_only_without_food 5 5
           (SnakeGame.mkState (makeBoard 5 5 tag55) [mkCoord 2 2 SNAKE]
              None RIGHT [])).
  - apply makeBoard_well_sized.
  - repeat constructor; simpl; lia.
  - intros fc [=].
Defined.

(** X11.  Every tick of the AI page keeps the body duplicate-free,
    connected and on the board, also when it restarts the game after a
    self-collision or raises. *)
Theorem ai_tick_keeps_body (I J : nat) (st : SnakeGame.State) :
  kept I J (SnakeGame.snake st) ->
  kept I J (SnakeGame.snake (AiSnake.tick I J st).1).
Proof.
  intros Hkept. unfold AiSnake.tick.
  destruct (AiSnake.nextDir I J st) as [answer| |]; [|done..].
  apply ai_move_keeps. by destruct st.
Qed.

Lemma ai_tick_keeps_body_witness :
  kept 5 5
    (SnakeGame.snake
       (AiSnake.tick 5 5
          (SnakeGame.mkState (makeBoard 5 5 tag55)
             [mkCoord 2 2 SNAKE; mkCoord 2 1 SNAKE]
             (Some (mkCoord 2 4 FOOD)) RIGHT [])).1).
Proof.
  apply (ai_tick_keeps_body 5 5
           (SnakeGame.mkState (makeBoard 5 5 tag55)
              [mkCoord 2 2 SNAKE; mkCoord 2 1 SNAKE]
              (Some (mkCoord 2 4 FOOD)) RIGHT [])).
  split.
  - split.
    + simpl. apply NoDup_cons. split; [|apply NoDup_singleton].
      intros Hin. apply list_elem_of_singleton in Hin. discriminate.
    + simpl. unfold adjacent. simpl. repeat split; lia.
  - repeat constructor; simpl; lia.
Defined.

(** X12.  [move] of the AI page treats its two collisions differently:
    leaving the board only logs the game over and changes nothing else,
    while running into the body (a cell inside the board that the body
    covers, its last cell included) restarts the game -- the board is
    emptied and the snake put back as one cell at the centre -- and keeps
    the food and the heading. *)
Theorem ai_move_collisions
    (I J : nat) (d : Direction) (st : SnakeGame.State) (head : Coord)
    (tl : list Coord) :
  SnakeGame.snake st = head :: tl ->
  (off_board I J (shift (pos_of head) d) ->
   AiSnake.move I J d st
   = (SnakeGame.log "Game Over: Hit wall" st, Return tt))
  /\ (on_board I J (shift (pos_of head) d) ->
      shift (pos_of head) d ∈ map pos_of (head :: tl) ->
      AiSnake.move I J d st
      = (SnakeGame.mkState (emptyBoard I J)
           [mkCoord (Z.of_nat I / 2) (Z.of_nat J / 2) SNAKE]
           (SnakeGame.food st) (SnakeGame.direction st)
           (SnakeGame.console st ++ ["Game Over: Hit itself. Restarting."]),
         Return tt)).
Proof.
  intros Hsnake. unfold AiSnake.move. rewrite Hsnake.
  set (newHead := SnakeGame.advance head d SNAKE).
  change (shift (pos_of head) d) with (row newHead, col newHead).
  split.
  - intros Hoff. apply outside_off_board in Hoff. by rewrite Hoff.
  - intros Hon Hin. apply outside_on_board in Hon.
    apply existsb_at_pos in Hin. by rewrite Hon, Hin.
Qed.

(** The head turns back onto the last cell of a body coiled in a square. *)
Lemma ai_move_collisions_witness :
  AiSnake.move 5 5 DOWN
    (SnakeGame.mkState (makeBoard 5 5 tag55)
       [mkCoord 2 2 SNAKE; mkCoord 2 3 SNAKE; mkCoord 3 3 SNAKE; mkCoord 3 2 SNAKE]
       (Some (mkCoord 0 0 FOOD)) LEFT [])
  = (SnakeGame.mkState (emptyBoard 5 5) [mkCoord 2 2 SNAKE]
       (Some (mkCoord 0 0 FOOD)) LEFT ["Game Over: Hit itself. Restarting."],
     Return tt).
Proof.
  apply (proj2 (ai_move_collisions 5 5 DOWN
           (SnakeGame.mkState (makeBoard 5 5 tag55)
              [mkCoord 2 2 SNAKE; mkCoord 2 3 SNAKE; mkCoord 3 3 SNAKE;
               mkCoord 3 2 SNAKE]
              (Some (mkCoord 0 0 FOOD)) LEFT [])
           (mkCoord 2 2 SNAKE)
           [mkCoord 2 3 SNAKE; mkCoord 3 3 SNAKE; mkCoord 3 2 SNAKE]
           eq_refl)).
  - unfold on_board. simpl. lia.
  - simpl. do 3 apply list_elem_of_further. apply list_elem_of_here.
Defined.

(** ** The single-player page: mounting, keys and food *)

Section SinglePlayer.

Variables R C : nat.

Lemma emptyBoard_well_sized : well_sized R C (emptyBoard R C).
Proof. apply (grid_sized R C (fun i j => mkCoord i j EMPTY)). Qed.

Lemma emptyBoard_cell (p : Pos) :
  on_board R C p -> cell_at (emptyBoard R C) p = Some (mkCoord p.1 p.2 EMPTY).
Proof. apply (grid_lookup R C (fun i j => mkCoord i j EMPTY)). Qed.

(** What [placeFood] does when a cell is free. *)
Lemma placeFood_draws (u : Q) (st : SnakeGame.State) :
  (0 <= u)%Q -> (u < 1)%Q ->
  well_sized R C (SnakeGame.board st) ->
  (exists p, on_board R C p /\ p ∉ map pos_of (SnakeGame.snake st)) ->
  exists (q : Pos) (b : Board),
    on_board R C q /\ (q ∉ map pos_of (SnakeGame.snake st))
    /\ paint (clearBoard (SnakeGame.board st)) q.1 q.2 FOOD = Some b
    /\ well_sized R C b
    /\ (forall p, on_board R C p ->
                  type_at b p
                  = Some (if bool_decide (p = q) then FOOD else EMPTY))
    /\ SnakeGame.placeFood R C u st
       = (SnakeGame.setFood (Some (mkCoord q.1 q.2 FOOD))
            (SnakeGame.setBoard b st), Return tt).
Proof.
  intros H0 H1 Hsize (p0 & Hp0 & Hfree0).
  assert (Hin0 : p0 ∈ SnakeGame.emptyCells R C st).
  { unfold SnakeGame.emptyCells. rewrite freeCells_spec. split; [done|].
    by apply occupied_one. }
  assert (Hne : SnakeGame.emptyCells R C st <> []).
  { intros Heq. rewrite Heq in Hin0. by apply elem_of_nil in Hin0. }
  destruct (drawn_cell u (SnakeGame.emptyCells R C st) H0 H1 Hne)
    as (i & q & _ & Hq & Hdraw).
  assert (Hinq : q ∈ SnakeGame.emptyCells R C st)
    by (by eapply list_elem_of_lookup_2).
  unfold SnakeGame.emptyCells in Hinq. rewrite freeCells_spec in Hinq.
  destruct Hinq as [Hon Hfree]. apply occupied_one in Hfree.
  destruct (paint_shows R C (clearBoard (SnakeGame.board st)) q.1 q.2 FOOD
              (clearBoard_well_sized R C _ Hsize))
    as (b & Hb & Hsizeb & Hshow); [by destruct q|].
  exists q, b. split; [done|]. split; [done|]. split; [done|].
  split; [done|]. split.
  - intros p Hp. rewrite (Hshow p Hp), (clearBoard_shows R C _ p Hsize Hp).
    destruct p as [i' j'], q as [r c]. simpl.
    case_bool_decide as Heq.
    + injection Heq as -> ->. by rewrite !Z.eqb_refl.
    + destruct ((r =? i') && (c =? j')) eqn:Hrc; [|done].
      apply andb_true_iff in Hrc as [->%Z.eqb_eq ->%Z.eqb_eq]. done.
  - unfold SnakeGame.placeFood.
    destruct (SnakeGame.emptyCells R C st) as [|c0 cells] eqn:Hcells; [done|].
    cbv zeta. rewrite Hdraw. destruct q as [r c]. simpl in Hb. by rewrite Hb.
Qed.

End SinglePlayer.

(** X13.  When some cell of the board is free, [placeFood] of the
    single-player page (and of the AI page, which has the same function)
    sets the food to a board cell off the snake and repaints the board
    with that cell as FOOD and every other cell as EMPTY: the cells of
    the snake are wiped from the board until the next step paints them
    again. *)
Theorem placeFood_repaints_board (R C : nat) (u : Q) (st : SnakeGame.State) :
  (0 <= u)%Q -> (u < 1)%Q ->
  well_sized R C (SnakeGame.board st) ->
  (exists p, on_board R C p /\ p ∉ map pos_of (SnakeGame.snake st)) ->
  exists fc,
    SnakeGame.food (SnakeGame.placeFood R C u st).1 = Some fc
    /\ type fc = FOOD
    /\ on_board R C (pos_of fc)
    /\ (pos_of fc ∉ map pos_of (SnakeGame.snake st))
    /\ (forall p, on_board R C p ->
          type_at (SnakeGame.board (SnakeGame.placeFood R C u st).1) p
          = Some (if bool_decide (p = pos_of fc) then FOOD else EMPTY))
    /\ AiSnake.placeFood R C u st = SnakeGame.placeFood R C u st.
Proof.
  intros H0 H1 Hsize Hfree.
  destruct (placeFood_draws R C u st H0 H1 Hsize Hfree)
    as (q & b & Hon & Hoff & _ & _ & Hshow & Hplace).
  exists (mkCoord q.1 q.2 FOOD). destruct q as [r c].
  split; [by rewrite Hplace|]. split; [done|]. split; [done|].
  split; [done|]. split; [|done].
  intros p Hp. rewrite Hplace. exact (Hshow p Hp).
Qed.

Lemma placeFood_repaints_board_witness :
  exists fc,
    SnakeGame.food
      (SnakeGame.placeFood 5 5 (1 # 2)
         (SnakeGame.mkState (makeBoard 5 5 tag55) [mkCoord 2 2 SNAKE]
            None RIGHT [])).1 = Some fc
    /\ type fc = FOOD
    /\ on_board 5 5 (pos_of fc)
    /\ (pos_of fc ∉ map pos_of [mkCoord 2 2 SNAKE])
    /\ (forall p, on_board 5 5 p ->
          type_at
            (SnakeGame.board
               (SnakeGame.placeFood 5 5 (1 # 2)
                  (SnakeGame.mkState (makeBoard 5 5 tag55) [mkCoord 2 2 SNAKE]
                     None RIGHT [])).1) p
          = Some (if bool_decide (p = pos_of fc) then FOOD else EMPTY))
    /\ AiSnake.placeFood 5 5 (1 # 2)
         (SnakeGame.mkState (makeBoard 5 5 tag55) [mkCoord 2 2 SNAKE]
            None RIGHT [])
       = SnakeGame.placeFood 5 5 (1 # 2)
           (SnakeGame.mkState (makeBoard 5 5 tag55) [mkCoord 2 2 SNAKE]
              None RIGHT []).
Proof.
  apply (placeFood_repaints_board 5 5 (1 # 2)
           (SnakeGame.mkState (makeBoard 5 5 tag55) [mkCoord 2 2 SNAKE]
              None RIGHT [])).
  - done.
  - done.
  - apply makeBoard_well_sized.
  - exists (0, 0). split; [unfold on_board; simpl; lia|].
    simpl. intros Hin. apply list_elem_of_singleton in Hin. discriminate.
Defined.

(** X14.  A key press on the single-player page never turns the snake
    right round: the heading after [handleKeyDown] is never the opposite
    of the heading before.  An arrow key that does not ask for the
    opposite heading sets it; every other key, and nothing but the
    heading, is left alone. *)
Theorem handleKeyDown_never_reverses (key : string) (st : SnakeGame.State) :
  SnakeGame.direction (SnakeGame.handleKeyDown key st)
  <> opposite (SnakeGame.direction st)
  /\ SnakeGame.handleKeyDown key st
     = SnakeGame.setDirection
         (SnakeGame.direction (SnakeGame.handleKeyDown key st)) st
  /\ (forall d, d <> opposite (SnakeGame.direction st) ->
                SnakeGame.direction (SnakeGame.handleKeyDown (arrow d) st) = d)
  /\ ((forall d, key <> arrow d) -> SnakeGame.handleKeyDown key st = st).
Proof.
  destruct st as [b0 s0 fd0 d0 c0]. split; [|split; [|split]].
  - unfold SnakeGame.handleKeyDown.
    repeat match goal with
           | |- context [String.eqb ?a ?b] => destruct (String.eqb a b)
           end;
      destruct d0; simpl; repeat case_bool_decide; simpl; congruence.
  - unfold SnakeGame.handleKeyDown.
    repeat match goal with
           | |- context [String.eqb ?a ?b] => destruct (String.eqb a b)
           end;
      destruct d0; simpl; repeat case_bool_decide; reflexivity.
  - intros d Hd. destruct d, d0; simpl in *; congruence.
  - intros Hkey. unfold SnakeGame.handleKeyDown.
    repeat match goal with
           | |- context [String.eqb ?a ?b] =>
               destruct (String.eqb_spec a b) as [Heq|_]
           end; try reflexivity.
    + by destruct (Hkey UP).
    + by destruct (Hkey DOWN).
    + by destruct (Hkey LEFT).
    + by destruct (Hkey RIGHT).
Qed.

Lemma eats_false_pos (fc newHead : Coord) :
  SnakeGame.eats (Some fc) newHead = false -> pos_of fc <> pos_of newHead.
Proof.
  unfold SnakeGame.eats, pos_of. intros He [= Hr Hc].
  by rewrite Hr, Hc, !Z.eqb_refl in He.
Qed.

(** The outcome of a step of the single-player page that advances the
    snake, on a state in good order. *)
Lemma move_advances (R C : nat) (st : SnakeGame.State) (head : Coord)
    (tl : list Coord) :
  well_kept R C st ->
  SnakeGame.snake st = head :: tl ->
  let newHead := SnakeGame.advance head (SnakeGame.direction st) SNAKE in
  SnakeGame.outside R C (row newHead) (col newHead) = false ->
  existsb (at_pos (row newHead) (col newHead)) (head :: tl) = false ->
  exists b,
    well_sized R C b
    /\ SnakeGame.move R C st
       = (SnakeGame.mkState b
            (newHead :: if SnakeGame.eats (SnakeGame.food st) newHead
                        then head :: tl else SnakeGame.dropTail (head :: tl))
            (if SnakeGame.eats (SnakeGame.food st) newHead then None
             else SnakeGame.food st)
            (SnakeGame.direction st) (SnakeGame.console st),
          Return tt).
Proof.
  destruct st as [b0 s0 fd0 d0 c0]. intros (Hsize & Hkept & Hfood).
  cbn [SnakeGame.board SnakeGame.snake SnakeGame.food SnakeGame.direction
       SnakeGame.console] in *.
  intros ->. set (newHead := SnakeGame.advance head d0 SNAKE).
  intros Hout Hself. unfold SnakeGame.move.
  cbn [SnakeGame.board SnakeGame.snake SnakeGame.food SnakeGame.direction].
  fold newHead. rewrite Hout, Hself.
  apply outside_on_board in Hout.
  assert (Hfresh : shift (pos_of head) d0 ∉ map pos_of (head :: tl)).
  { intros Hin. apply existsb_at_pos in Hin.
    change (existsb (at_pos (row newHead) (col newHead)) (head :: tl) = true)
      in Hin.
    congruence. }
  pose proof (kept_advance R C head tl d0 SNAKE (SnakeGame.eats fd0 newHead)
                Hkept Hout Hfresh) as [_ Hall].
  fold newHead in Hall.
  assert (Hsnake :
    (if SnakeGame.eats fd0 newHead then newHead :: head :: tl
     else newHead :: SnakeGame.dropTail (head :: tl))
    = newHead :: (if SnakeGame.eats fd0 newHead then head :: tl
                  else SnakeGame.dropTail (head :: tl)))
    by (by destruct (SnakeGame.eats fd0 newHead)).
  rewrite Hsnake.
  destruct (paintAll_shows R C (clearBoard b0) _ SNAKE
              (clearBoard_well_sized R C b0 Hsize) Hall)
    as (b1 & -> & Hsize1 & _).
  destruct fd0 as [fc|].
  - destruct (SnakeGame.eats (Some fc) newHead) eqn:Heat.
    + by exists b1.
    + destruct (paint_shows R C b1 (row fc) (col fc) FOOD Hsize1)
        as (b2 & -> & Hsize2 & _); [by apply (Hfood fc)|].
      by exists b2.
  - by exists b1.
Qed.

(** X15.  A step of the single-player page keeps a state in good order
    in good order and returns normally: the board keeps its size, the
    body stays duplicate-free, connected and on the board, and the food
    stays on the board and off the body. *)
Theorem move_keeps_page_in_order (R C : nat) (st : SnakeGame.State) :
  well_kept R C st ->
  well_kept R C (SnakeGame.move R C st).1
  /\ (SnakeGame.move R C st).2 = Return tt.
Proof.
  intros Hwk. destruct (SnakeGame.snake st) as [|head tl] eqn:Hs.
  { unfold SnakeGame.move. by rewrite Hs. }
  pose proof (move_advances R C st head tl Hwk Hs) as Hadv.
  cbv zeta in Hadv. unfold SnakeGame.move in *. rewrite Hs in *.
  set (newHead := SnakeGame.advance head (SnakeGame.direction st) SNAKE) in *.
  destruct (SnakeGame.outside R C (row newHead) (col newHead)) eqn:Hout.
  { split; [exact Hwk | done]. }
  destruct (existsb _ (head :: tl)) eqn:Hself.
  { split; [exact Hwk | done]. }
  destruct (Hadv eq_refl eq_refl) as (b & Hsize & ->). split; [|done].
  destruct Hwk as (_ & Hkept & Hfood). rewrite Hs in *.
  apply outside_on_board in Hout.
  assert (Hfresh : shift (pos_of head) (SnakeGame.direction st)
                   ∉ map pos_of (head :: tl)).
  { intros Hin. apply existsb_at_pos in Hin.
    change (existsb (at_pos (row newHead) (col newHead)) (head :: tl) = true)
      in Hin.
    congruence. }
  split; [done|]. split.
  - by apply kept_advance.
  - cbn [fst SnakeGame.food SnakeGame.snake]. intros fc Hfc.
    destruct (SnakeGame.eats (SnakeGame.food st) newHead) eqn:Heat; [done|].
    destruct (Hfood fc Hfc) as [Hon Hoff]. split; [done|].
    rewrite Hfc in Heat. apply eats_false_pos in Heat.
    intros Hin. apply elem_of_cons in Hin as [Hin|Hin]; [done|].
    change (pos_of fc ∈ map pos_of (SnakeGame.dropTail (head :: tl))) in Hin.
    apply Hoff. unfold SnakeGame.dropTail in Hin.
    rewrite take_pred_removelast, <- removelast_map in Hin.
    by apply elem_of_removelast.
Qed.

Lemma move_keeps_page_in_order_witness :
  well_kept 5 5
    (SnakeGame.move 5 5
       (SnakeGame.mkState (makeBoard 5 5 tag55) [mkCoord 2 2 SNAKE]
          (Some (mkCoord 2 4 FOOD)) RIGHT [])).1
  /\ (SnakeGame.move 5 5
        (SnakeGame.mkState (makeBoard 5 5 tag55) [mkCoord 2 2 SNAKE]
           (Some (mkCoord 2 4 FOOD)) RIGHT [])).2 = Return tt.
Proof.
  apply (move_keeps_page_in_order 5 5
           (SnakeGame.mkState (makeBoard 5 5 tag55) [mkCoord 2 2 SNAKE]
              (Some (mkCoord 2 4 FOOD)) RIGHT [])).
  split; [apply makeBoard_well_sized|]. split.
  - apply kept_single. unfold on_board. simpl. lia.
  - intros fc [= <-]. split; [unfold on_board; simpl; lia|].
    simpl. intros Hin. apply list_elem_of_singleton in Hin. discriminate.
Defined.

(** X16.  Mounting the single-player page and letting the food effect
    run once, on a board of at least two cells, gives a state in good
    order: an empty board of the declared size repainted with the food,
    a one-cell snake at the centre, and the food on a board cell other
    than the snake's.  Nothing raises. *)
Theorem mount_then_food (I J : nat) (u : Q) :
  (0 <= u)%Q -> (u < 1)%Q -> (2 <= I * J)%nat ->
  well_kept I J (SnakeGame.mount I J SnakeGame.initial)
  /\ (SnakeGame.foodEffect I J u (SnakeGame.mount I J SnakeGame.initial)).2
     = Return tt
  /\ well_kept I J
       (SnakeGame.foodEffect I J u (SnakeGame.mount I J SnakeGame.initial)).1
  /\ is_Some (SnakeGame.food
       (SnakeGame.foodEffect I J u (SnakeGame.mount I J SnakeGame.initial)).1)
  /\ SnakeGame.snake
       (SnakeGame.foodEffect I J u (SnakeGame.mount I J SnakeGame.initial)).1
     = [mkCoord (Z.of_nat I / 2) (Z.of_nat J / 2) SNAKE].
Proof.
  intros H0 H1 Hcells.
  assert (HI : (1 <= I)%nat) by nia. assert (HJ : (1 <= J)%nat) by nia.
  assert (Horigin : on_board I J (0, 0)) by (unfold on_board; simpl; lia).
  set (st := SnakeGame.mount I J SnakeGame.initial).
  assert (Hsize : well_sized I J (SnakeGame.board st))
    by apply emptyBoard_well_sized.
  assert (Hkept : kept I J (SnakeGame.snake st)).
  { apply kept_single. by apply (centre_on_board I J (0, 0)). }
  assert (Hwk : well_kept I J st) by (split; [done | split; [done | done]]).
  split; [done|].
  assert (Hfree : exists p, on_board I J p
                            /\ p ∉ map pos_of (SnakeGame.snake st)).
  { exists (0, 0). split; [done|]. simpl. intros Hin.
    apply list_elem_of_singleton in Hin. injection Hin as Hr Hc.
    assert (I = 1%nat \/ (2 <= I)%nat) as [->|HI2] by lia.
    - assert (2 <= J)%nat as HJ2 by lia.
      pose proof (Z.div_str_pos (Z.of_nat J) 2). lia.
    - pose proof (Z.div_str_pos (Z.of_nat I) 2). lia. }
  destruct (placeFood_draws I J u st H0 H1 Hsize Hfree)
    as (q & b & Hon & Hoff & _ & Hsizeb & _ & Hplace).
  assert (Heff : SnakeGame.foodEffect I J u st = SnakeGame.placeFood I J u st).
  { unfold SnakeGame.foodEffect. simpl.
    destruct Hsize as [Hlen _]. simpl in Hlen. rewrite Hlen.
    by rewrite (proj2 (Nat.ltb_lt 0 I)) by lia. }
  rewrite Heff, Hplace. split; [done|]. split; [|split; [by eexists | done]].
  split; [done|]. split; [done|].
  intros fc [= <-]. by destruct q.
Qed.

Lemma mount_then_food_witness :
  well_kept 5 5 (SnakeGame.mount 5 5 SnakeGame.initial)
  /\ (SnakeGame.foodEffect 5 5 (1 # 2) (SnakeGame.mount 5 5 SnakeGame.initial)).2
     = Return tt
  /\ well_kept 5 5
       (SnakeGame.foodEffect 5 5 (1 # 2) (SnakeGame.mount 5 5 SnakeGame.initial)).1
  /\ is_Some (SnakeGame.food
       (SnakeGame.foodEffect 5 5 (1 # 2) (SnakeGame.mount 5 5 SnakeGame.initial)).1)
  /\ SnakeGame.snake
       (SnakeGame.foodEffect 5 5 (1 # 2) (SnakeGame.mount 5 5 SnakeGame.initial)).1
     = [mkCoord (5 / 2) (5 / 2) SNAKE].
Proof.
  apply (mount_then_food 5 5 (1 # 2)); [done | done | lia].
Defined.

(** ** The page with an AI snake and a user snake *)

Section WithAi.

Variables I J : nat.

Lemma getPathfindingBoard_two_rectangular (cl : SnakeWithAi.State) :
  rectangular (SnakeWithAi.getPathfindingBoard I J cl).
Proof.
  intros line Hin. unfold SnakeWithAi.getPathfindingBoard in *.
  apply list_elem_of_fmap in Hin as (i & -> & Hi).
  rewrite length_map, length_seqZ. unfold cols.
  destruct I as [|I']; [by apply elem_of_nil in Hi|].
  rewrite Nat2Z.inj_succ.
  rewrite (seqZ_cons 0 (Z.succ (Z.of_nat I'))) by lia. simpl.
  by rewrite length_map, length_seqZ.
Qed.

Lemma corner_on_board (p : Pos) :
  on_board I J p -> on_board I J (Z.of_nat I - 1, Z.of_nat J - 1).
Proof. unfold on_board. simpl. lia. Qed.

(** [updateBoard] changes the board only. *)
Lemma updateBoard_fields (cl st : SnakeWithAi.State) :
  SnakeWithAi.snake (SnakeWithAi.updateBoard I J cl st).1 = SnakeWithAi.snake st
  /\ SnakeWithAi.userSnake (SnakeWithAi.updateBoard I J cl st).1
     = SnakeWithAi.userSnake st
  /\ SnakeWithAi.food (SnakeWithAi.updateBoard I J cl st).1 = SnakeWithAi.food st
  /\ SnakeWithAi.aiDirection (SnakeWithAi.updateBoard I J cl st).1
     = SnakeWithAi.aiDirection st
  /\ SnakeWithAi.userDirection (SnakeWithAi.updateBoard I J cl st).1
     = SnakeWithAi.userDirection st
  /\ SnakeWithAi.console (SnakeWithAi.updateBoard I J cl st).1
     = SnakeWithAi.console st.
Proof.
  unfold SnakeWithAi.updateBoard.
  destruct (paintAll _ (SnakeWithAi.snake cl) _) as [b1|]; [|done].
  destruct (paintAll b1 _ _) as [b2|]; [|done].
  destruct (SnakeWithAi.food cl) as [fc|]; [|done].
  by destruct (paint b2 _ _ _).
Qed.

(** What [updateBoard] paints, for bodies and food on the board. *)
Lemma updateBoard_shows (cl st : SnakeWithAi.State) :
  Forall (fun seg => on_board I J (pos_of seg)) (SnakeWithAi.snake cl) ->
  Forall (fun seg => on_board I J (pos_of seg)) (SnakeWithAi.userSnake cl) ->
  (forall fc, SnakeWithAi.food cl = Some fc -> on_board I J (pos_of fc)) ->
  exists b,
    SnakeWithAi.updateBoard I J cl st = (SnakeWithAi.setBoard b st, Return tt)
    /\ well_sized I J b
    /\ forall p, on_board I J p ->
         type_at b p
         = Some (if is_food (SnakeWithAi.food cl) p then FOOD
                 else if covers (SnakeWithAi.userSnake cl) p then USER_SNAKE
                 else if covers (SnakeWithAi.snake cl) p then AI_SNAKE
                 else EMPTY).
Proof.
  intros Hai Huser Hfood. unfold SnakeWithAi.updateBoard.
  destruct (paintAll_shows I J (emptyBoard I J) (SnakeWithAi.snake cl) AI_SNAKE
              (emptyBoard_well_sized I J) Hai) as (b1 & -> & Hsize1 & Hshow1).
  destruct (paintAll_shows I J b1 (SnakeWithAi.userSnake cl) USER_SNAKE
              Hsize1 Huser) as (b2 & -> & Hsize2 & Hshow2).
  assert (Hs2 : forall p, on_board I J p ->
            type_at b2 p
            = Some (if covers (SnakeWithAi.userSnake cl) p then USER_SNAKE
                    else if covers (SnakeWithAi.snake cl) p then AI_SNAKE
                    else EMPTY)).
  { intros p Hp. rewrite (Hshow2 p Hp), (Hshow1 p Hp).
    unfold type_at. rewrite (emptyBoard_cell I J p Hp). simpl.
    by destruct (covers (SnakeWithAi.userSnake cl) p),
                (covers (SnakeWithAi.snake cl) p). }
  destruct (SnakeWithAi.food cl) as [fc|] eqn:Hfc.
  - destruct (paint_shows I J b2 (row fc) (col fc) FOOD Hsize2 (Hfood fc eq_refl))
      as (b3 & -> & Hsize3 & Hshow3).
    exists b3. split; [done|]. split; [done|]. intros p Hp.
    rewrite (Hshow3 p Hp), (Hs2 p Hp). unfold is_food.
    by destruct ((row fc =? p.1) && (col fc =? p.2)).
  - exists b2. split; [done|]. split; [done|]. intros p Hp.
    by rewrite (Hs2 p Hp).
Qed.

(** A move of one snake leaves the other snake and both headings alone. *)
Lemma moveAiSnake_fields (cl : SnakeWithAi.State) (d : Direction)
    (st : SnakeWithAi.State) :
  SnakeWithAi.userSnake (SnakeWithAi.moveAiSnake I J cl d st)
  = SnakeWithAi.userSnake st
  /\ SnakeWithAi.aiDirection (SnakeWithAi.moveAiSnake I J cl d st)
     = SnakeWithAi.aiDirection st
  /\ SnakeWithAi.userDirection (SnakeWithAi.moveAiSnake I J cl d st)
     = SnakeWithAi.userDirection st.
Proof.
  unfold SnakeWithAi.moveAiSnake.
  destruct (SnakeWithAi.snake cl); [done|].
  destruct (SnakeGame.outside _ _ _ _); [done|].
  destruct (_ || _); [done|]. by destruct (SnakeGame.eats _ _).
Qed.

Lemma moveUserSnake_fields (cl : SnakeWithAi.State) (d : Direction)
    (st : SnakeWithAi.State) :
  SnakeWithAi.snake (SnakeWithAi.moveUserSnake I J cl d st)
  = SnakeWithAi.snake st
  /\ SnakeWithAi.aiDirection (SnakeWithAi.moveUserSnake I J cl d st)
     = SnakeWithAi.aiDirection st
  /\ SnakeWithAi.userDirection (SnakeWithAi.moveUserSnake I J cl d st)
     = SnakeWithAi.userDirection st.
Proof.
  unfold SnakeWithAi.moveUserSnake.
  destruct (SnakeWithAi.userSnake cl); [done|].
  destruct (SnakeGame.outside _ _ _ _); [done|].
  destruct (_ || _); [done|]. by destruct (SnakeGame.eats _ _).
Qed.

Lemma collides_false (newHead : Coord) (own other : list Coord) :
  (pos_of newHead ∉ map pos_of own) -> (pos_of newHead ∉ map pos_of other) ->
  existsb (at_pos (row newHead) (col newHead)) own
  || existsb (at_pos (row newHead) (col newHead)) other = false.
Proof.
  intros Hown Hother. apply orb_false_iff.
  split; apply not_true_is_false; intros H; by apply existsb_at_pos in H.
Qed.

Lemma collides_false_inv (newHead : Coord) (own other : list Coord) :
  existsb (at_pos (row newHead) (col newHead)) own
  || existsb (at_pos (row newHead) (col newHead)) other = false ->
  pos_of newHead ∉ map pos_of own.
Proof.
  intros H Hin. apply existsb_at_pos in Hin. by rewrite Hin in H.
Qed.

Lemma moveAiSnake_advance (cl : SnakeWithAi.State) (d : Direction)
    (st : SnakeWithAi.State) (head : Coord) (tl : list Coord) :
  SnakeWithAi.snake cl = head :: tl ->
  on_board I J (shift (pos_of head) d) ->
  (shift (pos_of head) d ∉ map pos_of (head :: tl)) ->
  (shift (pos_of head) d ∉ map pos_of (SnakeWithAi.userSnake cl)) ->
  let newHead := SnakeGame.advance head d AI_SNAKE in
  SnakeWithAi.snake (SnakeWithAi.moveAiSnake I J cl d st)
  = newHead :: (if SnakeGame.eats (SnakeWithAi.food cl) newHead
                then head :: tl else SnakeGame.dropTail (head :: tl))
  /\ SnakeWithAi.console (SnakeWithAi.moveAiSnake I J cl d st)
     = SnakeWithAi.console st.
Proof.
  intros Hs Hon Hown Hother newHead. unfold SnakeWithAi.moveAiSnake.
  rewrite Hs. fold newHead.
  apply (outside_on_board I J) in Hon.
  change (SnakeGame.outside I J (row newHead) (col newHead) = false) in Hon.
  rewrite Hon, (collides_false newHead (head :: tl) _ Hown Hother).
  by destruct (SnakeGame.eats _ _).
Qed.

Lemma moveUserSnake_advance (cl : SnakeWithAi.State) (d : Direction)
    (st : SnakeWithAi.State) (head : Coord) (tl : list Coord) :
  SnakeWithAi.userSnake cl = head :: tl ->
  on_board I J (shift (pos_of head) d) ->
  (shift (pos_of head) d ∉ map pos_of (head :: tl)) ->
  (shift (pos_of head) d ∉ map pos_of (SnakeWithAi.snake cl)) ->
  let newHead := SnakeGame.advance head d USER_SNAKE in
  SnakeWithAi.userSnake (SnakeWithAi.moveUserSnake I J cl d st)
  = newHead :: (if SnakeGame.eats (SnakeWithAi.food cl) newHead
                then head :: tl else SnakeGame.dropTail (head :: tl))
  /\ SnakeWithAi.console (SnakeWithAi.moveUserSnake I J cl d st)
     = SnakeWithAi.console st.
Proof.
  intros Hs Hon Hown Hother newHead. unfold SnakeWithAi.moveUserSnake.
  rewrite Hs. fold newHead.
  apply (outside_on_board I J) in Hon.
  change (SnakeGame.outside I J (row newHead) (col newHead) = false) in Hon.
  rewrite Hon, (collides_false newHead (head :: tl) _ Hown Hother).
  by destruct (SnakeGame.eats _ _).
Qed.

(** Whatever a move does to a body, the body stays as the page keeps it. *)
Lemma moveAiSnake_keeps (cl : SnakeWithAi.State) (d : Direction)
    (st : SnakeWithAi.State) :
  kept I J (SnakeWithAi.snake cl) ->
  SnakeWithAi.snake st = SnakeWithAi.snake cl ->
  kept I J (SnakeWithAi.snake (SnakeWithAi.moveAiSnake I J cl d st)).
Proof.
  intros Hkept Hsame. unfold SnakeWithAi.moveAiSnake.
  destruct (SnakeWithAi.snake cl) as [|head tl] eqn:Hs; [by rewrite Hsame|].
  set (newHead := SnakeGame.advance head d AI_SNAKE).
  assert (Hcentre : kept I J [mkCoord (Z.of_nat I / 2) (Z.of_nat J / 2) AI_SNAKE]).
  { apply kept_single. destruct Hkept as [_ Hall].
    apply Forall_cons in Hall as [Hhead _]. by eapply centre_on_board. }
  destruct (SnakeGame.outside I J (row newHead) (col newHead)) eqn:Hout;
    [done|].
  destruct (_ || _) eqn:Hhit; [done|].
  apply (outside_on_board I J) in Hout. apply collides_false_inv in Hhit.
  pose proof (kept_advance I J head tl d AI_SNAKE
                (SnakeGame.eats (SnakeWithAi.food cl) newHead)
                Hkept Hout Hhit) as Hnew.
  by destruct (SnakeGame.eats _ _).
Qed.

Lemma moveUserSnake_keeps (cl : SnakeWithAi.State) (d : Direction)
    (st : SnakeWithAi.State) :
  kept I J (SnakeWithAi.userSnake cl) ->
  SnakeWithAi.userSnake st = SnakeWithAi.userSnake cl ->
  kept I J (SnakeWithAi.userSnake (SnakeWithAi.moveUserSnake I J cl d st)).
Proof.
  intros Hkept Hsame. unfold SnakeWithAi.moveUserSnake.
  destruct (SnakeWithAi.userSnake cl) as [|head tl] eqn:Hs; [by rewrite Hsame|].
  set (newHead := SnakeGame.advance head d USER_SNAKE).
  assert (Hcorner :
    kept I J [mkCoord (Z.of_nat I - 1) (Z.of_nat J - 1) USER_SNAKE]).
  { apply kept_single. destruct Hkept as [_ Hall].
    apply Forall_cons in Hall as [Hhead _]. by eapply corner_on_board. }
  destruct (SnakeGame.outside I J (row newHead) (col newHead)) eqn:Hout;
    [done|].
  destruct (_ || _) eqn:Hhit; [done|].
  apply (outside_on_board I J) in Hout. apply collides_false_inv in Hhit.
  pose proof (kept_advance I J head tl d USER_SNAKE
                (SnakeGame.eats (SnakeWithAi.food cl) newHead)
                Hkept Hout Hhit) as Hnew.
  by destruct (SnakeGame.eats _ _).
Qed.

Lemma nextAIDir_returns (st : SnakeWithAi.State) (fc : Coord) :
  SnakeWithAi.food st = Some fc ->
  exists answer, SnakeWithAi.nextAIDir I J st = Return answer.
Proof.
  intros Hfood. unfold SnakeWithAi.nextAIDir. rewrite Hfood.
  destruct (SnakeWithAi.snake st) as [|head tl]; [by eexists|].
  destruct (planner_cases (SnakeWithAi.getPathfindingBoard I J st)
              head fc tl (getPathfindingBoard_two_rectangular st))
    as [(Hr & _)|[(Hr & _)|(d & path & rest & Hr & _)]]; rewrite Hr; by eexists.
Qed.

End WithAi.

(** X17.  On the page with two snakes, while a walk leads from the AI
    snake's head to the food in the snapshot and the food lies under
    neither snake, a tick never resets the AI snake: its heading becomes
    the planner's and its head advances onto the first cell of a
    shortest walk to the food, whatever the user's snake does in the
    same tick. *)
Theorem with_ai_tick_follows_shortest_path
    (I J : nat) (st : SnakeWithAi.State) (head : Coord) (tl : list Coord)
    (fc : Coord) (l : list Pos) :
  SnakeWithAi.snake st = head :: tl ->
  SnakeWithAi.food st = Some fc ->
  (pos_of fc ∉ map pos_of (head :: tl)) ->
  (pos_of fc ∉ map pos_of (SnakeWithAi.userSnake st)) ->
  walk (SnakeWithAi.getPathfindingBoard I J st) (pos_of head) l (pos_of fc) ->
  exists d rest,
    shortest (SnakeWithAi.getPathfindingBoard I J st)
             (pos_of head) (shift (pos_of head) d :: rest) (pos_of fc)
    /\ SnakeWithAi.aiDirection (SnakeWithAi.tick I J st).1 = d
    /\ SnakeWithAi.snake (SnakeWithAi.tick I J st).1
       = SnakeGame.advance head d AI_SNAKE
         :: (if SnakeGame.eats (Some fc) (SnakeGame.advance head d AI_SNAKE)
             then head :: tl else SnakeGame.dropTail (head :: tl)).
Proof.
  intros Hsnake Hfood Hunder Hunder' Hwalk.
  destruct (planner_cases (SnakeWithAi.getPathfindingBoard I J st)
              head fc tl (getPathfindingBoard_two_rectangular I J st))
    as [(_ & _ & Hno)|[(_ & Heq & _)|(d & path & rest & Hr & _ & _ & Hshort)]].
  - by destruct (Hno l).
  - destruct Hunder. rewrite <- Heq. apply list_elem_of_here.
  - exists d, rest. split; [done|].
    destruct Hshort as [(_ & Hfree & _) _].
    apply getPathfindingBoard_passable_two in Hfree as [Hon Hfree].
    rewrite Hsnake, Hfood in Hfree.
    assert ((shift (pos_of head) d ∉ map pos_of (head :: tl))
            /\ (shift (pos_of head) d ∉ map pos_of (SnakeWithAi.userSnake st)))
      as [Hown Hother].
    { destruct Hfree as [(fc' & [= <-] & <-)|Hfree]; done. }
    unfold SnakeWithAi.tick, SnakeWithAi.nextAIDir.
    rewrite Hfood, Hsnake, Hr. cbv zeta.
    destruct (updateBoard_fields I J st
                (SnakeWithAi.moveUserSnake I J st (SnakeWithAi.userDirection st)
                   (SnakeWithAi.moveAiSnake I J st d
                      (SnakeWithAi.setAiDirection d st))))
      as (-> & _ & _ & -> & _).
    destruct (moveUserSnake_fields I J st (SnakeWithAi.userDirection st)
                (SnakeWithAi.moveAiSnake I J st d
                   (SnakeWithAi.setAiDirection d st)))
      as (-> & -> & _).
    destruct (moveAiSnake_fields I J st d (SnakeWithAi.setAiDirection d st))
      as (_ & -> & _).
    destruct (moveAiSnake_advance I J st d (SnakeWithAi.setAiDirection d st)
                head tl Hsnake Hon Hown Hother) as [-> _].
    by rewrite Hfood.
Qed.

Lemma with_ai_tick_follows_shortest_path_witness :
  exists d rest,
    shortest
      (SnakeWithAi.getPathfindingBoard 5 5
         (SnakeWithAi.mkState [] [mkCoord 2 2 AI_SNAKE] [mkCoord 4 4 USER_SNAKE]
            (Some (mkCoord 2 4 FOOD)) UP LEFT []))
      (2, 2) (shift (2, 2) d :: rest) (2, 4)
    /\ SnakeWithAi.aiDirection
         (SnakeWithAi.tick 5 5
            (SnakeWithAi.mkState [] [mkCoord 2 2 AI_SNAKE]
               [mkCoord 4 4 USER_SNAKE] (Some (mkCoord 2 4 FOOD)) UP LEFT [])).1
       = d
    /\ SnakeWithAi.snake
         (SnakeWithAi.tick 5 5
            (SnakeWithAi.mkState [] [mkCoord 2 2 AI_SNAKE]
               [mkCoord 4 4 USER_SNAKE] (Some (mkCoord 2 4 FOOD)) UP LEFT [])).1
       = SnakeGame.advance (mkCoord 2 2 AI_SNAKE) d AI_SNAKE
         :: (if SnakeGame.eats (Some (mkCoord 2 4 FOOD))
                  (SnakeGame.advance (mkCoord 2 2 AI_SNAKE) d AI_SNAKE)
             then [mkCoord 2 2 AI_SNAKE]
             else SnakeGame.dropTail [mkCoord 2 2 AI_SNAKE]).
Proof.
  apply (with_ai_tick_follows_shortest_path 5 5
           (SnakeWithAi.mkState [] [mkCoord 2 2 AI_SNAKE]
              [mkCoord 4 4 USER_SNAKE] (Some (mkCoord 2 4 FOOD)) UP LEFT [])
           (mkCoord 2 2 AI_SNAKE) [] (mkCoord 2 4 FOOD) [(2, 3); (2, 4)]).
  - reflexivity.
  - reflexivity.
  - simpl. intros Hin. apply list_elem_of_singleton in Hin. discriminate.
  - simpl. intros Hin. apply list_elem_of_singleton in Hin. discriminate.
  - unfold adjacent, passable. vm_compute. repeat split; congruence.
Defined.

(** X18.  The page with two snakes tests each new head against the
    bodies as they were before the tick, not against the other new head:
    when both heads step onto the same free cell of the board, both moves
    are carried out, nothing is logged or reset, and the two heads end on
    one cell. *)
Theorem with_ai_heads_may_meet
    (I J : nat) (cl st : SnakeWithAi.State) (d1 d2 : Direction)
    (h1 : Coord) (t1 : list Coord) (h2 : Coord) (t2 : list Coord) :
  SnakeWithAi.snake cl = h1 :: t1 ->
  SnakeWithAi.userSnake cl = h2 :: t2 ->
  shift (pos_of h1) d1 = shift (pos_of h2) d2 ->
  on_board I J (shift (pos_of h1) d1) ->
  (shift (pos_of h1) d1 ∉ map pos_of (h1 :: t1)) ->
  (shift (pos_of h1) d1 ∉ map pos_of (h2 :: t2)) ->
  exists n1 r1 n2 r2,
    SnakeWithAi.snake
      (SnakeWithAi.moveUserSnake I J cl d2 (SnakeWithAi.moveAiSnake I J cl d1 st))
    = n1 :: r1
    /\ SnakeWithAi.userSnake
         (SnakeWithAi.moveUserSnake I J cl d2
            (SnakeWithAi.moveAiSnake I J cl d1 st))
       = n2 :: r2
    /\ pos_of n1 = shift (pos_of h1) d1
    /\ pos_of n2 = shift (pos_of h1) d1
    /\ SnakeWithAi.console
         (SnakeWithAi.moveUserSnake I J cl d2
            (SnakeWithAi.moveAiSnake I J cl d1 st))
       = SnakeWithAi.console st.
Proof.
  intros Hs1 Hs2 Hmeet Hon Hfree1 Hfree2.
  destruct (moveAiSnake_advance I J cl d1 st h1 t1 Hs1 Hon Hfree1)
    as [Hai Hlog1]; [by rewrite Hs2|].
  destruct (moveUserSnake_advance I J cl d2
              (SnakeWithAi.moveAiSnake I J cl d1 st) h2 t2 Hs2)
    as [Huser Hlog2]; [by rewrite <- Hmeet..| by rewrite Hs1, <- Hmeet |].
  destruct (moveUserSnake_fields I J cl d2
              (SnakeWithAi.moveAiSnake I J cl d1 st)) as (Hkeep & _).
  eexists _, _, _, _.
  split; [by rewrite Hkeep, Hai|]. split; [exact Huser|].
  split; [done|]. split; [by rewrite Hmeet|]. by rewrite Hlog2, Hlog1.
Qed.

Lemma with_ai_heads_may_meet_witness :
  exists n1 r1 n2 r2,
    SnakeWithAi.snake
      (SnakeWithAi.moveUserSnake 5 5
         (SnakeWithAi.mkState [] [mkCoord 2 1 AI_SNAKE] [mkCoord 2 3 USER_SNAKE]
            None RIGHT LEFT [])
         LEFT
         (SnakeWithAi.moveAiSnake 5 5
            (SnakeWithAi.mkState [] [mkCoord 2 1 AI_SNAKE]
               [mkCoord 2 3 USER_SNAKE] None RIGHT LEFT [])
            RIGHT
            (SnakeWithAi.mkState [] [mkCoord 2 1 AI_SNAKE]
               [mkCoord 2 3 USER_SNAKE] None RIGHT LEFT [])))
    = n1 :: r1
    /\ SnakeWithAi.userSnake
         (SnakeWithAi.moveUserSnake 5 5
            (SnakeWithAi.mkState [] [mkCoord 2 1 AI_SNAKE]
               [mkCoord 2 3 USER_SNAKE] None RIGHT LEFT [])
            LEFT
            (SnakeWithAi.moveAiSnake 5 5
               (SnakeWithAi.mkState [] [mkCoord 2 1 AI_SNAKE]
                  [mkCoord 2 3 USER_SNAKE] None RIGHT LEFT [])
               RIGHT
               (SnakeWithAi.mkState [] [mkCoord 2 1 AI_SNAKE]
                  [mkCoord 2 3 USER_SNAKE] None RIGHT LEFT [])))
       = n2 :: r2
    /\ pos_of n1 = shift (2, 1) RIGHT
    /\ pos_of n2 = shift (2, 1) RIGHT
    /\ SnakeWithAi.console
         (SnakeWithAi.moveUserSnake 5 5
            (SnakeWithAi.mkState [] [mkCoord 2 1 AI_SNAKE]
               [mkCoord 2 3 USER_SNAKE] None RIGHT LEFT [])
            LEFT
            (SnakeWithAi.moveAiSnake 5 5
               (SnakeWithAi.mkState [] [mkCoord 2 1 AI_SNAKE]
                  [mkCoord 2 3 USER_SNAKE] None RIGHT LEFT [])
               RIGHT
               (SnakeWithAi.mkState [] [mkCoord 2 1 AI_SNAKE]
                  [mkCoord 2 3 USER_SNAKE] None RIGHT LEFT [])))
       = [].
Proof.
  apply (with_ai_heads_may_meet 5 5
           (SnakeWithAi.mkState [] [mkCoord 2 1 AI_SNAKE]
              [mkCoord 2 3 USER_SNAKE] None RIGHT LEFT [])
           (SnakeWithAi.mkState [] [mkCoord 2 1 AI_SNAKE]
              [mkCoord 2 3 USER_SNAKE] None RIGHT LEFT [])
           RIGHT LEFT (mkCoord 2 1 AI_SNAKE) [] (mkCoord 2 3 USER_SNAKE) []).
  - reflexivity.
  - reflexivity.
  - reflexivity.
  - unfold on_board. simpl. lia.
  - simpl. intros Hin. apply list_elem_of_singleton in Hin. discriminate.
  - simpl. intros Hin. apply list_elem_of_singleton in Hin. discriminate.
Defined.

(** The tick of the page with two snakes, once the planner has
    answered. *)
Lemma with_ai_tick_unfold (I J : nat) (st : SnakeWithAi.State)
    (answer : option Direction) :
  SnakeWithAi.nextAIDir I J st = Return answer ->
  SnakeWithAi.tick I J st
  = SnakeWithAi.updateBoard I J st
      (SnakeWithAi.moveUserSnake I J st (SnakeWithAi.userDirection st)
         (SnakeWithAi.moveAiSnake I J st
            (default (SnakeWithAi.aiDirection st) answer)
            (SnakeWithAi.setAiDirection
               (default (SnakeWithAi.aiDirection st) answer) st))).
Proof.
  intros Hret. unfold SnakeWithAi.tick. rewrite Hret. by destruct answer.
Qed.

(** X19.  On the page with two snakes the board a tick leaves shows the
    bodies and the food as they were before the tick, not as the tick
    leaves them: the food cell as FOOD, else the cells of the user's
    snake as USER_SNAKE, else those of the AI snake as AI_SNAKE, every
    other cell EMPTY.  The picture is one tick behind the state. *)
Theorem with_ai_board_shows_previous_state
    (I J : nat) (st : SnakeWithAi.State) (fc : Coord) :
  SnakeWithAi.food st = Some fc ->
  on_board I J (pos_of fc) ->
  Forall (fun seg => on_board I J (pos_of seg)) (SnakeWithAi.snake st) ->
  Forall (fun seg => on_board I J (pos_of seg)) (SnakeWithAi.userSnake st) ->
  (SnakeWithAi.tick I J st).2 = Return tt
  /\ well_sized I J (SnakeWithAi.board (SnakeWithAi.tick I J st).1)
  /\ forall p, on_board I J p ->
       type_at (SnakeWithAi.board (SnakeWithAi.tick I J st).1) p
       = Some (if is_food (SnakeWithAi.food st) p then FOOD
               else if covers (SnakeWithAi.userSnake st) p then USER_SNAKE
               else if covers (SnakeWithAi.snake st) p then AI_SNAKE
               else EMPTY).
Proof.
  intros Hfood Hon Hai Huser.
  destruct (nextAIDir_returns I J st fc Hfood) as [answer Hret].
  rewrite (with_ai_tick_unfold I J st answer Hret).
  destruct (updateBoard_shows I J st
              (SnakeWithAi.moveUserSnake I J st (SnakeWithAi.userDirection st)
                 (SnakeWithAi.moveAiSnake I J st
                    (default (SnakeWithAi.aiDirection st) answer)
                    (SnakeWithAi.setAiDirection
                       (default (SnakeWithAi.aiDirection st) answer) st)))
              Hai Huser) as (b & -> & Hsize & Hshow).
  { intros fc' Hfc'. rewrite Hfood in Hfc'. by injection Hfc' as <-. }
  done.
Qed.

Lemma with_ai_board_shows_previous_state_witness :
  (SnakeWithAi.tick 5 5
     (SnakeWithAi.mkState [] [mkCoord 2 2 AI_SNAKE] [mkCoord 4 4 USER_SNAKE]
        (Some (mkCoord 2 4 FOOD)) UP LEFT [])).2 = Return tt
  /\ well_sized 5 5
       (SnakeWithAi.board
          (SnakeWithAi.tick 5 5
             (SnakeWithAi.mkState [] [mkCoord 2 2 AI_SNAKE]
                [mkCoord 4 4 USER_SNAKE] (Some (mkCoord 2 4 FOOD)) UP LEFT [])).1)
  /\ forall p, on_board 5 5 p ->
       type_at
         (SnakeWithAi.board
            (SnakeWithAi.tick 5 5
               (SnakeWithAi.mkState [] [mkCoord 2 2 AI_SNAKE]
                  [mkCoord 4 4 USER_SNAKE] (Some (mkCoord 2 4 FOOD))
                  UP LEFT [])).1) p
       = Some (if is_food (Some (mkCoord 2 4 FOOD)) p then FOOD
               else if covers [mkCoord 4 4 USER_SNAKE] p then USER_SNAKE
               else if covers [mkCoord 2 2 AI_SNAKE] p then AI_SNAKE
               else EMPTY).
Proof.
  apply (with_ai_board_shows_previous_state 5 5
           (SnakeWithAi.mkState [] [mkCoord 2 2 AI_SNAKE]
              [mkCoord 4 4 USER_SNAKE] (Some (mkCoord 2 4 FOOD)) UP LEFT [])
           (mkCoord 2 4 FOOD)).
  - reflexivity.
  - unfold on_board. simpl. lia.
  - repeat constructor; simpl; lia.
  - repeat constructor; simpl; lia.
Defined.

(** X20.  Every tick of the page with two snakes keeps each body
    duplicate-free, connected and on the board, also when a snake is
    reset (the AI snake to the centre, the user's to the last cell of
    the board) or the tick raises. *)
Theorem with_ai_tick_keeps_bodies (I J : nat) (st : SnakeWithAi.State) :
  kept I J (SnakeWithAi.snake st) ->
  kept I J (SnakeWithAi.userSnake st) ->
  kept I J (SnakeWithAi.snake (SnakeWithAi.tick I J st).1)
  /\ kept I J (SnakeWithAi.userSnake (SnakeWithAi.tick I J st).1).
Proof.
  intros Hai Huser.
  destruct (SnakeWithAi.nextAIDir I J st) as [answer| |] eqn:Hret;
    [|unfold SnakeWithAi.tick; by rewrite Hret..].
  rewrite (with_ai_tick_unfold I J st answer Hret).
  set (d := default (SnakeWithAi.aiDirection st) answer).
  destruct (updateBoard_fields I J st
              (SnakeWithAi.moveUserSnake I J st (SnakeWithAi.userDirection st)
                 (SnakeWithAi.moveAiSnake I J st d
                    (SnakeWithAi.setAiDirection d st))))
    as (-> & -> & _).
  destruct (moveUserSnake_fields I J st (SnakeWithAi.userDirection st)
              (SnakeWithAi.moveAiSnake I J st d
                 (SnakeWithAi.setAiDirection d st))) as (-> & _).
  split.
  - by apply moveAiSnake_keeps.
  - apply moveUserSnake_keeps; [done|].
    by destruct (moveAiSnake_fields I J st d (SnakeWithAi.setAiDirection d st))
      as (-> & _).
Qed.

Lemma with_ai_tick_keeps_bodies_witness :
  kept 5 5
    (SnakeWithAi.snake
       (SnakeWithAi.tick 5 5
          (SnakeWithAi.mkState [] [mkCoord 2 2 AI_SNAKE]
             [mkCoord 4 4 USER_SNAKE] (Some (mkCoord 2 4 FOOD)) UP RIGHT [])).1)
  /\ kept 5 5
       (SnakeWithAi.userSnake
          (SnakeWithAi.tick 5 5
             (SnakeWithAi.mkState [] [mkCoord 2 2 AI_SNAKE]
                [mkCoord 4 4 USER_SNAKE] (Some (mkCoord 2 4 FOOD))
                UP RIGHT [])).1).
Proof.
  apply (with_ai_tick_keeps_bodies 5 5
           (SnakeWithAi.mkState [] [mkCoord 2 2 AI_SNAKE]
              [mkCoord 4 4 USER_SNAKE] (Some (mkCoord 2 4 FOOD)) UP RIGHT [])).
  - apply kept_single. unfold on_board. simpl. lia.
  - apply kept_single. unfold on_board. simpl. lia.
Defined.

(** X21.  With both bodies on the board, a tick of the page with two
    snakes raises in one case only: there is an AI snake but no food,
    and then nothing has been updated, the user's snake included.  With
    food on the board, or without an AI snake, it returns normally. *)
Theorem with_ai_tick_raises_only_without_food
    (I J : nat) (st : SnakeWithAi.State) :
  Forall (fun seg => on_board I J (pos_of seg)) (SnakeWithAi.snake st) ->
  Forall (fun seg => on_board I J (pos_of seg)) (SnakeWithAi.userSnake st) ->
  (forall fc, SnakeWithAi.food st = Some fc -> on_board I J (pos_of fc)) ->
  match SnakeWithAi.food st, SnakeWithAi.snake st with
  | None, _ :: _ => SnakeWithAi.tick I J st = (st, Throw)
  | _, _ => (SnakeWithAi.tick I J st).2 = Return tt
  end.
Proof.
  intros Hai Huser Hfood.
  assert (Hok : forall answer,
            SnakeWithAi.nextAIDir I J st = Return answer ->
            (SnakeWithAi.tick I J st).2 = Return tt).
  { intros answer Hret. rewrite (with_ai_tick_unfold I J st answer Hret).
    by destruct (updateBoard_shows I J st
                   (SnakeWithAi.moveUserSnake I J st (SnakeWithAi.userDirection st)
                      (SnakeWithAi.moveAiSnake I J st
                         (default (SnakeWithAi.aiDirection st) answer)
                         (SnakeWithAi.setAiDirection
                            (default (SnakeWithAi.aiDirection st) answer) st)))
                   Hai Huser Hfood) as (b & -> & _). }
  destruct (SnakeWithAi.food st) as [fc|] eqn:Hfd.
  - destruct (nextAIDir_returns I J st fc Hfd) as [answer Hret].
    specialize (Hok answer Hret). by destruct (SnakeWithAi.snake st).
  - destruct (SnakeWithAi.snake st) as [|head tl] eqn:Hs.
    + apply (Hok None). unfold SnakeWithAi.nextAIDir. by rewrite Hfd, Hs.
    + unfold SnakeWithAi.tick, SnakeWithAi.nextAIDir. by rewrite Hfd, Hs.
Qed.

Lemma with_ai_tick_raises_only_without_food_witness :
  SnakeWithAi.tick 5 5
    (SnakeWithAi.mkState [] [mkCoord 2 2 AI_SNAKE] [mkCoord 4 4 USER_SNAKE]
       None UP LEFT [])
  = (SnakeWithAi.mkState [] [mkCoord 2 2 AI_SNAKE] [mkCoord 4 4 USER_SNAKE]
       None UP LEFT [], Throw).
Proof.
  apply (with_ai_tick_raises_only_without_food 5 5
           (SnakeWithAi.mkState [] [mkCoord 2 2 AI_SNAKE]
              [mkCoord 4 4 USER_SNAKE] None UP LEFT [])).
  - repeat constructor; simpl; lia.
  - repeat constructor; simpl; lia.
  - intros fc [=].
Defined.

(** ** The two-player page *)

Section TwoPlayers.

Local Abbreviation ROWS := SnakeTwo.BOARD_ROWS.
Local Abbreviation COLS := SnakeTwo.BOARD_COLS.

Lemma retype_two_idem (t : SnakeTwo.CellType) (cell : SnakeTwo.Coord) :
  SnakeTwo.retype t (SnakeTwo.retype t cell) = SnakeTwo.retype t cell.
Proof. reflexivity. Qed.

Lemma covers_two_elem_of (body : list SnakeTwo.Coord) (p : Pos) :
  covers_two body p = true <-> p ∈ map SnakeTwo.pos_of body.
Proof. unfold covers_two. rewrite existsb_at_pos_two. by destruct p. Qed.

Lemma two_emptyBoard_sized : sized ROWS COLS SnakeTwo.emptyBoard.
Proof.
  apply (grid_sized ROWS COLS (fun r c => SnakeTwo.mkCoord r c SnakeTwo.EMPTY)).
Qed.

Lemma two_emptyBoard_cell (p : Pos) :
  on_board ROWS COLS p ->
  lookup2 SnakeTwo.emptyBoard p
  = Some (SnakeTwo.mkCoord p.1 p.2 SnakeTwo.EMPTY).
Proof.
  apply (grid_lookup ROWS COLS
           (fun r c => SnakeTwo.mkCoord r c SnakeTwo.EMPTY)).
Qed.

Lemma two_paint_shows (b : list (list SnakeTwo.Coord)) (r c : Z)
    (t : SnakeTwo.CellType) :
  sized ROWS COLS b -> on_board ROWS COLS (r, c) ->
  exists b',
    SnakeTwo.paint b r c t = Some b' /\ sized ROWS COLS b'
    /\ forall p, on_board ROWS COLS p ->
                 type_at_two b' p
                 = if (r =? p.1) && (c =? p.2) then Some t else type_at_two b p.
Proof.
  intros Hsize Hon.
  destruct (assignAt_on_board (SnakeTwo.retype t) ROWS COLS b r c Hsize Hon)
    as (b' & Hb' & Hsize' & Hlook).
  exists b'. split; [done|]. split; [done|]. intros p Hp.
  unfold type_at_two. rewrite Hlook.
  destruct (lookup2_on_board ROWS COLS b p Hsize Hp) as [cell Hcell].
  rewrite Hcell. destruct p as [i j]. simpl.
  case_bool_decide as Heq.
  - injection Heq as -> ->. by rewrite !Z.eqb_refl.
  - destruct ((r =? i) && (c =? j)) eqn:Hrc; [|done].
    apply andb_true_iff in Hrc as [->%Z.eqb_eq ->%Z.eqb_eq]. done.
Qed.

Lemma two_paintAll_shows (b : list (list SnakeTwo.Coord))
    (segments : list SnakeTwo.Coord) (t : SnakeTwo.CellType) :
  sized ROWS COLS b ->
  Forall (fun seg => on_board ROWS COLS (SnakeTwo.pos_of seg)) segments ->
  exists b',
    SnakeTwo.paintAll b segments t = Some b' /\ sized ROWS COLS b'
    /\ forall p, on_board ROWS COLS p ->
                 type_at_two b' p
                 = if covers_two segments p then Some t else type_at_two b p.
Proof.
  intros Hsize Hall.
  assert (Hall' : Forall (on_board ROWS COLS) (map SnakeTwo.pos_of segments))
    by (by rewrite Forall_fmap).
  destruct (assignAll_on_board (SnakeTwo.retype t) ROWS COLS
              (retype_two_idem t) (map SnakeTwo.pos_of segments) b Hsize Hall')
    as (b' & Hb' & Hsize' & Hlook).
  exists b'. split; [done|]. split; [done|].
  intros p Hp. unfold type_at_two. rewrite Hlook.
  destruct (lookup2_on_board ROWS COLS b p Hsize Hp) as [cell Hcell].
  rewrite Hcell.
  destruct (covers_two segments p) eqn:Hcov.
  - apply covers_two_elem_of in Hcov. by rewrite bool_decide_eq_true_2.
  - rewrite bool_decide_eq_false_2; [done|].
    rewrite <- covers_two_elem_of. by rewrite Hcov.
Qed.

(** [updateBoard] changes the board only. *)
Lemma two_updateBoard_fields (cl st : SnakeTwo.State) :
  SnakeTwo.snakeOne (SnakeTwo.updateBoard cl st).1 = SnakeTwo.snakeOne st
  /\ SnakeTwo.snakeTwo (SnakeTwo.updateBoard cl st).1 = SnakeTwo.snakeTwo st
  /\ SnakeTwo.food (SnakeTwo.updateBoard cl st).1 = SnakeTwo.food st
  /\ SnakeTwo.directionOne (SnakeTwo.updateBoard cl st).1
     = SnakeTwo.directionOne st
  /\ SnakeTwo.directionTwo (SnakeTwo.updateBoard cl st).1
     = SnakeTwo.directionTwo st.
Proof.
  unfold SnakeTwo.updateBoard.
  destruct (SnakeTwo.paintAll _ (SnakeTwo.snakeOne cl) _) as [b1|]; [|done].
  destruct (SnakeTwo.paintAll b1 _ _) as [b2|]; [|done].
  destruct (SnakeTwo.food cl) as [fc|]; [|done].
  by destruct (SnakeTwo.paint b2 _ _ _).
Qed.

Lemma two_updateBoard_shows (cl st : SnakeTwo.State) :
  Forall (fun seg => on_board ROWS COLS (SnakeTwo.pos_of seg))
         (SnakeTwo.snakeOne cl) ->
  Forall (fun seg => on_board ROWS COLS (SnakeTwo.pos_of seg))
         (SnakeTwo.snakeTwo cl) ->
  (forall fc, SnakeTwo.food cl = Some fc ->
              on_board ROWS COLS (SnakeTwo.pos_of fc)) ->
  exists b,
    SnakeTwo.updateBoard cl st = (SnakeTwo.setBoard b st, Return tt)
    /\ sized ROWS COLS b
    /\ forall p, on_board ROWS COLS p ->
         type_at_two b p
         = Some (if is_food_two (SnakeTwo.food cl) p then SnakeTwo.FOOD
                 else if covers_two (SnakeTwo.snakeTwo cl) p
                      then SnakeTwo.PLAYER_TWO
                 else if covers_two (SnakeTwo.snakeOne cl) p
                      then SnakeTwo.PLAYER_ONE
                 else SnakeTwo.EMPTY).
Proof.
  intros Hone Htwo Hfood. unfold SnakeTwo.updateBoard.
  destruct (two_paintAll_shows SnakeTwo.emptyBoard (SnakeTwo.snakeOne cl)
              SnakeTwo.PLAYER_ONE two_emptyBoard_sized Hone)
    as (b1 & -> & Hsize1 & Hshow1).
  destruct (two_paintAll_shows b1 (SnakeTwo.snakeTwo cl) SnakeTwo.PLAYER_TWO
              Hsize1 Htwo) as (b2 & -> & Hsize2 & Hshow2).
  assert (Hs2 : forall p, on_board ROWS COLS p ->
            type_at_two b2 p
            = Some (if covers_two (SnakeTwo.snakeTwo cl) p
                    then SnakeTwo.PLAYER_TWO
                    else if covers_two (SnakeTwo.snakeOne cl) p
                         then SnakeTwo.PLAYER_ONE
                    else SnakeTwo.EMPTY)).
  { intros p Hp. rewrite (Hshow2 p Hp), (Hshow1 p Hp).
    unfold type_at_two. rewrite (two_emptyBoard_cell p Hp). simpl.
    by destruct (covers_two (SnakeTwo.snakeTwo cl) p),
                (covers_two (SnakeTwo.snakeOne cl) p). }
  destruct (SnakeTwo.food cl) as [fc|] eqn:Hfc.
  - destruct (two_paint_shows b2 (SnakeTwo.row fc) (SnakeTwo.col fc)
                SnakeTwo.FOOD Hsize2 (Hfood fc eq_refl))
      as (b3 & -> & Hsize3 & Hshow3).
    exists b3. split; [done|]. split; [done|]. intros p Hp.
    rewrite (Hshow3 p Hp), (Hs2 p Hp). unfold is_food_two.
    by destruct ((SnakeTwo.row fc =? p.1) && (SnakeTwo.col fc =? p.2)).
  - exists b2. split; [done|]. split; [done|]. intros p Hp.
    by rewrite (Hs2 p Hp).
Qed.

(** The cells the snakes are put back on lie on the board. *)
Lemma homes_kept :
  kept_two [SnakeTwo.mkCoord (Z.of_nat ROWS / 2) 2 SnakeTwo.PLAYER_ONE]
  /\ kept_two [SnakeTwo.mkCoord (Z.of_nat ROWS / 2) (Z.of_nat COLS - 3)
                 SnakeTwo.PLAYER_TWO].
Proof.
  split; (split; [split; [apply NoDup_singleton | done]|]);
    repeat constructor; vm_compute; congruence.
Qed.

(** What [moveSnake] returns on a body the page keeps. *)
Lemma moveSnake_kept (fd : option SnakeTwo.Coord) (body : list SnakeTwo.Coord)
    (d : Direction) (t : SnakeTwo.CellType) (s : list SnakeTwo.Coord) :
  kept_two body -> SnakeTwo.moveSnake fd body d t = Some s ->
  kept_two s
  /\ match body with
     | [] => s = []
     | head :: tl =>
         exists rest, s = SnakeTwo.advance head d t :: rest
                      /\ on_board ROWS COLS (shift (SnakeTwo.pos_of head) d)
                      /\ (shift (SnakeTwo.pos_of head) d
                          ∉ map SnakeTwo.pos_of (head :: tl))
     end.
Proof.
  intros Hkept. destruct body as [|head tl].
  { simpl. by intros [= <-]. }
  unfold SnakeTwo.moveSnake.
  set (newHead := SnakeTwo.advance head d t).
  destruct (SnakeTwo.outside _ _) eqn:Hout; [done|].
  destruct (existsb _ (head :: tl)) eqn:Hself; [done|].
  apply outside_two_on_board in Hout.
  assert (Hfresh : shift (SnakeTwo.pos_of head) d
                   ∉ map SnakeTwo.pos_of (head :: tl)).
  { intros Hin. apply existsb_at_pos_two in Hin.
    change (existsb (SnakeTwo.at_pos (SnakeTwo.row newHead) (SnakeTwo.col newHead))
                    (head :: tl) = true) in Hin.
    congruence. }
  destruct Hkept as [Hok Hall]. unfold SnakeTwo.dropTail.
  rewrite take_pred_removelast.
  destruct (SnakeTwo.eats fd newHead); intros Heq; apply (inj Some) in Heq;
    subst s.
  - split; [|by eexists]. split.
    + change (map SnakeTwo.pos_of (newHead :: head :: tl))
        with (shift (SnakeTwo.pos_of head) d
              :: SnakeTwo.pos_of head :: map SnakeTwo.pos_of tl).
      by apply body_ok_grow.
    + by constructor.
  - split; [|by eexists]. split.
    + change (map SnakeTwo.pos_of (newHead :: removelast (head :: tl)))
        with (shift (SnakeTwo.pos_of head) d
              :: map SnakeTwo.pos_of (removelast (head :: tl))).
      rewrite <- removelast_map. by apply body_ok_slide.
    + constructor; [done|]. by apply Forall_removelast.
Qed.

End TwoPlayers.

(** The tick of the two-player page in one piece, once both tests of
    the new heads against the other body have answered: a snake whose
    move is refused, or whose new head lands on the other body, is put
    back home with its first heading; the other one takes its new
    body. *)
Lemma two_tick_unfold (st : SnakeTwo.State) (hitOne hitTwo : bool) :
  let n1 := SnakeTwo.moveSnake (SnakeTwo.food st) (SnakeTwo.snakeOne st)
              (SnakeTwo.directionOne st) SnakeTwo.PLAYER_ONE in
  let n2 := SnakeTwo.moveSnake (SnakeTwo.food st) (SnakeTwo.snakeTwo st)
              (SnakeTwo.directionTwo st) SnakeTwo.PLAYER_TWO in
  match n1 with
  | Some s => SnakeTwo.lands (SnakeTwo.snakeTwo st) s
  | None => Return false
  end = Return hitOne ->
  match n2 with
  | Some s => SnakeTwo.lands (SnakeTwo.snakeOne st) s
  | None => Return false
  end = Return hitTwo ->
  let valid1 := match n1 with Some _ => negb hitOne | None => false end in
  let valid2 := match n2 with Some _ => negb hitTwo | None => false end in
  SnakeTwo.tick st
  = SnakeTwo.updateBoard st
      (SnakeTwo.mkState (SnakeTwo.board st)
         (if valid1 then default [] n1
          else [SnakeTwo.mkCoord (Z.of_nat SnakeTwo.BOARD_ROWS / 2) 2
                  SnakeTwo.PLAYER_ONE])
         (if valid2 then default [] n2
          else [SnakeTwo.mkCoord (Z.of_nat SnakeTwo.BOARD_ROWS / 2)
                  (Z.of_nat SnakeTwo.BOARD_COLS - 3) SnakeTwo.PLAYER_TWO])
         (match SnakeTwo.food st with
          | Some fc =>
              if SnakeTwo.headOnFood valid1 n1 fc
                 || SnakeTwo.headOnFood valid2 n2 fc
              then None else Some fc
          | None => None
          end)
         (if valid1 then SnakeTwo.directionOne st else RIGHT)
         (if valid2 then SnakeTwo.directionTwo st else LEFT)).
Proof.
  intros n1 n2 H1 H2 valid1 valid2. unfold SnakeTwo.tick.
  fold n1. fold n2. rewrite H1, H2. subst valid1 valid2.
  destruct st as [b0 s1 s2 fd0 d1 d2].
  destruct n1 as [new1|], n2 as [new2|], hitOne, hitTwo, fd0 as [fc|];
    try discriminate; simpl;
    repeat match goal with
           | |- context [if ?c then _ else _] => destruct c
           end; reflexivity.
Qed.

(** A non-empty body stays non-empty when [moveSnake] accepts the move. *)
Lemma moveSnake_nonempty (fd : option SnakeTwo.Coord) (head : SnakeTwo.Coord)
    (tl : list SnakeTwo.Coord) (d : Direction) (t : SnakeTwo.CellType)
    (s : list SnakeTwo.Coord) :
  SnakeTwo.moveSnake fd (head :: tl) d t = Some s ->
  exists rest, s = SnakeTwo.advance head d t :: rest.
Proof.
  unfold SnakeTwo.moveSnake.
  destruct (SnakeTwo.outside _ _); [done|].
  destruct (existsb _ _); [done|].
  destruct (SnakeTwo.eats _ _); intros [= <-]; by eexists.
Qed.

(** With both snakes on the page, or none, both tests answer. *)
Lemma two_tests_answer (st : SnakeTwo.State) :
  (SnakeTwo.snakeOne st = [] <-> SnakeTwo.snakeTwo st = []) ->
  exists hitOne hitTwo,
    match SnakeTwo.moveSnake (SnakeTwo.food st) (SnakeTwo.snakeOne st)
            (SnakeTwo.directionOne st) SnakeTwo.PLAYER_ONE with
    | Some s => SnakeTwo.lands (SnakeTwo.snakeTwo st) s
    | None => Return false
    end = Return hitOne
    /\ match SnakeTwo.moveSnake (SnakeTwo.food st) (SnakeTwo.snakeTwo st)
               (SnakeTwo.directionTwo st) SnakeTwo.PLAYER_TWO with
       | Some s => SnakeTwo.lands (SnakeTwo.snakeOne st) s
       | None => Return false
       end = Return hitTwo.
Proof.
  intros Hboth.
  destruct (SnakeTwo.snakeOne st) as [|h1 t1] eqn:Hs1;
    destruct (SnakeTwo.snakeTwo st) as [|h2 t2] eqn:Hs2.
  - by exists false, false.
  - discriminate (proj1 Hboth eq_refl).
  - discriminate (proj2 Hboth eq_refl).
  - destruct (SnakeTwo.moveSnake _ (h1 :: t1) _ _) as [new1|] eqn:Hn1;
      destruct (SnakeTwo.moveSnake _ (h2 :: t2) _ _) as [new2|] eqn:Hn2;
      try (apply moveSnake_nonempty in Hn1 as [r1 ->]);
      try (apply moveSnake_nonempty in Hn2 as [r2 ->]);
      by eexists _, _.
Qed.

(** X22.  Every tick of the two-player page keeps each body
    duplicate-free, connected and on the board, whatever happens to the
    snakes: a move carried out, a reset after a collision with a wall,
    itself or the other snake, or an exception. *)
Theorem two_tick_keeps_bodies (st : SnakeTwo.State) :
  kept_two (SnakeTwo.snakeOne st) ->
  kept_two (SnakeTwo.snakeTwo st) ->
  kept_two (SnakeTwo.snakeOne (SnakeTwo.tick st).1)
  /\ kept_two (SnakeTwo.snakeTwo (SnakeTwo.tick st).1).
Proof.
  intros K1 K2. destruct homes_kept as [Kh1 Kh2]. unfold SnakeTwo.tick.
  destruct (SnakeTwo.moveSnake _ (SnakeTwo.snakeOne st) _ _)
    as [new1|] eqn:Hn1;
    destruct (SnakeTwo.moveSnake _ (SnakeTwo.snakeTwo st) _ _)
      as [new2|] eqn:Hn2;
    try (apply moveSnake_kept in Hn1 as [Kn1 _]; [|done]);
    try (apply moveSnake_kept in Hn2 as [Kn2 _]; [|done]);
    repeat match goal with
           | |- context [SnakeTwo.lands ?a ?b] =>
               destruct (SnakeTwo.lands a b) as [[]| |]
           end;
    try match goal with
        | |- context [SnakeTwo.updateBoard ?cl ?x] =>
            destruct (two_updateBoard_fields cl x) as (-> & -> & _)
        end;
    destruct st as [b0 s1 s2 [fc|] d1 d2]; simpl in *;
    repeat match goal with
           | |- context [if ?c then _ else _] => destruct c
           end; by split.
Qed.

Lemma two_tick_keeps_bodies_witness :
  kept_two
    (SnakeTwo.snakeOne
       (SnakeTwo.tick
          (SnakeTwo.mkState [] [SnakeTwo.mkCoord 10 2 SnakeTwo.PLAYER_ONE]
             [SnakeTwo.mkCoord 10 17 SnakeTwo.PLAYER_TWO] None RIGHT LEFT)).1)
  /\ kept_two
       (SnakeTwo.snakeTwo
          (SnakeTwo.tick
             (SnakeTwo.mkState [] [SnakeTwo.mkCoord 10 2 SnakeTwo.PLAYER_ONE]
                [SnakeTwo.mkCoord 10 17 SnakeTwo.PLAYER_TWO]
                None RIGHT LEFT)).1).
Proof.
  apply (two_tick_keeps_bodies
           (SnakeTwo.mkState [] [SnakeTwo.mkCoord 10 2 SnakeTwo.PLAYER_ONE]
              [SnakeTwo.mkCoord 10 17 SnakeTwo.PLAYER_TWO] None RIGHT LEFT)).
  - apply homes_kept.
  - apply homes_kept.
Defined.

(** X23.  With both bodies and the food on the board, a tick of the
    two-player page raises exactly when one snake is empty and the other
    is not: the head of the empty body is [undefined], and its [row] is
    read as soon as the other body has a cell to compare it with.  With
    both snakes on the page, or none, the tick returns normally. *)
Theorem two_tick_raises_iff_one_snake_missing (st : SnakeTwo.State) :
  Forall (fun seg => on_board SnakeTwo.BOARD_ROWS SnakeTwo.BOARD_COLS
                              (SnakeTwo.pos_of seg)) (SnakeTwo.snakeOne st) ->
  Forall (fun seg => on_board SnakeTwo.BOARD_ROWS SnakeTwo.BOARD_COLS
                              (SnakeTwo.pos_of seg)) (SnakeTwo.snakeTwo st) ->
  (forall fc, SnakeTwo.food st = Some fc ->
              on_board SnakeTwo.BOARD_ROWS SnakeTwo.BOARD_COLS
                       (SnakeTwo.pos_of fc)) ->
  (SnakeTwo.tick st).2
  = match SnakeTwo.snakeOne st, SnakeTwo.snakeTwo st with
    | [], _ :: _ | _ :: _, [] => Throw
    | _, _ => Return tt
    end.
Proof.
  intros Hone Htwo Hfood.
  assert (Hok : (SnakeTwo.snakeOne st = [] <-> SnakeTwo.snakeTwo st = []) ->
                (SnakeTwo.tick st).2 = Return tt).
  { intros Hboth. destruct (two_tests_answer st Hboth) as (h1 & h2 & H1 & H2).
    rewrite (two_tick_unfold st h1 h2 H1 H2).
    match goal with
    | |- context [SnakeTwo.updateBoard ?cl ?x] =>
        by destruct (two_updateBoard_shows cl x Hone Htwo Hfood) as (b & -> & _)
    end. }
  destruct (SnakeTwo.snakeOne st) as [|h1 t1] eqn:Hs1;
    destruct (SnakeTwo.snakeTwo st) as [|h2 t2] eqn:Hs2.
  - by apply Hok.
  - unfold SnakeTwo.tick. rewrite Hs1, Hs2.
    generalize (SnakeTwo.moveSnake (SnakeTwo.food st) (h2 :: t2)
                  (SnakeTwo.directionTwo st) SnakeTwo.PLAYER_TWO).
    by intros [new2|].
  - unfold SnakeTwo.tick. rewrite Hs1, Hs2.
    destruct (SnakeTwo.moveSnake _ (h1 :: t1) _ _) as [new1|] eqn:Hn1.
    + by apply moveSnake_nonempty in Hn1 as [r1 ->].
    + done.
  - apply Hok. by split.
Qed.

Lemma two_tick_raises_iff_one_snake_missing_witness :
  (SnakeTwo.tick
     (SnakeTwo.mkState [] [] [SnakeTwo.mkCoord 10 17 SnakeTwo.PLAYER_TWO]
        None RIGHT LEFT)).2 = Throw.
Proof.
  apply (two_tick_raises_iff_one_snake_missing
           (SnakeTwo.mkState [] [] [SnakeTwo.mkCoord 10 17 SnakeTwo.PLAYER_TWO]
              None RIGHT LEFT)).
  - constructor.
  - repeat constructor; vm_compute; congruence.
  - intros fc [=].
Defined.

(** A new head that lands on the other body makes the move invalid. *)
Lemma lands_on_body (other : list SnakeTwo.Coord) (head : SnakeTwo.Coord)
    (rest : list SnakeTwo.Coord) :
  SnakeTwo.pos_of head ∈ map SnakeTwo.pos_of other ->
  SnakeTwo.lands other (head :: rest) = Return true.
Proof.
  intros Hin. unfold SnakeTwo.lands. f_equal. by apply existsb_at_pos_two.
Qed.

Lemma two_tick_resets_one
    (st : SnakeTwo.State) (h1 : SnakeTwo.Coord) (t1 : list SnakeTwo.Coord) :
  SnakeTwo.snakeOne st = h1 :: t1 ->
  shift (SnakeTwo.pos_of h1) (SnakeTwo.directionOne st)
    ∈ map SnakeTwo.pos_of (SnakeTwo.snakeTwo st) ->
  SnakeTwo.snakeOne (SnakeTwo.tick st).1
  = [SnakeTwo.mkCoord 10 2 SnakeTwo.PLAYER_ONE]
  /\ SnakeTwo.directionOne (SnakeTwo.tick st).1 = RIGHT.
Proof.
  intros Hs1 Hin.
  assert (Hboth : SnakeTwo.snakeOne st = [] <-> SnakeTwo.snakeTwo st = []).
  { rewrite Hs1. split; [done|]. intros Heq. rewrite Heq in Hin.
    by apply elem_of_nil in Hin. }
  destruct (two_tests_answer st Hboth) as (hit1 & hit2 & H1 & H2).
  rewrite (two_tick_unfold st hit1 hit2 H1 H2).
  match goal with
  | |- context [SnakeTwo.updateBoard ?cl ?x] =>
      destruct (two_updateBoard_fields cl x) as (-> & _ & _ & -> & _)
  end.
  cbn [SnakeTwo.snakeOne SnakeTwo.directionOne].
  assert (Hinvalid :
    match SnakeTwo.moveSnake (SnakeTwo.food st) (SnakeTwo.snakeOne st)
            (SnakeTwo.directionOne st) SnakeTwo.PLAYER_ONE with
    | Some _ => negb hit1
    | None => false
    end = false).
  { rewrite Hs1 in *.
    destruct (SnakeTwo.moveSnake _ (h1 :: t1) _ _) as [new1|] eqn:Hn1; [|done].
    apply moveSnake_nonempty in Hn1 as [r1 ->].
    rewrite lands_on_body in H1 by done. by injection H1 as <-. }
  by rewrite Hinvalid.
Qed.

Lemma two_tick_resets_two
    (st : SnakeTwo.State) (h2 : SnakeTwo.Coord) (t2 : list SnakeTwo.Coord) :
  SnakeTwo.snakeTwo st = h2 :: t2 ->
  shift (SnakeTwo.pos_of h2) (SnakeTwo.directionTwo st)
    ∈ map SnakeTwo.pos_of (SnakeTwo.snakeOne st) ->
  SnakeTwo.snakeTwo (SnakeTwo.tick st).1
  = [SnakeTwo.mkCoord 10 17 SnakeTwo.PLAYER_TWO]
  /\ SnakeTwo.directionTwo (SnakeTwo.tick st).1 = LEFT.
Proof.
  intros Hs2 Hin.
  assert (Hboth : SnakeTwo.snakeOne st = [] <-> SnakeTwo.snakeTwo st = []).
  { rewrite Hs2. split; [|done]. intros Heq. rewrite Heq in Hin.
    by apply elem_of_nil in Hin. }
  destruct (two_tests_answer st Hboth) as (hit1 & hit2 & H1 & H2).
  rewrite (two_tick_unfold st hit1 hit2 H1 H2).
  match goal with
  | |- context [SnakeTwo.updateBoard ?cl ?x] =>
      destruct (two_updateBoard_fields cl x) as (_ & -> & _ & _ & ->)
  end.
  cbn [SnakeTwo.snakeTwo SnakeTwo.directionTwo].
  assert (Hinvalid :
    match SnakeTwo.moveSnake (SnakeTwo.food st) (SnakeTwo.snakeTwo st)
            (SnakeTwo.directionTwo st) SnakeTwo.PLAYER_TWO with
    | Some _ => negb hit2
    | None => false
    end = false).
  { rewrite Hs2 in *.
    destruct (SnakeTwo.moveSnake _ (h2 :: t2) _ _) as [new2|] eqn:Hn2; [|done].
    apply moveSnake_nonempty in Hn2 as [r2 ->].
    rewrite lands_on_body in H2 by done. by injection H2 as <-. }
  by rewrite Hinvalid.
Qed.

(** X24.  A snake of the two-player page whose next cell is covered by
    the other snake's body as it was before the tick, last cell
    included, is put back on its first cell with its first heading:
    player one at row 10, column 2, heading RIGHT, and player two at row
    10, column 17, heading LEFT. *)
Theorem two_tick_resets_on_other_body (st : SnakeTwo.State) :
  (forall h1 t1,
      SnakeTwo.snakeOne st = h1 :: t1 ->
      shift (SnakeTwo.pos_of h1) (SnakeTwo.directionOne st)
        ∈ map SnakeTwo.pos_of (SnakeTwo.snakeTwo st) ->
      SnakeTwo.snakeOne (SnakeTwo.tick st).1
      = [SnakeTwo.mkCoord 10 2 SnakeTwo.PLAYER_ONE]
      /\ SnakeTwo.directionOne (SnakeTwo.tick st).1 = RIGHT)
  /\ (forall h2 t2,
        SnakeTwo.snakeTwo st = h2 :: t2 ->
        shift (SnakeTwo.pos_of h2) (SnakeTwo.directionTwo st)
          ∈ map SnakeTwo.pos_of (SnakeTwo.snakeOne st) ->
        SnakeTwo.snakeTwo (SnakeTwo.tick st).1
        = [SnakeTwo.mkCoord 10 17 SnakeTwo.PLAYER_TWO]
        /\ SnakeTwo.directionTwo (SnakeTwo.tick st).1 = LEFT).
Proof.
  split.
  - intros h1 t1. apply two_tick_resets_one.
  - intros h2 t2. apply two_tick_resets_two.
Qed.

(** Player one runs into the side of player two. *)
Lemma two_tick_resets_on_other_body_witness :
  SnakeTwo.snakeOne
    (SnakeTwo.tick
       (SnakeTwo.mkState []
          [SnakeTwo.mkCoord 5 4 SnakeTwo.PLAYER_ONE;
           SnakeTwo.mkCoord 5 3 SnakeTwo.PLAYER_ONE]
          [SnakeTwo.mkCoord 4 5 SnakeTwo.PLAYER_TWO;
           SnakeTwo.mkCoord 5 5 SnakeTwo.PLAYER_TWO]
          None RIGHT UP)).1
  = [SnakeTwo.mkCoord 10 2 SnakeTwo.PLAYER_ONE]
  /\ SnakeTwo.directionOne
       (SnakeTwo.tick
          (SnakeTwo.mkState []
             [SnakeTwo.mkCoord 5 4 SnakeTwo.PLAYER_ONE;
              SnakeTwo.mkCoord 5 3 SnakeTwo.PLAYER_ONE]
             [SnakeTwo.mkCoord 4 5 SnakeTwo.PLAYER_TWO;
              SnakeTwo.mkCoord 5 5 SnakeTwo.PLAYER_TWO]
             None RIGHT UP)).1 = RIGHT.
Proof.
  apply (proj1 (two_tick_resets_on_other_body
           (SnakeTwo.mkState []
              [SnakeTwo.mkCoord 5 4 SnakeTwo.PLAYER_ONE;
               SnakeTwo.mkCoord 5 3 SnakeTwo.PLAYER_ONE]
              [SnakeTwo.mkCoord 4 5 SnakeTwo.PLAYER_TWO;
               SnakeTwo.mkCoord 5 5 SnakeTwo.PLAYER_TWO]
              None RIGHT UP))
           (SnakeTwo.mkCoord 5 4 SnakeTwo.PLAYER_ONE)
           [SnakeTwo.mkCoord 5 3 SnakeTwo.PLAYER_ONE]).
  - reflexivity.
  - simpl. apply list_elem_of_further, list_elem_of_here.
Defined.

(** The tick of the two-player page when both moves are accepted and
    neither new head lands on the other body. *)
Lemma two_tick_both_advance (st : SnakeTwo.State)
    (new1 new2 : list SnakeTwo.Coord) :
  SnakeTwo.moveSnake (SnakeTwo.food st) (SnakeTwo.snakeOne st)
    (SnakeTwo.directionOne st) SnakeTwo.PLAYER_ONE = Some new1 ->
  SnakeTwo.moveSnake (SnakeTwo.food st) (SnakeTwo.snakeTwo st)
    (SnakeTwo.directionTwo st) SnakeTwo.PLAYER_TWO = Some new2 ->
  SnakeTwo.lands (SnakeTwo.snakeTwo st) new1 = Return false ->
  SnakeTwo.lands (SnakeTwo.snakeOne st) new2 = Return false ->
  SnakeTwo.snakeOne (SnakeTwo.tick st).1 = new1
  /\ SnakeTwo.snakeTwo (SnakeTwo.tick st).1 = new2
  /\ SnakeTwo.directionOne (SnakeTwo.tick st).1 = SnakeTwo.directionOne st
  /\ SnakeTwo.directionTwo (SnakeTwo.tick st).1 = SnakeTwo.directionTwo st
  /\ SnakeTwo.food (SnakeTwo.tick st).1
     = match SnakeTwo.food st with
       | Some fc =>
           if SnakeTwo.headOnFood true (Some new1) fc
              || SnakeTwo.headOnFood true (Some new2) fc
           then None else Some fc
       | None => None
       end.
Proof.
  intros Hn1 Hn2 Hl1 Hl2.
  rewrite (two_tick_unfold st false false)
    by (by rewrite ?Hn1, ?Hn2, ?Hl1, ?Hl2).
  match goal with
  | |- context [SnakeTwo.updateBoard ?cl ?x] =>
      destruct (two_updateBoard_fields cl x) as (-> & -> & -> & -> & ->)
  end.
  rewrite Hn1, Hn2. done.
Qed.

Lemma lands_off_body (other : list SnakeTwo.Coord) (head : SnakeTwo.Coord)
    (rest : list SnakeTwo.Coord) :
  (SnakeTwo.pos_of head ∉ map SnakeTwo.pos_of other) ->
  SnakeTwo.lands other (head :: rest) = Return false.
Proof.
  intros Hoff. unfold SnakeTwo.lands. f_equal.
  apply not_true_is_false. intros H. by apply existsb_at_pos_two in H.
Qed.

(** X25.  The two-player page tests each new head against the other
    body as it was before the tick, not against the other new head: when
    both heads step onto the same cell, on the board and covered by
    neither body, both moves are carried out and the two heads end on one
    cell, each snake keeping its heading. *)
Theorem two_heads_may_meet
    (st : SnakeTwo.State) (h1 : SnakeTwo.Coord) (t1 : list SnakeTwo.Coord)
    (h2 : SnakeTwo.Coord) (t2 : list SnakeTwo.Coord) :
  SnakeTwo.snakeOne st = h1 :: t1 ->
  SnakeTwo.snakeTwo st = h2 :: t2 ->
  shift (SnakeTwo.pos_of h1) (SnakeTwo.directionOne st)
  = shift (SnakeTwo.pos_of h2) (SnakeTwo.directionTwo st) ->
  on_board SnakeTwo.BOARD_ROWS SnakeTwo.BOARD_COLS
           (shift (SnakeTwo.pos_of h1) (SnakeTwo.directionOne st)) ->
  (shift (SnakeTwo.pos_of h1) (SnakeTwo.directionOne st)
   ∉ map SnakeTwo.pos_of (h1 :: t1)) ->
  (shift (SnakeTwo.pos_of h1) (SnakeTwo.directionOne st)
   ∉ map SnakeTwo.pos_of (h2 :: t2)) ->
  exists r1 r2,
    SnakeTwo.snakeOne (SnakeTwo.tick st).1
    = SnakeTwo.advance h1 (SnakeTwo.directionOne st) SnakeTwo.PLAYER_ONE :: r1
    /\ SnakeTwo.snakeTwo (SnakeTwo.tick st).1
       = SnakeTwo.advance h2 (SnakeTwo.directionTwo st) SnakeTwo.PLAYER_TWO :: r2
    /\ SnakeTwo.pos_of
         (SnakeTwo.advance h1 (SnakeTwo.directionOne st) SnakeTwo.PLAYER_ONE)
       = SnakeTwo.pos_of
           (SnakeTwo.advance h2 (SnakeTwo.directionTwo st) SnakeTwo.PLAYER_TWO)
    /\ SnakeTwo.directionOne (SnakeTwo.tick st).1 = SnakeTwo.directionOne st
    /\ SnakeTwo.directionTwo (SnakeTwo.tick st).1 = SnakeTwo.directionTwo st.
Proof.
  intros Hs1 Hs2 Hmeet Hon Hfree1 Hfree2.
  pose proof (moveSnake_advance (SnakeTwo.food st) h1 t1
                (SnakeTwo.directionOne st) SnakeTwo.PLAYER_ONE Hon Hfree1)
    as Hn1.
  pose proof (moveSnake_advance (SnakeTwo.food st) h2 t2
                (SnakeTwo.directionTwo st) SnakeTwo.PLAYER_TWO) as Hn2.
  rewrite <- Hmeet in Hn2. specialize (Hn2 Hon Hfree2). cbv zeta in Hn1, Hn2.
  set (n1 := SnakeTwo.advance h1 (SnakeTwo.directionOne st) SnakeTwo.PLAYER_ONE)
    in *.
  set (n2 := SnakeTwo.advance h2 (SnakeTwo.directionTwo st) SnakeTwo.PLAYER_TWO)
    in *.
  assert (Hsame : SnakeTwo.pos_of n1 = SnakeTwo.pos_of n2) by exact Hmeet.
  assert (exists r1, SnakeTwo.moveSnake (SnakeTwo.food st) (h1 :: t1)
                       (SnakeTwo.directionOne st) SnakeTwo.PLAYER_ONE
                     = Some (n1 :: r1)) as [r1 Hr1]
    by (destruct (SnakeTwo.eats _ n1); by eexists).
  assert (exists r2, SnakeTwo.moveSnake (SnakeTwo.food st) (h2 :: t2)
                       (SnakeTwo.directionTwo st) SnakeTwo.PLAYER_TWO
                     = Some (n2 :: r2)) as [r2 Hr2]
    by (destruct (SnakeTwo.eats _ n2); by eexists).
  destruct (two_tick_both_advance st (n1 :: r1) (n2 :: r2))
    as (-> & -> & -> & -> & _).
  - by rewrite Hs1.
  - by rewrite Hs2.
  - rewrite Hs2. by apply lands_off_body.
  - rewrite Hs1. apply lands_off_body. by rewrite <- Hsame.
  - by exists r1, r2.
Qed.

Lemma two_heads_may_meet_witness :
  exists r1 r2,
    SnakeTwo.snakeOne
      (SnakeTwo.tick
         (SnakeTwo.mkState [] [SnakeTwo.mkCoord 10 8 SnakeTwo.PLAYER_ONE]
            [SnakeTwo.mkCoord 10 10 SnakeTwo.PLAYER_TWO] None RIGHT LEFT)).1
    = SnakeTwo.advance (SnakeTwo.mkCoord 10 8 SnakeTwo.PLAYER_ONE) RIGHT
        SnakeTwo.PLAYER_ONE :: r1
    /\ SnakeTwo.snakeTwo
         (SnakeTwo.tick
            (SnakeTwo.mkState [] [SnakeTwo.mkCoord 10 8 SnakeTwo.PLAYER_ONE]
               [SnakeTwo.mkCoord 10 10 SnakeTwo.PLAYER_TWO] None RIGHT LEFT)).1
       = SnakeTwo.advance (SnakeTwo.mkCoord 10 10 SnakeTwo.PLAYER_TWO) LEFT
           SnakeTwo.PLAYER_TWO :: r2
    /\ SnakeTwo.pos_of
         (SnakeTwo.advance (SnakeTwo.mkCoord 10 8 SnakeTwo.PLAYER_ONE) RIGHT
            SnakeTwo.PLAYER_ONE)
       = SnakeTwo.pos_of
           (SnakeTwo.advance (SnakeTwo.mkCoord 10 10 SnakeTwo.PLAYER_TWO) LEFT
              SnakeTwo.PLAYER_TWO)
    /\ SnakeTwo.directionOne
         (SnakeTwo.tick
            (SnakeTwo.mkState [] [SnakeTwo.mkCoord 10 8 SnakeTwo.PLAYER_ONE]
               [SnakeTwo.mkCoord 10 10 SnakeTwo.PLAYER_TWO] None RIGHT LEFT)).1
       = RIGHT
    /\ SnakeTwo.directionTwo
         (SnakeTwo.tick
            (SnakeTwo.mkState [] [SnakeTwo.mkCoord 10 8 SnakeTwo.PLAYER_ONE]
               [SnakeTwo.mkCoord 10 10 SnakeTwo.PLAYER_TWO] None RIGHT LEFT)).1
       = LEFT.
Proof.
  apply (two_heads_may_meet
           (SnakeTwo.mkState [] [SnakeTwo.mkCoord 10 8 SnakeTwo.PLAYER_ONE]
              [SnakeTwo.mkCoord 10 10 SnakeTwo.PLAYER_TWO] None RIGHT LEFT)
           (SnakeTwo.mkCoord 10 8 SnakeTwo.PLAYER_ONE) []
           (SnakeTwo.mkCoord 10 10 SnakeTwo.PLAYER_TWO) []).
  - reflexivity.
  - reflexivity.
  - reflexivity.
  - vm_compute. repeat split; congruence.
  - simpl. intros Hin. apply list_elem_of_singleton in Hin. discriminate.
  - simpl. intros Hin. apply list_elem_of_singleton in Hin. discriminate.
Defined.

(** X26.  With both snakes on the page (or none) and everything on the
    board, the board a tick of the two-player page leaves shows the
    bodies and the food as they were before the tick: the food cell as
    FOOD, else the cells of player two as PLAYER_TWO, else those of
    player one as PLAYER_ONE, every other cell EMPTY. *)
Theorem two_board_shows_previous_state (st : SnakeTwo.State) :
  (SnakeTwo.snakeOne st = [] <-> SnakeTwo.snakeTwo st = []) ->
  Forall (fun seg => on_board SnakeTwo.BOARD_ROWS SnakeTwo.BOARD_COLS
                              (SnakeTwo.pos_of seg)) (SnakeTwo.snakeOne st) ->
  Forall (fun seg => on_board SnakeTwo.BOARD_ROWS SnakeTwo.BOARD_COLS
                              (SnakeTwo.pos_of seg)) (SnakeTwo.snakeTwo st) ->
  (forall fc, SnakeTwo.food st = Some fc ->
              on_board SnakeTwo.BOARD_ROWS SnakeTwo.BOARD_COLS
                       (SnakeTwo.pos_of fc)) ->
  sized SnakeTwo.BOARD_ROWS SnakeTwo.BOARD_COLS
        (SnakeTwo.board (SnakeTwo.tick st).1)
  /\ forall p, on_board SnakeTwo.BOARD_ROWS SnakeTwo.BOARD_COLS p ->
       type_at_two (SnakeTwo.board (SnakeTwo.tick st).1) p
       = Some (if is_food_two (SnakeTwo.food st) p then SnakeTwo.FOOD
               else if covers_two (SnakeTwo.snakeTwo st) p
                    then SnakeTwo.PLAYER_TWO
               else if covers_two (SnakeTwo.snakeOne st) p
                    then SnakeTwo.PLAYER_ONE
               else SnakeTwo.EMPTY).
Proof.
  intros Hboth Hone Htwo Hfood.
  destruct (two_tests_answer st Hboth) as (h1 & h2 & H1 & H2).
  rewrite (two_tick_unfold st h1 h2 H1 H2).
  match goal with
  | |- context [SnakeTwo.updateBoard ?cl ?x] =>
      by destruct (two_updateBoard_shows cl x Hone Htwo Hfood)
        as (b & -> & Hsize & Hshow)
  end.
Qed.

Lemma two_board_shows_previous_state_witness :
  sized SnakeTwo.BOARD_ROWS SnakeTwo.BOARD_COLS
    (SnakeTwo.board
       (SnakeTwo.tick
          (SnakeTwo.mkState [] [SnakeTwo.mkCoord 10 2 SnakeTwo.PLAYER_ONE]
             [SnakeTwo.mkCoord 10 17 SnakeTwo.PLAYER_TWO]
             (Some (SnakeTwo.mkCoord 3 3 SnakeTwo.FOOD)) RIGHT LEFT)).1)
  /\ forall p, on_board SnakeTwo.BOARD_ROWS SnakeTwo.BOARD_COLS p ->
       type_at_two
         (SnakeTwo.board
            (SnakeTwo.tick
               (SnakeTwo.mkState [] [SnakeTwo.mkCoord 10 2 SnakeTwo.PLAYER_ONE]
                  [SnakeTwo.mkCoord 10 17 SnakeTwo.PLAYER_TWO]
                  (Some (SnakeTwo.mkCoord 3 3 SnakeTwo.FOOD)) RIGHT LEFT)).1) p
       = Some (if is_food_two (Some (SnakeTwo.mkCoord 3 3 SnakeTwo.FOOD)) p
               then SnakeTwo.FOOD
               else if covers_two [SnakeTwo.mkCoord 10 17 SnakeTwo.PLAYER_TWO] p
                    then SnakeTwo.PLAYER_TWO
               else if covers_two [SnakeTwo.mkCoord 10 2 SnakeTwo.PLAYER_ONE] p
                    then SnakeTwo.PLAYER_ONE
               else SnakeTwo.EMPTY).
Proof.
  apply (two_board_shows_previous_state
           (SnakeTwo.mkState [] [SnakeTwo.mkCoord 10 2 SnakeTwo.PLAYER_ONE]
              [SnakeTwo.mkCoord 10 17 SnakeTwo.PLAYER_TWO]
              (Some (SnakeTwo.mkCoord 3 3 SnakeTwo.FOOD)) RIGHT LEFT)).
  - done.
  - repeat constructor; vm_compute; congruence.
  - repeat constructor; vm_compute; congruence.
  - intros fc [= <-]. vm_compute. repeat split; congruence.
Defined.

Lemma headOnFood_at (head : SnakeTwo.Coord) (rest : list SnakeTwo.Coord)
    (fc : SnakeTwo.Coord) :
  SnakeTwo.pos_of head = SnakeTwo.pos_of fc ->
  SnakeTwo.headOnFood true (Some (head :: rest)) fc = true.
Proof.
  intros Hpos. unfold SnakeTwo.headOnFood.
  assert (SnakeTwo.row head = SnakeTwo.row fc
          /\ SnakeTwo.col head = SnakeTwo.col fc)
    as [-> ->] by (by injection Hpos).
  by rewrite !Z.eqb_refl.
Qed.

Lemma moveSnake_eats (fc head : SnakeTwo.Coord) (tl : list SnakeTwo.Coord)
    (d : Direction) (t : SnakeTwo.CellType) :
  shift (SnakeTwo.pos_of head) d = SnakeTwo.pos_of fc ->
  on_board SnakeTwo.BOARD_ROWS SnakeTwo.BOARD_COLS (SnakeTwo.pos_of fc) ->
  (SnakeTwo.pos_of fc ∉ map SnakeTwo.pos_of (head :: tl)) ->
  SnakeTwo.moveSnake (Some fc) (head :: tl) d t
  = Some (SnakeTwo.advance head d t :: head :: tl).
Proof.
  intros Hstep Hon Hfree.
  rewrite moveSnake_advance by (by rewrite Hstep).
  assert (SnakeTwo.eats (Some fc) (SnakeTwo.advance head d t) = true) as ->;
    [|done].
  apply eats_two_food_at. exists fc. by split.
Qed.

Section Eating.

Variable st : SnakeTwo.State.
Variables (h1 : SnakeTwo.Coord) (t1 : list SnakeTwo.Coord).
Variables (h2 : SnakeTwo.Coord) (t2 : list SnakeTwo.Coord).
Variable fc : SnakeTwo.Coord.
Hypothesis Hs1 : SnakeTwo.snakeOne st = h1 :: t1.
Hypothesis Hs2 : SnakeTwo.snakeTwo st = h2 :: t2.
Hypothesis Hfd : SnakeTwo.food st = Some fc.
Hypothesis Hon :
  on_board SnakeTwo.BOARD_ROWS SnakeTwo.BOARD_COLS (SnakeTwo.pos_of fc).
Hypothesis Hfree1 : SnakeTwo.pos_of fc ∉ map SnakeTwo.pos_of (h1 :: t1).
Hypothesis Hfree2 : SnakeTwo.pos_of fc ∉ map SnakeTwo.pos_of (h2 :: t2).

Lemma both_present : SnakeTwo.snakeOne st = [] <-> SnakeTwo.snakeTwo st = [].
Proof. by rewrite Hs1, Hs2. Qed.

Lemma two_tick_eats_one :
  shift (SnakeTwo.pos_of h1) (SnakeTwo.directionOne st) = SnakeTwo.pos_of fc ->
  SnakeTwo.snakeOne (SnakeTwo.tick st).1
  = SnakeTwo.advance h1 (SnakeTwo.directionOne st) SnakeTwo.PLAYER_ONE
    :: h1 :: t1
  /\ SnakeTwo.food (SnakeTwo.tick st).1 = None.
Proof.
  intros Hstep.
  set (n1 := SnakeTwo.advance h1 (SnakeTwo.directionOne st) SnakeTwo.PLAYER_ONE).
  assert (Hpos : SnakeTwo.pos_of n1 = SnakeTwo.pos_of fc) by exact Hstep.
  assert (Hn1 : SnakeTwo.moveSnake (SnakeTwo.food st) (SnakeTwo.snakeOne st)
                  (SnakeTwo.directionOne st) SnakeTwo.PLAYER_ONE
                = Some (n1 :: h1 :: t1))
    by (rewrite Hs1, Hfd; by apply moveSnake_eats).
  destruct (two_tests_answer st both_present) as (hit1 & hit2 & H1 & H2).
  rewrite Hn1 in H1. rewrite Hs2, lands_off_body in H1 by (by rewrite Hpos).
  injection H1 as <-.
  rewrite (two_tick_unfold st false hit2);
    [|by rewrite Hn1, Hs2, lands_off_body by (by rewrite Hpos) | done].
  match goal with
  | |- context [SnakeTwo.updateBoard ?cl ?x] =>
      destruct (two_updateBoard_fields cl x) as (-> & _ & -> & _)
  end.
  rewrite Hn1, Hfd. cbn [SnakeTwo.snakeOne SnakeTwo.food negb default].
  split; [done|]. by rewrite (headOnFood_at n1 (h1 :: t1) fc Hpos).
Qed.

Lemma two_tick_eats_two :
  shift (SnakeTwo.pos_of h2) (SnakeTwo.directionTwo st) = SnakeTwo.pos_of fc ->
  SnakeTwo.snakeTwo (SnakeTwo.tick st).1
  = SnakeTwo.advance h2 (SnakeTwo.directionTwo st) SnakeTwo.PLAYER_TWO
    :: h2 :: t2
  /\ SnakeTwo.food (SnakeTwo.tick st).1 = None.
Proof.
  intros Hstep.
  set (n2 := SnakeTwo.advance h2 (SnakeTwo.directionTwo st) SnakeTwo.PLAYER_TWO).
  assert (Hpos : SnakeTwo.pos_of n2 = SnakeTwo.pos_of fc) by exact Hstep.
  assert (Hn2 : SnakeTwo.moveSnake (SnakeTwo.food st) (SnakeTwo.snakeTwo st)
                  (SnakeTwo.directionTwo st) SnakeTwo.PLAYER_TWO
                = Some (n2 :: h2 :: t2))
    by (rewrite Hs2, Hfd; by apply moveSnake_eats).
  destruct (two_tests_answer st both_present) as (hit1 & hit2 & H1 & H2).
  rewrite Hn2 in H2. rewrite Hs1, lands_off_body in H2 by (by rewrite Hpos).
  injection H2 as <-.
  rewrite (two_tick_unfold st hit1 false);
    [|done | by rewrite Hn2, Hs1, lands_off_body by (by rewrite Hpos)].
  match goal with
  | |- context [SnakeTwo.updateBoard ?cl ?x] =>
      destruct (two_updateBoard_fields cl x) as (_ & -> & -> & _)
  end.
  rewrite Hn2, Hfd. cbn [SnakeTwo.snakeTwo SnakeTwo.food negb default].
  split; [done|].
  by rewrite (headOnFood_at n2 (h2 :: t2) fc Hpos), orb_true_r.
Qed.

End Eating.

(** X27.  When a snake of the two-player page steps onto the food cell
    and the tick accepts its move (the cell is on the board and covered
    by neither body), the snake takes the cell without giving up its last
    one and the food is removed in the same tick, for the food effect to
    place it again.  This holds for either player. *)
Theorem two_tick_eats
    (st : SnakeTwo.State) (h1 : SnakeTwo.Coord) (t1 : list SnakeTwo.Coord)
    (h2 : SnakeTwo.Coord) (t2 : list SnakeTwo.Coord) (fc : SnakeTwo.Coord) :
  SnakeTwo.snakeOne st = h1 :: t1 ->
  SnakeTwo.snakeTwo st = h2 :: t2 ->
  SnakeTwo.food st = Some fc ->
  on_board SnakeTwo.BOARD_ROWS SnakeTwo.BOARD_COLS (SnakeTwo.pos_of fc) ->
  (SnakeTwo.pos_of fc ∉ map SnakeTwo.pos_of (h1 :: t1)) ->
  (SnakeTwo.pos_of fc ∉ map SnakeTwo.pos_of (h2 :: t2)) ->
  (shift (SnakeTwo.pos_of h1) (SnakeTwo.directionOne st) = SnakeTwo.pos_of fc ->
   SnakeTwo.snakeOne (SnakeTwo.tick st).1
   = SnakeTwo.advance h1 (SnakeTwo.directionOne st) SnakeTwo.PLAYER_ONE
     :: h1 :: t1
   /\ SnakeTwo.food (SnakeTwo.tick st).1 = None)
  /\ (shift (SnakeTwo.pos_of h2) (SnakeTwo.directionTwo st)
      = SnakeTwo.pos_of fc ->
      SnakeTwo.snakeTwo (SnakeTwo.tick st).1
      = SnakeTwo.advance h2 (SnakeTwo.directionTwo st) SnakeTwo.PLAYER_TWO
        :: h2 :: t2
      /\ SnakeTwo.food (SnakeTwo.tick st).1 = None).
Proof.
  intros Hs1 Hs2 Hfd Hon Hfree1 Hfree2. split.
  - by apply (two_tick_eats_one st h1 t1 h2 t2 fc).
  - by apply (two_tick_eats_two st h1 t1 h2 t2 fc).
Qed.

(** Player one eats on its first step. *)
Lemma two_tick_eats_witness :
  SnakeTwo.snakeOne
    (SnakeTwo.tick
       (SnakeTwo.mkState [] [SnakeTwo.mkCoord 10 2 SnakeTwo.PLAYER_ONE]
          [SnakeTwo.mkCoord 10 17 SnakeTwo.PLAYER_TWO]
          (Some (SnakeTwo.mkCoord 10 3 SnakeTwo.FOOD)) RIGHT LEFT)).1
  = SnakeTwo.advance (SnakeTwo.mkCoord 10 2 SnakeTwo.PLAYER_ONE) RIGHT
      SnakeTwo.PLAYER_ONE
    :: [SnakeTwo.mkCoord 10 2 SnakeTwo.PLAYER_ONE]
  /\ SnakeTwo.food
       (SnakeTwo.tick
          (SnakeTwo.mkState [] [SnakeTwo.mkCoord 10 2 SnakeTwo.PLAYER_ONE]
             [SnakeTwo.mkCoord 10 17 SnakeTwo.PLAYER_TWO]
             (Some (SnakeTwo.mkCoord 10 3 SnakeTwo.FOOD)) RIGHT LEFT)).1
     = None.
Proof.
  apply (proj1 (two_tick_eats
           (SnakeTwo.mkState [] [SnakeTwo.mkCoord 10 2 SnakeTwo.PLAYER_ONE]
              [SnakeTwo.mkCoord 10 17 SnakeTwo.PLAYER_TWO]
              (Some (SnakeTwo.mkCoord 10 3 SnakeTwo.FOOD)) RIGHT LEFT)
           (SnakeTwo.mkCoord 10 2 SnakeTwo.PLAYER_ONE) []
           (SnakeTwo.mkCoord 10 17 SnakeTwo.PLAYER_TWO) []
           (SnakeTwo.mkCoord 10 3 SnakeTwo.FOOD)
           eq_refl eq_refl eq_refl
           ltac:(vm_compute; repeat split; congruence)
           ltac:(simpl; intros Hin; apply list_elem_of_singleton in Hin;
                 discriminate)
           ltac:(simpl; intros Hin; apply list_elem_of_singleton in Hin;
                 discriminate))).
  reflexivity.
Defined.

(** X28.  [placeFood] of the page with two snakes collects exactly the
    board cells covered by neither snake; for a random number in [0,1)
    it sets the food to one of them and touches nothing else, and when
    there is none it only warns.  It never raises. *)
Theorem with_ai_placeFood (I J : nat) (u : Q) (st : SnakeWithAi.State) :
  (0 <= u)%Q -> (u < 1)%Q ->
  (forall p, p ∈ SnakeWithAi.emptyCells I J st <->
             on_board I J p
             /\ (p ∉ map pos_of (SnakeWithAi.snake st))
             /\ (p ∉ map pos_of (SnakeWithAi.userSnake st)))
  /\ (SnakeWithAi.emptyCells I J st <> [] ->
      exists p, p ∈ SnakeWithAi.emptyCells I J st
                /\ SnakeWithAi.placeFood I J u st
                   = (SnakeWithAi.setFood (Some (mkCoord p.1 p.2 FOOD)) st,
                      Return tt))
  /\ (SnakeWithAi.emptyCells I J st = [] ->
      SnakeWithAi.placeFood I J u st
      = (SnakeWithAi.log "No empty cells available for food!" st, Return tt)).
Proof.
  intros H0 H1. split; [|split].
  - intros p. unfold SnakeWithAi.emptyCells. rewrite freeCells_spec.
    apply and_iff_compat_l.
    rewrite orb_false_iff, <- !occupied_one. done.
  - intros Hne.
    destruct (drawn_cell u (SnakeWithAi.emptyCells I J st) H0 H1 Hne)
      as (i & p & _ & Hp & Hdraw).
    exists p. split; [by eapply list_elem_of_lookup_2|].
    unfold SnakeWithAi.placeFood.
    destruct (SnakeWithAi.emptyCells I J st) as [|c0 cells] eqn:Hcells; [done|].
    cbv zeta. rewrite Hdraw. by destruct p.
  - intros Heq. unfold SnakeWithAi.placeFood. by rewrite Heq.
Qed.

Lemma with_ai_placeFood_witness :
  (forall p,
      p ∈ SnakeWithAi.emptyCells 2 2
            (SnakeWithAi.mkState [] [mkCoord 1 1 AI_SNAKE]
               [mkCoord 0 0 USER_SNAKE] None RIGHT RIGHT []) <->
      on_board 2 2 p
      /\ (p ∉ map pos_of [mkCoord 1 1 AI_SNAKE])
      /\ (p ∉ map pos_of [mkCoord 0 0 USER_SNAKE]))
  /\ (SnakeWithAi.emptyCells 2 2
        (SnakeWithAi.mkState [] [mkCoord 1 1 AI_SNAKE]
           [mkCoord 0 0 USER_SNAKE] None RIGHT RIGHT []) <> [] ->
      exists p,
        p ∈ SnakeWithAi.emptyCells 2 2
              (SnakeWithAi.mkState [] [mkCoord 1 1 AI_SNAKE]
                 [mkCoord 0 0 USER_SNAKE] None RIGHT RIGHT [])
        /\ SnakeWithAi.placeFood 2 2 (1 # 2)
             (SnakeWithAi.mkState [] [mkCoord 1 1 AI_SNAKE]
                [mkCoord 0 0 USER_SNAKE] None RIGHT RIGHT [])
           = (SnakeWithAi.setFood (Some (mkCoord p.1 p.2 FOOD))
                (SnakeWithAi.mkState [] [mkCoord 1 1 AI_SNAKE]
                   [mkCoord 0 0 USER_SNAKE] None RIGHT RIGHT []),
              Return tt))
  /\ (SnakeWithAi.emptyCells 2 2
        (SnakeWithAi.mkState [] [mkCoord 1 1 AI_SNAKE]
           [mkCoord 0 0 USER_SNAKE] None RIGHT RIGHT []) = [] ->
      SnakeWithAi.placeFood 2 2 (1 # 2)
        (SnakeWithAi.mkState [] [mkCoord 1 1 AI_SNAKE]
           [mkCoord 0 0 USER_SNAKE] None RIGHT RIGHT [])
      = (SnakeWithAi.log "No empty cells available for food!"
           (SnakeWithAi.mkState [] [mkCoord 1 1 AI_SNAKE]
              [mkCoord 0 0 USER_SNAKE] None RIGHT RIGHT []),
         Return tt)).
Proof.
  apply (with_ai_placeFood 2 2 (1 # 2)
           (SnakeWithAi.mkState [] [mkCoord 1 1 AI_SNAKE]
              [mkCoord 0 0 USER_SNAKE] None RIGHT RIGHT [])); done.
Defined.

(** ** What the planner reads of the snapshot *)

Section SameAnswers.

Variables board board' : list (list Coord).
Variables start food : Coord.
Hypothesis same_answers : forall r c, isValid board r c = isValid board' r c.

Lemma visit_same (closedSet : gset string) (current : Node)
    (openSet : list Node) (move : Direction) :
  visit board food closedSet current openSet move
  = visit board' food closedSet current openSet move.
Proof. unfold visit. by rewrite same_answers. Qed.

Lemma expand_same (closedSet : gset string) (current : Node)
    (ms : list Direction) :
  forall openSet,
    expand board food closedSet current openSet ms
    = expand board' food closedSet current openSet ms.
Proof.
  induction ms as [|move ms IH]; intros openSet; [done|].
  simpl. rewrite visit_same.
  destruct (visit board' food closedSet current openSet move); [apply IH|done..].
Qed.

Lemma search_same (fuel : nat) :
  forall openSet closedSet,
    search board start food fuel openSet closedSet
    = search board' start food fuel openSet closedSet.
Proof.
  induction fuel as [|fuel IH]; intros openSet closedSet; [done|].
  cbn [search]. destruct openSet as [|n openSet]; [done|].
  destruct (sortByF (n :: openSet)) as [|current rest]; [done|].
  cbv zeta. rewrite expand_same.
  destruct (expand board' food _ current rest moves) as [openSet'| |];
    by rewrite ?IH.
Qed.

End SameAnswers.

(** X29.  The planner reads nothing of a snapshot but its size and
    which of its cells are passable: two rectangular snapshots of the
    same size with the same passable cells give the same result, whatever
    the [row] and [col] fields their cells store and whichever tags their
    blocked cells carry. *)
Theorem planner_reads_passability_only
    (board board' : list (list Coord)) (snake : list Coord) (food : Coord) :
  rectangular board -> rectangular board' ->
  rows board = rows board' ->
  cols board = cols board' ->
  (forall p, passableb board p = passableb board' p) ->
  findShortestWayToFood board snake food
  = findShortestWayToFood board' snake food.
Proof.
  intros Hrect Hrect' Hrows Hcols Hsame. unfold findShortestWayToFood, searchFuel.
  destruct snake as [|head tl]; [done|].
  rewrite Hrows, Hcols, (search_same board board' head food); [done|].
  intros r c. by rewrite !isValid_rectangular, Hsame.
Qed.

(** The snapshot of the scenario, read with its blocked cell tagged
    USER_SNAKE and with every stored index zero. *)
Lemma planner_reads_passability_only_witness :
  findShortestWayToFood (makeBoard 5 5 tag55) [mkCoord 2 2 SNAKE]
    (mkCoord 2 4 FOOD)
  = findShortestWayToFood
      (map (map (fun cell =>
                   mkCoord 0 0 (if bool_decide (type cell = SNAKE)
                                then USER_SNAKE else type cell)))
           (makeBoard 5 5 tag55))
      [mkCoord 2 2 SNAKE] (mkCoord 2 4 FOOD).
Proof.
  apply (planner_reads_passability_only (makeBoard 5 5 tag55)).
  - apply makeBoard_rectangular.
  - intros line Hin. apply list_elem_of_fmap in Hin as (line0 & -> & Hin).
    rewrite length_map. by rewrite (makeBoard_rectangular 5 5 tag55 line0 Hin).
  - reflexivity.
  - reflexivity.
  - intros [r c]. unfold passableb, cell_at. cbn [fst snd].
    destruct ((r <? 0) || (c <? 0)) eqn:Hneg; [done|].
    apply orb_false_iff in Hneg as [Hr%Z.ltb_ge Hc%Z.ltb_ge].
    rewrite list_lookup_fmap.
    destruct (makeBoard 5 5 tag55 !! Z.to_nat r) as [line|] eqn:Hline; [|done].
    cbn [fmap option_fmap option_map]. rewrite list_lookup_fmap.
    destruct (line !! Z.to_nat c) as [cell|] eqn:Hcell; [|done].
    cbn [fmap option_fmap option_map type].
    by destruct (type cell).
Defined.

(** X30.  The search loop of the planner always ends: on a snapshot of
    [rows] by [cols] cells it takes a node out of the open set at most
    [rows * cols + 1] times, whatever the shape of the snapshot.  A call
    therefore returns or raises, and it raises only on a snapshot with a
    row shorter than the first one. *)
Theorem planner_always_ends
    (board : list (list Coord)) (snake : list Coord) (food : Coord) :
  findShortestWayToFood board snake food <> Diverge
  /\ (findShortestWayToFood board snake food = Throw -> ~ rectangular board)
  /\ (rectangular board ->
      exists answer, findShortestWayToFood board snake food = Return answer).
Proof.
  destruct (planner_total board snake food) as [[answer Hr]|[Hr Hragged]];
    rewrite Hr.
  - split; [done|]. split; [done|]. intros _. by exists answer.
  - split; [done|]. split; [done|]. intros Hrect. by destruct Hragged.
Qed.
